(** * PooledMap: a red-black tree map over a segmented object pool

    Shallow embedding of [src/PooledMap.hpp].  Nodes live in a heap
    ([gmap] from addresses to node records); every [p->field] of the C++
    code is a heap access that faults on a null or recycled pointer; the
    [while] loops and the recursive helpers are fuel-bounded fixpoints. *)

From stdpp Require Import base option list gmap fin_maps sorting.
From Stdlib Require Import ZArith Lia.

Local Open Scope Z_scope.
Set Warnings "-clear-no-such-hyp".

(** ** Keys: the two operators the template requires of [Key] *)

Class KeyOrder (Key : Type) := {
  key_eq : Key -> Key -> bool;   (* operator== *)
  key_lt : Key -> Key -> bool    (* operator<  *)
}.

Class KeyOrderLaws (Key : Type) `{KeyOrder Key} : Prop := {
  key_eq_spec : forall a b, key_eq a b = true <-> a = b;
  key_lt_irrefl : forall a, key_lt a a = false;
  key_lt_trans : forall a b c, key_lt a b = true -> key_lt b c = true -> key_lt a c = true;
  key_lt_total : forall a b, key_lt a b = true \/ a = b \/ key_lt b a = true
}.

#[export] Instance Z_KeyOrder : KeyOrder Z := {| key_eq := Z.eqb; key_lt := Z.ltb |}.

(** ** Faults and results *)

Inductive fault := NullDeref | Dangling | OutOfFuel | AllocFail.

Inductive result (A : Type) := Ok (a : A) | Fault (f : fault).
Arguments Ok {A} a.
Arguments Fault {A} f.

Definition addr := nat.
Definition ptr := option addr.

Inductive Color := RED | BLACK.

#[export] Instance Color_eq_dec : EqDecision Color.
Proof. solve_decision. Defined.

(** [std::size_t] is taken to be 64 bits wide. *)
Definition SIZE_MODULUS : Z := 2 ^ 64.

(** ** The pool *)

(** Modelled from the spec: [SegmentedObjectPool.hpp] (the pool behind
    [NodeType::create] and [recycle]) is not among the sources.  The pool
    keeps a LIFO free list of recycled slots, the number of segments
    obtained so far and the number of slots handed out of the newest
    segment.  Slot [j] of segment [i] has address
    [i * segment_capacity + j]. *)
Record Pool := mkPool {
  free_list : list addr;
  segments : nat;
  bump : nat
}.

Section PooledMap.

Context {Key Value : Type} `{KO : KeyOrder Key} `{VD : Inhabited Value}.

(** Slots per segment, and the number of segments the memory provider can
    supply. *)
Variable segment_capacity : nat.
Variable max_segments : nat.

(** [Value()] *)
Definition Value_default : Value := inhabitant.

Record Node := mkNode {
  key : Key;
  value : Value;
  left : ptr;
  right : ptr;
  parent : ptr;
  color : Color
}.

Definition with_value (v : Value) (n : Node) : Node :=
  mkNode (key n) v (left n) (right n) (parent n) (color n).
Definition with_left (p : ptr) (n : Node) : Node :=
  mkNode (key n) (value n) p (right n) (parent n) (color n).
Definition with_right (p : ptr) (n : Node) : Node :=
  mkNode (key n) (value n) (left n) p (parent n) (color n).
Definition with_parent (p : ptr) (n : Node) : Node :=
  mkNode (key n) (value n) (left n) (right n) p (color n).
Definition with_color (c : Color) (n : Node) : Node :=
  mkNode (key n) (value n) (left n) (right n) (parent n) c.

Record PooledMap := mkMap {
  mem : gmap addr Node;   (* the live slots *)
  pool : Pool;
  root : ptr;
  size_ : Z
}.

Definition empty_map : PooledMap := mkMap ∅ (mkPool [] 0 0) None 0.

(** ** State-and-fault monad *)

Definition M (A : Type) : Type := PooledMap -> result (A * PooledMap).

Definition ret {A} (a : A) : M A := fun s => Ok (a, s).
Definition bind {A B} (m : M A) (k : A -> M B) : M B :=
  fun s => match m s with
           | Ok (a, s') => k a s'
           | Fault f => Fault f
           end.
Definition fail {A} (f : fault) : M A := fun _ => Fault f.

Notation "x <- m ;; k" := (bind m (fun x => k))
  (at level 20, m at level 99, k at level 200, only parsing).
Notation "' pat <- m ;; k" := (bind m (fun x => match x with pat => k end))
  (at level 20, pat pattern, m at level 99, k at level 200, only parsing).
Notation "m ;;; k" := (bind m (fun _ => k))
  (at level 100, k at level 200, only parsing, right associativity).

(** [p->f] *)
Definition get {A} (f : Node -> A) (p : ptr) : M A :=
  fun s => match p with
           | None => Fault NullDeref
           | Some a => match mem s !! a with
                       | Some n => Ok (f n, s)
                       | None => Fault Dangling
                       end
           end.

(** [p->f = v], with [upd] the field update *)
Definition store (p : ptr) (upd : Node -> Node) : M unit :=
  fun s => match p with
           | None => Fault NullDeref
           | Some a => match mem s !! a with
                       | Some n => Ok (tt, mkMap (<[a := upd n]> (mem s)) (pool s) (root s) (size_ s))
                       | None => Fault Dangling
                       end
           end.

Definition get_root : M ptr := fun s => Ok (root s, s).
Definition set_root (p : ptr) : M unit :=
  fun s => Ok (tt, mkMap (mem s) (pool s) p (size_ s)).

(** Pointer comparison [p == q]. *)
Definition ptr_eq (p q : ptr) : bool := bool_decide (p = q).

Definition is_null (p : ptr) : bool := match p with None => true | Some _ => false end.

Definition is_red (c : Color) : bool := match c with RED => true | BLACK => false end.
Definition is_black (c : Color) : bool := match c with RED => false | BLACK => true end.

(** Every loop and recursion of one public call is given this much fuel. *)
Definition get_fuel : M nat := fun s => Ok (S (size (mem s)), s).

(** ** Pool operations *)

(** Modelled from the spec: slot selection of [create], in the spec's
    preference order: (1) pop the free list, (2) bump-allocate from the
    current segment, (3) obtain a new segment and bump-allocate from it;
    a fatal allocation error when the provider has no segment left. *)
Definition pool_alloc (p : Pool) : result (addr * Pool) :=
  match free_list p with
  | a :: fl => Ok (a, mkPool fl (segments p) (bump p))
  | [] =>
    if ((0 <? segments p) && (bump p <? segment_capacity))%nat
    then Ok (((segments p - 1) * segment_capacity + bump p)%nat,
             mkPool [] (segments p) (S (bump p)))
    else if ((segments p <? max_segments) && (0 <? segment_capacity))%nat
    then Ok ((segments p * segment_capacity)%nat, mkPool [] (S (segments p)) 1)
    else Fault AllocFail
  end.

(** Modelled from the spec: [NodeType::create(key, value)] takes a slot
    from the pool and constructs [Node(key, value)] in it; the links
    start null and the color RED (the member initialisers of [Node]). *)
Definition create (k : Key) (v : Value) : M ptr :=
  fun s => match pool_alloc (pool s) with
           | Ok (a, p') =>
             Ok (Some a, mkMap (<[a := mkNode k v None None None RED]> (mem s)) p' (root s) (size_ s))
           | Fault f => Fault f
           end.

(** Modelled from the spec: [node->recycle()] pushes the slot onto the
    free list; nothing may be read or written through the pointer
    afterwards, so the slot leaves the live heap. *)
Definition recycle (p : ptr) : M unit :=
  fun s => match p with
           | None => Fault NullDeref
           | Some a => match mem s !! a with
                       | Some _ =>
                         Ok (tt, mkMap (delete a (mem s))
                                       (mkPool (a :: free_list (pool s)) (segments (pool s)) (bump (pool s)))
                                       (root s) (size_ s))
                       | None => Fault Dangling
                       end
           end.

(** ** Rotations *)

Definition rotate_left (x : ptr) : M unit :=
  y <- get right x ;;
  yl <- get left y ;;
  store x (with_right yl) ;;;
  yl <- get left y ;;
  (if is_null yl then ret tt else store yl (with_parent x)) ;;;
  xp <- get parent x ;;
  store y (with_parent xp) ;;;
  xp <- get parent x ;;
  (if is_null xp then set_root y
   else xpl <- get left xp ;;
        if ptr_eq x xpl then store xp (with_left y)
        else store xp (with_right y)) ;;;
  store y (with_left x) ;;;
  store x (with_parent y).

Definition rotate_right (x : ptr) : M unit :=
  y <- get left x ;;
  yr <- get right y ;;
  store x (with_left yr) ;;;
  yr <- get right y ;;
  (if is_null yr then ret tt else store yr (with_parent x)) ;;;
  xp <- get parent x ;;
  store y (with_parent xp) ;;;
  xp <- get parent x ;;
  (if is_null xp then set_root y
   else xpr <- get right xp ;;
        if ptr_eq x xpr then store xp (with_right y)
        else store xp (with_left y)) ;;;
  store y (with_right x) ;;;
  store x (with_parent y).

(** ** fix_insert *)

(** The loop test [z->parent && z->parent->color == RED]. *)
Definition parent_is_red (z : ptr) : M bool :=
  zp <- get parent z ;;
  if is_null zp then ret false
  else c <- get color zp ;; ret (is_red c).

(** [y && y->color == RED] *)
Definition nonnull_red (y : ptr) : M bool :=
  if is_null y then ret false
  else c <- get color y ;; ret (is_red c).

(** [!p || p->color == BLACK] *)
Definition null_or_black (p : ptr) : M bool :=
  if is_null p then ret true
  else c <- get color p ;; ret (is_black c).

Fixpoint fix_insert_loop (fuel : nat) (z : ptr) : M unit :=
  continue <- parent_is_red z ;;
  if continue then
    match fuel with
    | O => fail OutOfFuel
    | S fuel' =>
      zp <- get parent z ;;
      zpp <- get parent zp ;;
      zppl <- get left zpp ;;
      if ptr_eq zp zppl then
        zp <- get parent z ;; zpp <- get parent zp ;;
        y <- get right zpp ;;
        yred <- nonnull_red y ;;
        if yred then
          zp <- get parent z ;; store zp (with_color BLACK) ;;;
          store y (with_color BLACK) ;;;
          zp <- get parent z ;; zpp <- get parent zp ;; store zpp (with_color RED) ;;;
          zp <- get parent z ;; zpp <- get parent zp ;;
          fix_insert_loop fuel' zpp
        else
          zp <- get parent z ;; zpr <- get right zp ;;
          z <- (if ptr_eq z zpr
                then zp <- get parent z ;; rotate_left zp ;;; ret zp
                else ret z) ;;
          zp <- get parent z ;; store zp (with_color BLACK) ;;;
          zp <- get parent z ;; zpp <- get parent zp ;; store zpp (with_color RED) ;;;
          zp <- get parent z ;; zpp <- get parent zp ;; rotate_right zpp ;;;
          fix_insert_loop fuel' z
      else
        zp <- get parent z ;; zpp <- get parent zp ;;
        y <- get left zpp ;;
        yred <- nonnull_red y ;;
        if yred then
          zp <- get parent z ;; store zp (with_color BLACK) ;;;
          store y (with_color BLACK) ;;;
          zp <- get parent z ;; zpp <- get parent zp ;; store zpp (with_color RED) ;;;
          zp <- get parent z ;; zpp <- get parent zp ;;
          fix_insert_loop fuel' zpp
        else
          zp <- get parent z ;; zpl <- get left zp ;;
          z <- (if ptr_eq z zpl
                then zp <- get parent z ;; rotate_right zp ;;; ret zp
                else ret z) ;;
          zp <- get parent z ;; store zp (with_color BLACK) ;;;
          zp <- get parent z ;; zpp <- get parent zp ;; store zpp (with_color RED) ;;;
          zp <- get parent z ;; zpp <- get parent zp ;; rotate_left zpp ;;;
          fix_insert_loop fuel' z
    end
  else ret tt.

Definition fix_insert (fuel : nat) (z : ptr) : M unit :=
  fix_insert_loop fuel z ;;;
  r <- get_root ;;
  store r (with_color BLACK).

(** ** operator[] *)

(** The descent of [operator[]]: the node holding [k] (or null) and the
    last node visited. *)
Fixpoint upsert_descend (fuel : nat) (k : Key) (cur parent : ptr) : M (ptr * ptr) :=
  if is_null cur then ret (None, parent)
  else match fuel with
       | O => fail OutOfFuel
       | S fuel' =>
         ck <- get key cur ;;
         if key_eq k ck then ret (cur, parent)
         else
           next <- (if key_lt k ck then get left cur else get right cur) ;;
           upsert_descend fuel' k next cur
       end.

Definition incr_size : M unit :=
  fun s => Ok (tt, mkMap (mem s) (pool s) (root s) ((size_ s + 1) mod SIZE_MODULUS)).
Definition decr_size : M unit :=
  fun s => Ok (tt, mkMap (mem s) (pool s) (root s) ((size_ s - 1) mod SIZE_MODULUS)).

(** [operator[]]; the [Value&] it returns is the pointer to the node that
    holds the value. *)
Definition upsert (k : Key) : M ptr :=
  fuel <- get_fuel ;;
  r <- get_root ;;
  '(cur, parent) <- upsert_descend fuel k r None ;;
  if is_null cur then
    node <- create k Value_default ;;
    store node (with_parent None) ;;;
    store node (with_right None) ;;;
    store node (with_left None) ;;;
    store node (with_color RED) ;;;
    store node (with_parent parent) ;;;
    r <- get_root ;;
    (if is_null r then set_root node
     else pk <- get key parent ;;
          if key_lt k pk then store parent (with_left node)
          else store parent (with_right node)) ;;;
    fuel <- get_fuel ;;
    fix_insert fuel node ;;;
    incr_size ;;;
    ret node
  else ret cur.

(** Reading and writing through a [Value&]. *)
Definition read_ref (p : ptr) : M Value := get value p.
Definition write_ref (p : ptr) (v : Value) : M unit := store p (with_value v).

(** ** find, contains *)

Fixpoint find_loop (fuel : nat) (k : Key) (cur : ptr) : M Value :=
  if is_null cur then ret Value_default
  else match fuel with
       | O => fail OutOfFuel
       | S fuel' =>
         ck <- get key cur ;;
         if key_eq k ck then get value cur
         else
           next <- (if key_lt k ck then get left cur else get right cur) ;;
           find_loop fuel' k next
       end.

Definition find (k : Key) : M Value :=
  fuel <- get_fuel ;;
  r <- get_root ;;
  find_loop fuel k r.

Fixpoint contains_loop (fuel : nat) (k : Key) (cur : ptr) : M bool :=
  if is_null cur then ret false
  else match fuel with
       | O => fail OutOfFuel
       | S fuel' =>
         ck <- get key cur ;;
         if key_eq k ck then ret true
         else
           next <- (if key_lt k ck then get left cur else get right cur) ;;
           contains_loop fuel' k next
       end.

Definition contains (k : Key) : M bool :=
  fuel <- get_fuel ;;
  r <- get_root ;;
  contains_loop fuel k r.

Definition size : M Z := fun s => Ok (size_ s, s).
Definition empty : M bool := fun s => Ok (size_ s =? 0, s).

(** ** erase *)

Fixpoint minimum (fuel : nat) (node : ptr) : M ptr :=
  l <- get left node ;;
  if is_null l then ret node
  else match fuel with
       | O => fail OutOfFuel
       | S fuel' => minimum fuel' l
       end.

Definition transplant (u v : ptr) : M unit :=
  up <- get parent u ;;
  (if is_null up then set_root v
   else upl <- get left up ;;
        if ptr_eq u upl then store up (with_left v)
        else store up (with_right v)) ;;;
  if is_null v then ret tt
  else up <- get parent u ;; store v (with_parent up).

Fixpoint fix_erase_loop (fuel : nat) (x x_parent : ptr) : M ptr :=
  r <- get_root ;;
  continue <- (if ptr_eq x r then ret false else null_or_black x) ;;
  if continue then
    match fuel with
    | O => fail OutOfFuel
    | S fuel' =>
      xpl <- get left x_parent ;;
      if ptr_eq x xpl then
        w <- get right x_parent ;;
        wred <- nonnull_red w ;;
        w <- (if wred then
                store w (with_color BLACK) ;;;
                store x_parent (with_color RED) ;;;
                rotate_left x_parent ;;;
                get right x_parent
              else ret w) ;;
        wl <- get left w ;; wlb <- null_or_black wl ;;
        wrb <- (if wlb then wr <- get right w ;; null_or_black wr else ret false) ;;
        if wlb && wrb then
          store w (with_color RED) ;;;
          xpp <- get parent x_parent ;;
          fix_erase_loop fuel' x_parent xpp
        else
          wr <- get right w ;; wrb <- null_or_black wr ;;
          w <- (if wrb then
                  wl <- get left w ;;
                  (if is_null wl then ret tt else store wl (with_color BLACK)) ;;;
                  store w (with_color RED) ;;;
                  rotate_right w ;;;
                  get right x_parent
                else ret w) ;;
          xpc <- get color x_parent ;;
          store w (with_color xpc) ;;;
          store x_parent (with_color BLACK) ;;;
          wr <- get right w ;;
          (if is_null wr then ret tt else store wr (with_color BLACK)) ;;;
          rotate_left x_parent ;;;
          r <- get_root ;;
          fix_erase_loop fuel' r x_parent
      else
        w <- get left x_parent ;;
        wred <- nonnull_red w ;;
        w <- (if wred then
                store w (with_color BLACK) ;;;
                store x_parent (with_color RED) ;;;
                rotate_right x_parent ;;;
                get left x_parent
              else ret w) ;;
        wr <- get right w ;; wrb <- null_or_black wr ;;
        wlb <- (if wrb then wl <- get left w ;; null_or_black wl else ret false) ;;
        if wrb && wlb then
          store w (with_color RED) ;;;
          xpp <- get parent x_parent ;;
          fix_erase_loop fuel' x_parent xpp
        else
          wl <- get left w ;; wlb <- null_or_black wl ;;
          w <- (if wlb then
                  wr <- get right w ;;
                  (if is_null wr then ret tt else store wr (with_color BLACK)) ;;;
                  store w (with_color RED) ;;;
                  rotate_left w ;;;
                  get left x_parent
                else ret w) ;;
          xpc <- get color x_parent ;;
          store w (with_color xpc) ;;;
          store x_parent (with_color BLACK) ;;;
          wl <- get left w ;;
          (if is_null wl then ret tt else store wl (with_color BLACK)) ;;;
          rotate_right x_parent ;;;
          r <- get_root ;;
          fix_erase_loop fuel' r x_parent
    end
  else ret x.

Definition fix_erase (fuel : nat) (x x_parent : ptr) : M unit :=
  x <- fix_erase_loop fuel x x_parent ;;
  if is_null x then ret tt else store x (with_color BLACK).

Fixpoint erase_search (fuel : nat) (k : Key) (z : ptr) : M ptr :=
  if is_null z then ret None
  else match fuel with
       | O => fail OutOfFuel
       | S fuel' =>
         zk <- get key z ;;
         if key_eq k zk then ret z
         else
           next <- (if key_lt k zk then get left z else get right z) ;;
           erase_search fuel' k next
       end.

Definition erase (k : Key) : M Z :=
  fuel <- get_fuel ;;
  r <- get_root ;;
  z <- erase_search fuel k r ;;
  if is_null z then ret 0
  else
    y_original_color <- get color z ;;
    zl <- get left z ;;
    '(x, x_parent, y_original_color) <-
      (if is_null zl then
         x <- get right z ;;
         x_parent <- get parent z ;;
         zr <- get right z ;;
         transplant z zr ;;;
         ret (x, x_parent, y_original_color)
       else
         zr <- get right z ;;
         if is_null zr then
           x <- get left z ;;
           x_parent <- get parent z ;;
           zl <- get left z ;;
           transplant z zl ;;;
           ret (x, x_parent, y_original_color)
         else
           zr <- get right z ;;
           y <- minimum fuel zr ;;
           y_original_color <- get color y ;;
           x <- get right y ;;
           yp <- get parent y ;;
           x_parent <-
             (if ptr_eq yp z then
                (if is_null x then ret tt else store x (with_parent y)) ;;;
                ret y
              else
                yr <- get right y ;;
                transplant y yr ;;;
                zr <- get right z ;;
                store y (with_right zr) ;;;
                yr <- get right y ;;
                store yr (with_parent y) ;;;
                get parent y) ;;
           transplant z y ;;;
           zl <- get left z ;;
           store y (with_left zl) ;;;
           yl <- get left y ;;
           store yl (with_parent y) ;;;
           zc <- get color z ;;
           store y (with_color zc) ;;;
           ret (x, x_parent, y_original_color)) ;;
    recycle z ;;;
    decr_size ;;;
    (if is_black y_original_color then fix_erase fuel x x_parent else ret tt) ;;;
    ret 1.

(** ** for_each *)

(** The visitor receives the key, the value (by reference: it returns the
    value to store back) and its own captured state. *)
Fixpoint inorder_traverse {A} (fuel : nat) (node : ptr)
    (func : Key -> Value -> A -> Value * A) (acc : A) : M A :=
  if is_null node then ret acc
  else match fuel with
       | O => fail OutOfFuel
       | S fuel' =>
         l <- get left node ;;
         acc <- inorder_traverse fuel' l func acc ;;
         k <- get key node ;;
         v <- get value node ;;
         let '(v', acc) := func k v acc in
         store node (with_value v') ;;;
         r <- get right node ;;
         inorder_traverse fuel' r func acc
       end.

Definition for_each {A} (func : Key -> Value -> A -> Value * A) (acc : A) : M A :=
  fuel <- get_fuel ;;
  r <- get_root ;;
  inorder_traverse fuel r func acc.

(** The visitor that records its arguments, in call order. *)
Definition record_call (k : Key) (v : Value) (acc : list (Key * Value)) : Value * list (Key * Value) :=
  (v, acc ++ [(k, v)]).

(** ** clear (the destructor's helper) *)

Fixpoint clear (fuel : nat) (node : ptr) : M unit :=
  if is_null node then ret tt
  else match fuel with
       | O => fail OutOfFuel
       | S fuel' =>
         l <- get left node ;;
         clear fuel' l ;;;
         r <- get right node ;;
         clear fuel' r ;;;
         recycle node
       end.

(** [~PooledMap() { clear(root); }] *)
Definition destroy : M unit :=
  fuel <- get_fuel ;;
  r <- get_root ;;
  clear fuel r.

(** * The tree a heap holds *)

(** The shape a heap holds: a binary tree of colored, addressed nodes. *)
Inductive tree :=
| Leaf
| Br (c : Color) (l : tree) (a : addr) (k : Key) (v : Value) (r : tree).

(** One step of the path from a node up to the root: the parent node and
    the sibling subtree. *)
Inductive frame :=
| FrL (c : Color) (a : addr) (k : Key) (v : Value) (r : tree)   (* the hole is the left child *)
| FrR (c : Color) (l : tree) (a : addr) (k : Key) (v : Value).  (* the hole is the right child *)

Definition ctx := list frame.

Definition rootp (t : tree) : ptr :=
  match t with Leaf => None | Br _ _ a _ _ _ => Some a end.

Definition fr_addr (f : frame) : addr :=
  match f with FrL _ a _ _ _ => a | FrR _ _ a _ _ => a end.

Definition fr_color (f : frame) : Color :=
  match f with FrL c _ _ _ _ => c | FrR c _ _ _ _ => c end.

Definition fill (f : frame) (t : tree) : tree :=
  match f with
  | FrL c a k v r => Br c t a k v r
  | FrR c l a k v => Br c l a k v t
  end.

Definition ctx_ptr (cx : ctx) : ptr :=
  match cx with [] => None | f :: _ => Some (fr_addr f) end.

Fixpoint plug (t : tree) (cx : ctx) : tree :=
  match cx with
  | [] => t
  | f :: cx' => plug (fill f t) cx'
  end.

Fixpoint croot (cx : ctx) (hole : ptr) : ptr :=
  match cx with
  | [] => hole
  | f :: cx' => croot cx' (Some (fr_addr f))
  end.

Fixpoint aset (t : tree) : gset addr :=
  match t with
  | Leaf => ∅
  | Br _ l a _ _ r => {[a]} ∪ (aset l ∪ aset r)
  end.

Definition fr_aset (f : frame) : gset addr :=
  match f with
  | FrL _ a _ _ r => {[a]} ∪ aset r
  | FrR _ l a _ _ => {[a]} ∪ aset l
  end.

Fixpoint caset (cx : ctx) : gset addr :=
  match cx with
  | [] => ∅
  | f :: cx' => fr_aset f ∪ caset cx'
  end.

(** No address occurs twice. *)
Fixpoint wf (t : tree) : Prop :=
  match t with
  | Leaf => True
  | Br _ l a _ _ r => (a ∉ aset l) ∧ (a ∉ aset r) ∧ (aset l ## aset r) ∧ wf l ∧ wf r
  end.

Definition fr_wf (f : frame) : Prop :=
  match f with
  | FrL _ a _ _ r => (a ∉ aset r) ∧ wf r
  | FrR _ l a _ _ => (a ∉ aset l) ∧ wf l
  end.

Fixpoint cwf (cx : ctx) : Prop :=
  match cx with
  | [] => True
  | f :: cx' => fr_wf f ∧ (fr_aset f ## caset cx') ∧ cwf cx'
  end.

(** The heap [h] holds the tree [t] below the parent pointer [par]. *)
Fixpoint rep (h : gmap addr Node) (par : ptr) (t : tree) : Prop :=
  match t with
  | Leaf => True
  | Br c l a k v r =>
    h !! a = Some (mkNode k v (rootp l) (rootp r) par c) ∧
    rep h (Some a) l ∧ rep h (Some a) r
  end.

Definition fr_rep (h : gmap addr Node) (f : frame) (hole par : ptr) : Prop :=
  match f with
  | FrL c a k v r => h !! a = Some (mkNode k v hole (rootp r) par c) ∧ rep h (Some a) r
  | FrR c l a k v => h !! a = Some (mkNode k v (rootp l) hole par c) ∧ rep h (Some a) l
  end.

Fixpoint crep (h : gmap addr Node) (cx : ctx) (hole : ptr) : Prop :=
  match cx with
  | [] => True
  | f :: cx' => fr_rep h f hole (ctx_ptr cx') ∧ crep h cx' (Some (fr_addr f))
  end.

(** The state [s] holds exactly the tree [t]; its pool is [P] and its
    counter [n]. *)
Definition AbsG (t : tree) (G : gset addr) (P : Pool) (n : Z) (s : PooledMap) : Prop :=
  root s = rootp t ∧ rep (mem s) None t ∧ wf t ∧
  dom (mem s) = aset t ∪ G ∧ aset t ## G ∧
  pool s = P ∧ size_ s = n.

Definition Abs (t : tree) (P : Pool) (n : Z) (s : PooledMap) : Prop :=
  AbsG t ∅ P n s.

(** [m] runs from [s] without a fault, to a result and a state that
    satisfy [Q]. *)
Definition runs {A} (m : M A) (s : PooledMap) (Q : A → PooledMap → Prop) : Prop :=
  ∃ a s', m s = Ok (a, s') ∧ Q a s'.

(** * The operations on trees *)

Definition blacken (t : tree) : tree :=
  match t with Leaf => Leaf | Br _ l a k v r => Br BLACK l a k v r end.

Definition recolor_frame (c : Color) (f : frame) : frame :=
  match f with
  | FrL _ a k v r => FrL c a k v r
  | FrR _ l a k v => FrR c l a k v
  end.

(** The color of a subtree's root; a nil leaf counts as BLACK. *)
Definition tcol (t : tree) : Color :=
  match t with Leaf => BLACK | Br c _ _ _ _ _ => c end.

(** The tree that the loop of [fix_insert] leaves, started at the root
    of [t] below the path [cx]; [None] where the loop would dereference
    a null pointer. *)
Fixpoint ins_fix (t : tree) (cx : ctx) {struct cx} : option tree :=
  match cx with
  | [] => Some t
  | f1 :: cx1 =>
    match fr_color f1 with
    | BLACK => Some (plug t cx)
    | RED =>
      match cx1 with
      | [] => None
      | FrL cg g kg vg u :: cx2 =>
        match u with
        | Br RED ul ua uk uv ur =>
          ins_fix (Br RED (fill (recolor_frame BLACK f1) t) g kg vg (Br BLACK ul ua uk uv ur)) cx2
        | _ =>
          match f1 with
          | FrL _ p kp vp pr => Some (plug (Br BLACK t p kp vp (Br RED pr g kg vg u)) cx2)
          | FrR _ pl p kp vp =>
            match t with
            | Leaf => None
            | Br ct tl z kz vz tr =>
              Some (plug (Br BLACK (Br RED pl p kp vp tl) z kz vz (Br RED tr g kg vg u)) cx2)
            end
          end
        end
      | FrR cg u g kg vg :: cx2 =>
        match u with
        | Br RED ul ua uk uv ur =>
          ins_fix (Br RED (Br BLACK ul ua uk uv ur) g kg vg (fill (recolor_frame BLACK f1) t)) cx2
        | _ =>
          match f1 with
          | FrR _ pl p kp vp => Some (plug (Br BLACK (Br RED u g kg vg pl) p kp vp t) cx2)
          | FrL _ p kp vp pr =>
            match t with
            | Leaf => None
            | Br ct tl z kz vz tr =>
              Some (plug (Br BLACK (Br RED u g kg vg tl) z kz vz (Br RED tr p kp vp pr)) cx2)
            end
          end
        end
      end
    end
  end.

(** The binary-search descent for [k]: the subtree it stops at (the node
    holding [k], or a nil leaf) and the path to it. *)
Fixpoint locate (k : Key) (t : tree) (cx : ctx) : tree * ctx :=
  match t with
  | Leaf => (Leaf, cx)
  | Br c l a k' v r =>
    if key_eq k k' then (t, cx)
    else if key_lt k k' then locate k l (FrL c a k' v r :: cx)
    else locate k r (FrR c l a k' v :: cx)
  end.

Fixpoint height (t : tree) : nat :=
  match t with
  | Leaf => 0
  | Br _ l _ _ _ r => S (Nat.max (height l) (height r))
  end.

Definition is_blackt (t : tree) : bool := is_black (tcol t).

(** One pass through the body of the loop of [fix_erase] when [x], the
    root of [t], is the left child of [p] and [w] is its sibling, after
    the red-sibling case has been dealt with; [continue] is the rest of
    the loop, entered at [p] when the sibling's children are both BLACK. *)
Definition del_cases_L (t : tree) (cp : Color) (p : addr) (kp : Key) (vp : Value)
    (w : tree) (cx : ctx) (continue : tree → option tree) : option tree :=
  match w with
  | Leaf => None
  | Br cw wl wa wk wv wr =>
    if is_blackt wl && is_blackt wr then
      continue (Br cp t p kp vp (Br RED wl wa wk wv wr))
    else if is_blackt wr then
      match wl with
      | Leaf => None
      | Br _ wll wla wlk wlv wlr =>
        Some (blacken (plug (Br cp (Br BLACK t p kp vp wll) wla wlk wlv
                                   (Br BLACK wlr wa wk wv wr)) cx))
      end
    else
      Some (blacken (plug (Br cp (Br BLACK t p kp vp wl) wa wk wv (blacken wr)) cx))
  end.

Definition del_cases_R (t : tree) (cp : Color) (p : addr) (kp : Key) (vp : Value)
    (w : tree) (cx : ctx) (continue : tree → option tree) : option tree :=
  match w with
  | Leaf => None
  | Br cw wl wa wk wv wr =>
    if is_blackt wr && is_blackt wl then
      continue (Br cp (Br RED wl wa wk wv wr) p kp vp t)
    else if is_blackt wl then
      match wr with
      | Leaf => None
      | Br _ wrl wra wrk wrv wrr =>
        Some (blacken (plug (Br cp (Br BLACK wl wa wk wv wrl) wra wrk wrv
                                   (Br BLACK wrr p kp vp t)) cx))
      end
    else
      Some (blacken (plug (Br cp (blacken wl) wa wk wv (Br BLACK wr p kp vp t)) cx))
  end.

(** The tree that [fix_erase] leaves, started at the root of [t] (which
    may be nil) below the path [cx]; [None] where it would dereference a
    null pointer. *)
Fixpoint del_fix (t : tree) (cx : ctx) {struct cx} : option tree :=
  match cx with
  | [] => Some (blacken t)
  | f :: cx' =>
    match tcol t with
    | RED => Some (plug (blacken t) cx)
    | BLACK =>
      match f with
      | FrL cp p kp vp w =>
        match w with
        | Br RED wl wa wk wv wr =>
          del_cases_L t RED p kp vp wl (FrL BLACK wa wk wv wr :: cx')
            (λ t', Some (plug (blacken t') (FrL BLACK wa wk wv wr :: cx')))
        | _ => del_cases_L t cp p kp vp w cx' (λ t', del_fix t' cx')
        end
      | FrR cp w p kp vp =>
        match w with
        | Br RED wl wa wk wv wr =>
          del_cases_R t RED p kp vp wr (FrR BLACK wl wa wk wv :: cx')
            (λ t', Some (plug (blacken t') (FrR BLACK wl wa wk wv :: cx')))
        | _ => del_cases_R t cp p kp vp w cx' (λ t', del_fix t' cx')
        end
      end
    end
  end.

(** The leftmost node below [t] and the path to it. *)
Fixpoint locate_min (t : tree) (cx : ctx) : tree * ctx :=
  match t with
  | Leaf => (Leaf, cx)
  | Br c l a k v r =>
    match l with
    | Leaf => (t, cx)
    | Br _ _ _ _ _ _ => locate_min l (FrL c a k v r :: cx)
    end
  end.

(** The tree [erase] leaves after removing the node at the root of the
    subtree [Br c l z k v r] below the path [cx]. *)
Definition erase_at (c : Color) (l : tree) (z : addr) (k : Key) (v : Value) (r : tree)
    (cx : ctx) : option tree :=
  match l with
  | Leaf => if is_black c then del_fix r cx else Some (plug r cx)
  | Br _ _ _ _ _ _ =>
    match r with
    | Leaf => if is_black c then del_fix l cx else Some (plug l cx)
    | Br _ _ _ _ _ _ =>
      match locate_min r [] with
      | (Br cy Leaf y ky vy yr, cxy) =>
        let cx' := cxy ++ FrR c l y ky vy :: cx in
        if is_black cy then del_fix yr cx' else Some (plug yr cx')
      | _ => None
      end
    end
  end.

(** What a traversal with the visitor [f] leaves: the tree with the
    values the visitor stored back, and the visitor's final state. *)
Fixpoint visit {A} (f : Key → Value → A → Value * A) (t : tree) (acc : A) : tree * A :=
  match t with
  | Leaf => (Leaf, acc)
  | Br c l a k v r =>
    let '(l', acc1) := visit f l acc in
    let '(v', acc2) := f k v acc1 in
    let '(r', acc3) := visit f r acc2 in
    (Br c l' a k v' r', acc3)
  end.

(** The value [find] returns from the subtree the descent stopped at. *)
Definition found_value (t : tree) : Value :=
  match t with Leaf => Value_default | Br _ _ _ _ v _ => v end.

Definition is_node (t : tree) : bool :=
  match t with Leaf => false | Br _ _ _ _ _ _ => true end.

(** The addresses of a tree, children before their parent. *)
Fixpoint postorder (t : tree) : list addr :=
  match t with
  | Leaf => []
  | Br _ l a _ _ r => postorder l ++ postorder r ++ [a]
  end.

(** * Red-black trees and their entries *)

Definition blk (c : Color) : nat := match c with RED => 0 | BLACK => 1 end.

(** The number of BLACK nodes on every path from the root of [t] down to
    a nil leaf, one list entry per nil leaf. *)
Fixpoint black_counts (t : tree) : list nat :=
  match t with
  | Leaf => [0%nat]
  | Br c l _ _ _ r => (λ m, (m + blk c)%nat) <$> (black_counts l ++ black_counts r)
  end.

(** The number of BLACK nodes down the left spine. *)
Fixpoint bh (t : tree) : nat :=
  match t with
  | Leaf => 0
  | Br c l _ _ _ _ => bh l + blk c
  end.

Fixpoint balanced (t : tree) : Prop :=
  match t with
  | Leaf => True
  | Br _ l _ _ _ r => bh l = bh r ∧ balanced l ∧ balanced r
  end.

(** No RED node has a RED child. *)
Fixpoint rr_free (t : tree) : Prop :=
  match t with
  | Leaf => True
  | Br c l _ _ _ r =>
    (c = RED → tcol l = BLACK ∧ tcol r = BLACK) ∧ rr_free l ∧ rr_free r
  end.

(** The red-black invariants of a tree. *)
Definition RB (t : tree) : Prop :=
  tcol t = BLACK ∧ rr_free t ∧ balanced t.

Definition fr_sib (f : frame) : tree :=
  match f with FrL _ _ _ _ r => r | FrR _ l _ _ _ => l end.

Fixpoint cbal (cx : ctx) (n : nat) : Prop :=
  match cx with
  | [] => True
  | f :: cx' => bh (fr_sib f) = n ∧ balanced (fr_sib f) ∧ cbal cx' (n + blk (fr_color f))
  end.

Fixpoint crr (cx : ctx) (c : Color) : Prop :=
  match cx with
  | [] => True
  | f :: cx' =>
    (fr_color f = RED → c = BLACK ∧ tcol (fr_sib f) = BLACK) ∧
    rr_free (fr_sib f) ∧ crr cx' (fr_color f)
  end.

Fixpoint croot_col (cx : ctx) (c : Color) : Color :=
  match cx with
  | [] => c
  | f :: cx' => croot_col cx' (fr_color f)
  end.

(** The nodes of a tree, in order: address, key and value. *)
Fixpoint nodes (t : tree) : list (addr * Key * Value) :=
  match t with
  | Leaf => []
  | Br _ l a k v r => nodes l ++ (a, k, v) :: nodes r
  end.

Fixpoint cleft (cx : ctx) : list (addr * Key * Value) :=
  match cx with
  | [] => []
  | FrL _ _ _ _ _ :: cx' => cleft cx'
  | FrR _ l a k v :: cx' => cleft cx' ++ nodes l ++ [(a, k, v)]
  end.

Fixpoint cright (cx : ctx) : list (addr * Key * Value) :=
  match cx with
  | [] => []
  | FrL _ a k v r :: cx' => (a, k, v) :: nodes r ++ cright cx'
  | FrR _ _ _ _ _ :: cx' => cright cx'
  end.

Definition ekey (e : addr * Key * Value) : Key := e.1.2.
Definition entry_of (e : addr * Key * Value) : Key * Value := (e.1.2, e.2).

(** The entries of a tree, in order. *)
Definition inorder (t : tree) : list (Key * Value) := entry_of <$> nodes t.

Definition klt (a b : Key) : Prop := key_lt a b = true.

(** Strictly increasing keys. *)
Definition sorted_keys (l : list (addr * Key * Value)) : Prop :=
  StronglySorted klt (ekey <$> l).

(** * Auxiliary notions of the refinement proofs *)

(** The side of its parent on which the descent for [k] ended. *)
Definition link_side (k : Key) (cx : ctx) : Prop :=
  match cx with
  | [] => True
  | FrL _ _ kp _ _ :: _ => key_lt k kp = true
  | FrR _ _ _ kp _ :: _ => key_lt k kp = false
  end.

(** What the loop of [fix_erase] returns: the node [x] it stopped at,
    which is then colored BLACK. *)
Definition erase_loop_post (T' : tree) (P : Pool) (n : Z) (x : ptr) (s' : PooledMap) : Prop :=
  ∃ t'' cx'', x = rootp t'' ∧ Abs (plug t'' cx'') P n s' ∧ T' = plug (blacken t'') cx''.

(** The rest of the two-children case of [erase] once the successor [y]
    is known: [y] takes the place of [z]. *)
Definition replace_by (z y x : ptr) (yoc : Color) (x_parent : ptr) : M (ptr * ptr * Color) :=
  bind (transplant z y) (λ _,
  bind (get left z) (λ zl,
  bind (store y (with_left zl)) (λ _,
  bind (get left y) (λ yl,
  bind (store yl (with_parent y)) (λ _,
  bind (get color z) (λ zc,
  bind (store y (with_color zc)) (λ _,
  ret (x, x_parent, yoc)))))))).

Definition pool_push (z : addr) (P : Pool) : Pool :=
  mkPool (z :: free_list P) (segments P) (bump P).

(** The state after the nodes of [t] have been recycled in post-order. *)
Definition cleared (t : tree) (s s' : PooledMap) : Prop :=
  (∀ a, mem s' !! a = if decide (a ∈ aset t) then None else mem s !! a) ∧
  pool s' = mkPool (reverse (postorder t) ++ free_list (pool s))
                   (segments (pool s)) (bump (pool s)) ∧
  root s' = root s ∧ size_ s' = size_ s.

(** * Auxiliary notions of the invariant proofs *)

Fixpoint cbh (cx : ctx) (n : nat) : nat :=
  match cx with
  | [] => n
  | f :: cx' => cbh cx' (n + blk (fr_color f))
  end.

(** The path [cx] was taken by a descent for [k]: everything to its left
    is below [k], everything to its right above. *)
Definition bounds (k : Key) (cx : ctx) : Prop :=
  Forall (λ e, klt (ekey e) k) (cleft cx) ∧ Forall (λ e, klt k (ekey e)) (cright cx).

(** * The pool's bookkeeping *)

(** The first slot address the pool has not handed out yet. *)
Definition frontier (P : Pool) : nat :=
  match segments P with
  | O => 0
  | S m => m * segment_capacity + bump P
  end.

(** The pool's bookkeeping agrees with the set [live] of slots in use. *)
Definition pool_ok (P : Pool) (live : gset addr) : Prop :=
  NoDup (free_list P) ∧
  (∀ a, a ∈ free_list P → a ∉ live) ∧
  (∀ a, a ∈ live ∨ a ∈ free_list P → (a < frontier P)%nat) ∧
  (bump P ≤ segment_capacity)%nat ∧
  (segments P ≤ max_segments)%nat.

(** * Client programs and the representation invariant *)

(** The calls a client makes: [m[k]], [m[k] = v] and [m.erase(k)]. *)
Inductive op :=
| OpUpsert (k : Key)
| OpAssign (k : Key) (v : Value)
| OpErase (k : Key).

(** What a call did: an [operator[]] call found its key ([EvFound]) or
    inserted it ([EvInserted]); an [erase] call returned a count. *)
Inductive event :=
| EvFound (k : Key)
| EvInserted (k : Key)
| EvErased (k : Key) (count : Z).

Definition apply_op (o : op) : M event :=
  match o with
  | OpUpsert k =>
    present <- contains k ;;
    upsert k ;;;
    ret (if present then EvFound k else EvInserted k)
  | OpAssign k v =>
    present <- contains k ;;
    p <- upsert k ;;
    write_ref p v ;;;
    ret (if present then EvFound k else EvInserted k)
  | OpErase k =>
    count <- erase k ;;
    ret (EvErased k count)
  end.

Fixpoint run (ops : list op) : M (list event) :=
  match ops with
  | [] => ret []
  | o :: ops' =>
    e <- apply_op o ;;
    es <- run ops' ;;
    ret (e :: es)
  end.

(** The states a client can reach from the empty map. *)
Definition reachable (s : PooledMap) : Prop :=
  ∃ ops log, run ops empty_map = Ok (log, s).

Definition InvT (T : tree) (s : PooledMap) : Prop :=
  Abs T (pool s) (size_ s) s ∧ RB T ∧
  size_ s = Z.of_nat (length (nodes T)) ∧
  pool_ok (pool s) (dom (mem s)).

Definition Inv (s : PooledMap) : Prop := ∃ T, InvT T s.

Definition eaddr (e : addr * Key * Value) : addr := e.1.1.

(** One change of the stored entries. *)
Inductive tree_step (T T' : tree) : Prop :=
| ts_insert k a cx :
    locate k T [] = (Leaf, cx) →
    nodes T' = cleft cx ++ (a, k, Value_default) :: cright cx →
    tree_step T T'
| ts_erase k c l z k' v r cx :
    locate k T [] = (Br c l z k' v r, cx) →
    nodes T' = cleft cx ++ nodes l ++ nodes r ++ cright cx →
    tree_step T T'
| ts_assign l1 a k v v' l2 :
    nodes T = l1 ++ (a, k, v) :: l2 →
    nodes T' = l1 ++ (a, k, v') :: l2 →
    tree_step T T'.

(** The change of the element count an event stands for. *)
Definition delta (e : event) : Z :=
  match e with
  | EvFound _ => 0
  | EvInserted _ => 1
  | EvErased _ count => - count
  end.

(** The change of the pool an event stands for. *)
Definition pool_step (e : event) (P P' : Pool) : Prop :=
  match e with
  | EvFound _ => P' = P
  | EvInserted _ => ∃ a, pool_alloc P = Ok (a, P')
  | EvErased _ count => (count = 0 ∧ P' = P) ∨ (count = 1 ∧ ∃ z, P' = pool_push z P)
  end.

(** The parent's new child pointer: [if (key < parent->key) parent->left =
    node; else parent->right = node]. *)
Definition link_child (k : Key) (a : addr) (pn : Node) : Node :=
  if key_lt k (key pn) then with_left (Some a) pn else with_right (Some a) pn.

(** The state [operator[]] hands to [fix_insert]: the new RED node at the
    slot [a], below the last node [par] of the descent, or as the root of
    an empty tree. *)
Definition linked (k : Key) (a : addr) (par : ptr) (P' : Pool) (s : PooledMap) : PooledMap :=
  let h := <[a := mkNode k Value_default None None par RED]> (mem s) in
  match root s with
  | None => mkMap h P' (Some a) (size_ s)
  | Some _ =>
    mkMap (match par with Some p => alter (link_child k a) p h | None => h end)
          P' (root s) (size_ s)
  end.

(** [path_blacks h p n]: some path in the heap [h] from the node [p] down
    to a nil leaf passes through [n] BLACK nodes. *)
Inductive path_blacks (h : gmap addr Node) : ptr → nat → Prop :=
| pb_nil : path_blacks h None 0
| pb_left a nd n :
    h !! a = Some nd → path_blacks h (left nd) n →
    path_blacks h (Some a) (n + blk (color nd))
| pb_right a nd n :
    h !! a = Some nd → path_blacks h (right nd) n →
    path_blacks h (Some a) (n + blk (color nd)).

Fixpoint insertions (log : list event) : Z :=
  match log with
  | [] => 0
  | EvInserted _ :: log' => 1 + insertions log'
  | _ :: log' => insertions log'
  end.

Fixpoint successful_erases (log : list event) : Z :=
  match log with
  | [] => 0
  | EvErased _ count :: log' => count + successful_erases log'
  | _ :: log' => successful_erases log'
  end.

(** The calls of a program that may insert. *)
Fixpoint upsert_calls (ops : list op) : nat :=
  match ops with
  | [] => 0
  | OpErase _ :: ops' => upsert_calls ops'
  | _ :: ops' => S (upsert_calls ops')
  end.

Fixpoint total_delta (log : list event) : Z :=
  match log with
  | [] => 0
  | e :: log' => delta e + total_delta log'
  end.

(** The calls a traversal makes, as a fold over the entries. *)
Definition visit_all {A} (f : Key → Value → A → Value * A) (acc : A)
    (l : list (Key * Value)) : A :=
  foldl (λ acc e, (f e.1 e.2 acc).2) acc l.

(** The invariant of the states a client can reach. *)
Definition InvS (T : tree) (s : PooledMap) : Prop :=
  InvT T s ∧ sorted_keys (nodes T).

(** * Notions the specification speaks of *)

(** The keys a program passes to [operator[]], each once. *)
Fixpoint upserted_keys (ops : list op) : list Key :=
  match ops with
  | [] => []
  | OpErase _ :: ops' => upserted_keys ops'
  | OpUpsert k :: ops' | OpAssign k _ :: ops' =>
    if existsb (key_eq k) (upserted_keys ops') then upserted_keys ops'
    else k :: upserted_keys ops'
  end.

(** The size the specification predicts: the number of distinct keys
    ever upserted minus the number of successful erases. *)
Definition claimed_size (ops : list op) (log : list event) : Z :=
  Z.of_nat (length (upserted_keys ops)) - successful_erases log.

(** The nodes below [p], children before their parent. *)
Fixpoint heap_postorder (fuel : nat) (h : gmap addr Node) (p : ptr) : list addr :=
  match fuel, p with
  | S fuel', Some a =>
    match h !! a with
    | Some nd => heap_postorder fuel' h (left nd) ++ heap_postorder fuel' h (right nd) ++ [a]
    | None => []
    end
  | _, _ => []
  end.

Definition erase_all (ks : list Key) : list op := OpErase <$> ks.
Definition upsert_all (ks : list Key) : list op := OpUpsert <$> ks.

(** The loop test of [fix_erase]. *)
Definition fix_erase_continue (x : ptr) : M bool :=
  r <- get_root ;;
  if ptr_eq x r then ret false else null_or_black x.

(** The sibling [w] the loop body of [fix_erase] starts from. *)
Definition sibling (x x_parent : ptr) : M ptr :=
  xpl <- get left x_parent ;;
  if ptr_eq x xpl then get right x_parent else get left x_parent.

(** * Notions of the further properties *)

(** The value of the first entry with the key [k] in a list of entries. *)
Fixpoint entry_find (k : Key) (l : list (Key * Value)) : option Value :=
  match l with
  | [] => None
  | (k', v) :: l' => if key_eq k k' then Some v else entry_find k l'
  end.

(** [spares k o]: the call [o] neither erases nor assigns the key [k]. *)
Definition spares (k : Key) (o : op) : bool :=
  match o with
  | OpUpsert _ => true
  | OpAssign k' _ | OpErase k' => negb (key_eq k' k)
  end.

(** The key a call is about. *)
Definition op_key (o : op) : Key :=
  match o with OpUpsert k | OpAssign k _ | OpErase k => k end.

(** The visitor that stores [g key value] into every value. *)
Definition update_with (g : Key -> Value -> Value) (k : Key) (v : Value) (acc : unit)
    : Value * unit :=
  (g k v, acc).

End PooledMap.

(** * A concrete instance: [PooledMap<int, int>], 8 segments of 4 slots *)

#[export] Instance Z_KeyOrderLaws : KeyOrderLaws Z.
Proof.
  split; simpl.
  - intros a b. apply Z.eqb_eq.
  - intros a. apply Z.ltb_irrefl.
  - intros a b c ?%Z.ltb_lt ?%Z.ltb_lt. apply Z.ltb_lt. lia.
  - intros a b. rewrite !Z.ltb_lt. lia.
Qed.

(** [int()] is 0. *)
#[export] Instance int_default : Inhabited Z := populate 0.

Definition ops_demo : list (@op Z Z) :=
  [OpUpsert 10; OpUpsert 20; OpUpsert 5; OpAssign 15 7; OpErase 10; OpUpsert 25].

Definition demo_log : list (@event Z) :=
  Eval vm_compute in
    match run (VD := int_default) 4 8 ops_demo empty_map with
    | Ok (log, _) => log
    | Fault _ => []
    end.

Definition demo_state : @PooledMap Z Z :=
  Eval vm_compute in
    match run (VD := int_default) 4 8 ops_demo empty_map with
    | Ok (_, s) => s
    | Fault _ => empty_map
    end.

Definition ops_reinsert : list (@op Z Z) := [OpUpsert 1; OpErase 1; OpUpsert 1].

Definition ops_single : list (@op Z Z) := [OpUpsert 1].

(** A node whose two children are null, below no parent. *)
Definition lone_state : @PooledMap Z Z :=
  mkMap {[ 0%nat := mkNode 1 0 None None None BLACK ]} (mkPool [] 1 1) (Some 0%nat) 1.

(** Later calls on the demo map that leave the key 15 alone. *)
Definition ops_later : list (@op Z Z) := [OpErase 20; OpUpsert 1; OpAssign 5 9].

Definition later_log : list (@event Z) :=
  Eval vm_compute in
    match run 4 8 ops_later demo_state with
    | Ok (log, _) => log
    | Fault _ => []
    end.

Definition later_state : @PooledMap Z Z :=
  Eval vm_compute in
    match run 4 8 ops_later demo_state with
    | Ok (_, s) => s
    | Fault _ => empty_map
    end.

(** The demo map after [m[30]]. *)
Definition inserted_state : @PooledMap Z Z :=
  Eval vm_compute in
    match upsert 4 8 30 demo_state with
    | Ok (_, s) => s
    | Fault _ => empty_map
    end.

(** The demo map after [m.erase(20)]. *)
Definition erased_state : @PooledMap Z Z :=
  Eval vm_compute in
    match erase 20 demo_state with
    | Ok (_, s) => s
    | Fault _ => empty_map
    end.

Section Abstraction.
Context {Key Value : Type} `{KO : KeyOrder Key} `{VD : Inhabited Value}.

Abbreviation Node := (@Node Key Value).
Abbreviation PooledMap := (@PooledMap Key Value).
Abbreviation tree := (@tree Key Value).
Abbreviation frame := (@frame Key Value).
Abbreviation ctx := (@ctx Key Value).
Abbreviation M := (@M Key Value).

(** ** Decomposition along a path *)

Lemma rootp_plug (t : tree) (cx : ctx) : rootp (plug t cx) = croot cx (rootp t).
Proof. revert t. induction cx as [|f cx IH]; intros t; simpl; [done|]. rewrite IH. by destruct f. Qed.

Lemma aset_plug (t : tree) (cx : ctx) : aset (plug t cx) = aset t ∪ caset cx.
Proof.
  revert t. induction cx as [|f cx IH]; intros t; simpl; [set_solver|].
  rewrite IH. destruct f; simpl; set_solver.
Qed.

Lemma wf_plug (t : tree) (cx : ctx) : wf (plug t cx) ↔ wf t ∧ cwf cx ∧ aset t ## caset cx.
Proof.
  revert t. induction cx as [|f cx IH]; intros t; simpl; [set_solver|].
  rewrite IH. destruct f; simpl; set_solver.
Qed.

Lemma rep_plug (h : gmap addr Node) (t : tree) (cx : ctx) par :
  ctx_ptr cx = par →
  rep h None (plug t cx) ↔ rep h par t ∧ crep h cx (rootp t).
Proof.
  revert t par. induction cx as [|f cx IH]; intros t par <-; simpl; [tauto|].
  rewrite (IH _ _ eq_refl). destruct f; simpl; tauto.
Qed.

Lemma AbsG_plug (t : tree) (cx : ctx) G P n (s : PooledMap) :
  AbsG (plug t cx) G P n s ↔
  root s = croot cx (rootp t) ∧ rep (mem s) (ctx_ptr cx) t ∧ crep (mem s) cx (rootp t) ∧
  wf t ∧ cwf cx ∧ aset t ## caset cx ∧ dom (mem s) = aset t ∪ caset cx ∪ G ∧
  aset t ## G ∧ caset cx ## G ∧
  pool s = P ∧ size_ s = n.
Proof.
  unfold AbsG. rewrite rootp_plug, (rep_plug _ _ _ _ eq_refl), wf_plug, aset_plug.
  rewrite disjoint_union_l. tauto.
Qed.

Lemma rep_frame (h : gmap addr Node) par (t : tree) a n :
  a ∉ aset t → rep h par t → rep (<[a := n]> h) par t.
Proof.
  revert par. induction t as [|c l IHl b k v r IHr]; intros par Ha; simpl; [done|].
  intros (Hb & Hl & Hr). split_and!.
  - rewrite lookup_insert_ne; [done|set_solver].
  - apply IHl; [set_solver|done].
  - apply IHr; [set_solver|done].
Qed.

Lemma crep_frame (h : gmap addr Node) (cx : ctx) hole a n :
  a ∉ caset cx → crep h cx hole → crep (<[a := n]> h) cx hole.
Proof.
  revert hole. induction cx as [|f cx IH]; intros hole Ha; simpl; [done|].
  intros (Hf & Hc). split.
  - destruct f; simpl in *; destruct Hf as [Hf1 Hf2]; (split;
      [rewrite lookup_insert_ne; [done|set_solver] | apply rep_frame; [set_solver|done]]).
  - apply IH; [set_solver|done].
Qed.

Lemma Abs_focus c (l : tree) a k v (r : tree) (cx : ctx) P n (s : PooledMap) :
  Abs (plug (Br c l a k v r) cx) P n s →
  mem s !! a = Some (mkNode k v (rootp l) (rootp r) (ctx_ptr cx) c).
Proof. unfold Abs. rewrite AbsG_plug. simpl. naive_solver. Qed.

Lemma ptr_eq_refl (p : ptr) : ptr_eq p p = true.
Proof. unfold ptr_eq. by apply bool_decide_eq_true_2. Qed.

Lemma ptr_eq_ne (p q : ptr) : p ≠ q → ptr_eq p q = false.
Proof. unfold ptr_eq. by apply bool_decide_eq_false_2. Qed.

Lemma rootp_ne (t : tree) a : a ∉ aset t → Some a ≠ rootp t.
Proof. destruct t; simpl; [done|]. intros ? [=]. set_solver. Qed.

Lemma rootp_ne' (t : tree) a : a ∉ aset t → rootp t ≠ Some a.
Proof. intros ? ?. by eapply rootp_ne. Qed.

Lemma croot_Some (cx : ctx) a : ∃ b, croot cx (Some a) = Some b.
Proof. revert a. induction cx as [|f cx IH]; intros a; simpl; eauto. Qed.

Lemma croot_not_None (cx : ctx) a : None ≠ croot cx (Some a).
Proof. destruct (croot_Some cx a) as [b ->]. done. Qed.

Lemma croot_ne (cx : ctx) a x :
  x ≠ a → x ∉ caset cx → Some x ≠ croot cx (Some a).
Proof.
  revert a. induction cx as [|f cx IH]; intros a Hxa Hx; simpl; [congruence|].
  apply IH; destruct f; simpl in *; set_solver.
Qed.

End Abstraction.

Ltac snorm :=
  repeat match goal with
  | H : _ ∧ _ |- _ => destruct H
  | H : _ ∉ _ ∪ _ |- _ => apply not_elem_of_union in H; destruct H
  | H : _ ∉ {[ _ ]} |- _ => apply not_elem_of_singleton in H
  | H : _ ∪ _ ## _ |- _ => apply disjoint_union_l in H; destruct H
  | H : _ ## _ ∪ _ |- _ => apply disjoint_union_r in H; destruct H
  | H : {[ _ ]} ## _ |- _ => apply disjoint_singleton_l in H
  | H : _ ## {[ _ ]} |- _ => apply disjoint_singleton_r in H
  | H : _ ∉ ∅ |- _ => clear H
  | H : ∅ ## _ |- _ => clear H
  | H : _ ## ∅ |- _ => clear H
  | H : True |- _ => clear H
  end.

Ltac abs_dec H :=
  unfold Abs in H; apply AbsG_plug in H; simpl in H; snorm.

Ltac ptr_ne :=
  first
    [ fast_done
    | discriminate
    | apply rootp_ne; fast_done
    | apply rootp_ne'; fast_done
    | apply croot_not_None
    | apply croot_ne; fast_done
    | congruence ].

Ltac hcbn :=
  cbn [with_left with_right with_parent with_color with_value
       key value left right parent color mem pool root size_ is_null
       is_red is_black negb andb orb fst snd ctx_ptr rootp fr_addr].

Ltac hlook :=
  match goal with
  | H : ?h !! ?a = Some _ |- context [?h !! ?a] => rewrite H
  end.

Ltac hstep :=
  first
    [ hlook
    | rewrite lookup_insert_eq
    | rewrite lookup_insert_ne by fast_done
    | rewrite ptr_eq_refl
    | rewrite ptr_eq_ne by ptr_ne ];
  hcbn.

Ltac hrun := hcbn; repeat hstep.

Ltac sgoal :=
  repeat first
    [ rewrite not_elem_of_union
    | rewrite not_elem_of_singleton
    | rewrite disjoint_union_l
    | rewrite disjoint_union_r
    | rewrite disjoint_singleton_l
    | rewrite disjoint_singleton_r ];
  split_and?; first [fast_done | done | set_solver].

Ltac frame_solve :=
  lazymatch goal with
  | |- rep (<[_:=_]> _) _ _ => apply rep_frame; [fast_done | frame_solve]
  | |- crep (<[_:=_]> _) _ _ => apply crep_frame; [fast_done | frame_solve]
  | |- rep _ _ _ => assumption
  | |- crep _ _ _ => assumption
  | |- _ !! _ = _ => hrun; first [done | congruence]
  | |- dom _ = _ =>
      match goal with
      | H : dom _ = _ |- _ => rewrite ?dom_insert_L; hcbn; rewrite H; clear; set_solver
      end
  | |- wf _ => assumption
  | |- cwf _ => assumption
  | |- _ => first [fast_done | hcbn; fast_done | sgoal]
  end.

Ltac abs_intro := unfold Abs; apply AbsG_plug; simpl; split_and!; frame_solve.

Section Layer1.
Context {Key Value : Type} `{KO : KeyOrder Key} `{VD : Inhabited Value}.

Abbreviation Node := (@Node Key Value).
Abbreviation PooledMap := (@PooledMap Key Value).
Abbreviation tree := (@tree Key Value).

Lemma store_color_focus c' c l a k v r cx P n (s : PooledMap) :
  Abs (plug (Br c l a k v r) cx) P n s →
  ∃ s', store (Some a) (with_color c') s = Ok (tt, s') ∧
        Abs (plug (Br c' l a k v r) cx) P n s'.
Proof.
  intros HA. abs_dec HA.
  unfold store. hrun. eexists; split; [reflexivity|].
  abs_intro.
Qed.

Lemma rotate_left_focus cx' α x kx vx cy β y ky vy γ cx P n (s : PooledMap) :
  Abs (plug (Br cx' α x kx vx (Br cy β y ky vy γ)) cx) P n s →
  ∃ s', rotate_left (Some x) s = Ok (tt, s') ∧
        Abs (plug (Br cy (Br cx' α x kx vx β) y ky vy γ) cx) P n s'.
Proof.
  intros HA. abs_dec HA.
  unfold rotate_left, bind, get, store, set_root, ret.
  destruct β as [|cb βl b kb vb βr]; simpl in * |-; snorm.
  - destruct cx as [|[cp p kp vp pr|cp pl p kp vp] cx]; simpl in * |-; snorm.
    + hrun. eexists; split; [reflexivity|]. abs_intro.
    + hrun. eexists; split; [reflexivity|]. abs_intro.
    + hrun. eexists; split; [reflexivity|]. abs_intro.
  - destruct cx as [|[cp p kp vp pr|cp pl p kp vp] cx]; simpl in * |-; snorm.
    + hrun. eexists; split; [reflexivity|]. abs_intro.
    + hrun. eexists; split; [reflexivity|]. abs_intro.
    + hrun. eexists; split; [reflexivity|]. abs_intro.
Qed.

Lemma rotate_right_focus cx' γ x kx vx cy α y ky vy β cx P n (s : PooledMap) :
  Abs (plug (Br cx' (Br cy α y ky vy β) x kx vx γ) cx) P n s →
  ∃ s', rotate_right (Some x) s = Ok (tt, s') ∧
        Abs (plug (Br cy α y ky vy (Br cx' β x kx vx γ)) cx) P n s'.
Proof.
  intros HA. abs_dec HA.
  unfold rotate_right, bind, get, store, set_root, ret.
  destruct β as [|cb βl b kb vb βr]; simpl in * |-; snorm.
  - destruct cx as [|[cp p kp vp pr|cp pl p kp vp] cx]; simpl in * |-; snorm.
    + hrun. eexists; split; [reflexivity|]. abs_intro.
    + hrun. eexists; split; [reflexivity|]. abs_intro.
    + hrun. eexists; split; [reflexivity|]. abs_intro.
  - destruct cx as [|[cp p kp vp pr|cp pl p kp vp] cx]; simpl in * |-; snorm.
    + hrun. eexists; split; [reflexivity|]. abs_intro.
    + hrun. eexists; split; [reflexivity|]. abs_intro.
    + hrun. eexists; split; [reflexivity|]. abs_intro.
Qed.

Lemma store_value_focus v' c l a k v r cx P n (s : PooledMap) :
  Abs (plug (Br c l a k v r) cx) P n s →
  ∃ s', store (Some a) (with_value v') s = Ok (tt, s') ∧
        Abs (plug (Br c l a k v' r) cx) P n s'.
Proof.
  intros HA. abs_dec HA.
  unfold store. hrun. eexists; split; [reflexivity|].
  abs_intro.
Qed.

(** ** The rules of [runs] *)

Lemma runs_ret {A} (a : A) (s : PooledMap) Q : Q a s → runs (ret a) s Q.
Proof. intros. by exists a, s. Qed.

Lemma runs_bind {A B} (m : M A) (k : A → M B) (s : PooledMap) Q :
  runs m s (λ a s', runs (k a) s' Q) → runs (bind m k) s Q.
Proof.
  intros (a & s' & Hm & b & s'' & Hk & HQ). exists b, s''. split; [|done].
  unfold bind. by rewrite Hm.
Qed.

Lemma runs_conseq {A} (m : M A) (s : PooledMap) (Q Q' : A → PooledMap → Prop) :
  runs m s Q → (∀ a s', Q a s' → Q' a s') → runs m s Q'.
Proof. intros (a & s' & Hm & HQ) HQQ. exists a, s'. auto. Qed.

Lemma runs_get {A} (f : Node → A) a nd (s : PooledMap) Q :
  mem s !! a = Some nd → Q (f nd) s → runs (get f (Some a)) s Q.
Proof. intros Ha HQ. exists (f nd), s. split; [|done]. unfold get. by rewrite Ha. Qed.

Lemma runs_get_focus {A} (f : Node → A) c l a k v r cx P n (s : PooledMap) Q :
  Abs (plug (Br c l a k v r) cx) P n s →
  Q (f (mkNode k v (rootp l) (rootp r) (ctx_ptr cx) c)) s →
  runs (get f (Some a)) s Q.
Proof. intros HA. eapply runs_get, Abs_focus, HA. Qed.

Lemma runs_store_color c' c l a k v r cx P n (s : PooledMap) Q :
  Abs (plug (Br c l a k v r) cx) P n s →
  (∀ s', Abs (plug (Br c' l a k v r) cx) P n s' → Q tt s') →
  runs (store (Some a) (with_color c')) s Q.
Proof.
  intros HA HQ. destruct (store_color_focus c' _ _ _ _ _ _ _ _ _ _ HA) as (s' & Hs & HA').
  exists tt, s'. auto.
Qed.

Lemma runs_store_value v' c l a k v r cx P n (s : PooledMap) Q :
  Abs (plug (Br c l a k v r) cx) P n s →
  (∀ s', Abs (plug (Br c l a k v' r) cx) P n s' → Q tt s') →
  runs (store (Some a) (with_value v')) s Q.
Proof.
  intros HA HQ. destruct (store_value_focus v' _ _ _ _ _ _ _ _ _ _ HA) as (s' & Hs & HA').
  exists tt, s'. auto.
Qed.

Lemma runs_rotate_left cx' α x kx vx cy β y ky vy γ cx P n (s : PooledMap) Q :
  Abs (plug (Br cx' α x kx vx (Br cy β y ky vy γ)) cx) P n s →
  (∀ s', Abs (plug (Br cy (Br cx' α x kx vx β) y ky vy γ) cx) P n s' → Q tt s') →
  runs (rotate_left (Some x)) s Q.
Proof.
  intros HA HQ. destruct (rotate_left_focus _ _ _ _ _ _ _ _ _ _ _ _ _ _ _ HA) as (s' & Hs & HA').
  exists tt, s'. auto.
Qed.

Lemma runs_rotate_right cx' γ x kx vx cy α y ky vy β cx P n (s : PooledMap) Q :
  Abs (plug (Br cx' (Br cy α y ky vy β) x kx vx γ) cx) P n s →
  (∀ s', Abs (plug (Br cy α y ky vy (Br cx' β x kx vx γ)) cx) P n s' → Q tt s') →
  runs (rotate_right (Some x)) s Q.
Proof.
  intros HA HQ. destruct (rotate_right_focus _ _ _ _ _ _ _ _ _ _ _ _ _ _ _ HA) as (s' & Hs & HA').
  exists tt, s'. auto.
Qed.

Lemma runs_get_root t P n (s : PooledMap) Q :
  Abs t P n s → Q (rootp t) s → runs get_root s Q.
Proof. intros (Hr & _) HQ. exists (rootp t), s. unfold get_root. by rewrite Hr. Qed.

End Layer1.

Section Layer1b.
Context {Key Value : Type} `{KO : KeyOrder Key} `{VD : Inhabited Value}.
Variable segment_capacity max_segments : nat.

Abbreviation Node := (@Node Key Value).
Abbreviation PooledMap := (@PooledMap Key Value).
Abbreviation tree := (@tree Key Value).
Abbreviation ctx := (@ctx Key Value).

Lemma link_runs {A} k cx P P' n a (s : PooledMap) (K : ptr → M A) Q :
  Abs (plug Leaf cx) P n s →
  pool_alloc segment_capacity max_segments P = Ok (a, P') →
  a ∉ (dom (mem s) : gset addr) →
  link_side k cx →
  (∀ s', Abs (plug (Br RED Leaf a k Value_default Leaf) cx) P' n s' → runs (K (Some a)) s' Q) →
  runs (bind (create segment_capacity max_segments k Value_default) (λ node,
        bind (store node (with_parent None)) (λ _,
        bind (store node (with_right None)) (λ _,
        bind (store node (with_left None)) (λ _,
        bind (store node (with_color RED)) (λ _,
        bind (store node (with_parent (ctx_ptr cx))) (λ _,
        bind get_root (λ r,
        bind (if is_null r then set_root node
              else bind (get key (ctx_ptr cx)) (λ pk,
                   if key_lt k pk then store (ctx_ptr cx) (with_left node)
                   else store (ctx_ptr cx) (with_right node))) (λ _,
        K node))))))))) s Q.
Proof.
  intros HA Hal Hfresh Hside.
  abs_dec HA.
  match goal with H : dom _ = _ |- _ => rewrite H in Hfresh end. snorm.
  unfold runs, bind, create, store, get, get_root, set_root.
  match goal with H : pool s = P |- _ => rewrite H end. rewrite Hal. hcbn.
  destruct cx as [|[cp p kp vp pr|cp pl p kp vp] cx]; simpl in * |-; snorm; intros HK.
  - hrun. match goal with H : root s = _ |- _ => rewrite H end. hcbn.
    destruct (HK (mkMap (<[a:=mkNode k Value_default None None None RED]> (mem s)) P' (Some a) (size_ s)))
      as (r & s'' & Hr & HQ).
    { abs_intro. }
    exists r, s''. split; [|done]. rewrite <- Hr. f_equal.
    f_equal. apply map_eq. intros i. rewrite !lookup_insert. repeat case_decide; done.
  - hrun. match goal with H : root s = _ |- _ => rewrite H end.
    destruct (croot_Some cx p) as [b Hb]. rewrite Hb. hrun. rewrite Hside. hrun.
    match goal with |- context [K (Some a) ?s1] =>
      destruct (HK s1) as (r & s'' & Hr & HQ); [|exists r, s''; by split] end.
    abs_intro.
  - hrun. match goal with H : root s = _ |- _ => rewrite H end.
    destruct (croot_Some cx p) as [b Hb]. rewrite Hb. hrun. rewrite Hside. hrun.
    match goal with |- context [K (Some a) ?s1] =>
      destruct (HK s1) as (r & s'' & Hr & HQ); [|exists r, s''; by split] end.
    abs_intro.
Qed.

End Layer1b.

(** Search for the node at address [a] in the tree [t] below the path
    [cx]; [tac] receives the node's fields and the path to it. *)
Ltac find_in_tree a t cx tac :=
  lazymatch t with
  | Br ?c ?l a ?k ?v ?r => tac c l k v r cx
  | Br ?c ?l ?b ?k ?v ?r =>
    first [ find_in_tree a l (FrL c b k v r :: cx) tac
          | find_in_tree a r (FrR c l b k v :: cx) tac ]
  end.

Ltac find_zip a t cx tac :=
  first
    [ find_in_tree a t cx tac
    | lazymatch cx with
      | FrL ?c a ?k ?v ?r :: ?cx' => tac c t k v r cx'
      | FrR ?c ?l a ?k ?v :: ?cx' => tac c l k v t cx'
      | FrL ?c ?b ?k ?v ?r :: ?cx' =>
        first [ find_in_tree a r (FrR c t b k v :: cx') tac
              | find_zip a (Br c t b k v r) cx' tac ]
      | FrR ?c ?l ?b ?k ?v :: ?cx' =>
        first [ find_in_tree a l (FrL c b k v t :: cx') tac
              | find_zip a (Br c l b k v t) cx' tac ]
      end ].

(** The hypothesis [Abs (plug _ _) _ _ s] about the state of the goal. *)
Ltac with_abs tac :=
  lazymatch goal with
  | HA : Abs (plug _ _) _ _ ?s |- runs _ ?s _ => tac HA
  end.

Ltac abs_ne HA :=
  let H := fresh in
  pose proof HA as H; abs_dec H;
  rewrite ?rootp_plug; cbn [croot rootp fr_addr fill];
  ptr_ne.

Ltac wp_get HA :=
  lazymatch goal with
  | |- runs (get ?f (Some ?a)) ?s ?Q =>
    lazymatch type of HA with
    | Abs (plug ?t ?cx) ?P ?n s =>
      find_zip a t cx ltac:(fun c l k v r cx' =>
        apply (runs_get_focus f c l a k v r cx' P n s Q HA))
    end
  end.

Ltac wp_store HA :=
  lazymatch goal with
  | |- runs (store (Some ?a) (with_color ?c')) ?s ?Q =>
    lazymatch type of HA with
    | Abs (plug ?t ?cx) ?P ?n s =>
      find_zip a t cx ltac:(fun c l k v r cx' =>
        apply (runs_store_color c' c l a k v r cx' P n s Q HA))
    end
  | |- runs (store (Some ?a) (with_value ?v')) ?s ?Q =>
    lazymatch type of HA with
    | Abs (plug ?t ?cx) ?P ?n s =>
      find_zip a t cx ltac:(fun c l k v r cx' =>
        apply (runs_store_value v' c l a k v r cx' P n s Q HA))
    end
  end;
  clear HA;
  let s' := fresh "s" in let HA' := fresh "HA" in intros s' HA'.

Ltac wp_rotate HA :=
  lazymatch goal with
  | |- runs (rotate_left (Some ?a)) ?s ?Q =>
    lazymatch type of HA with
    | Abs (plug ?t ?cx) ?P ?n s =>
      find_zip a t cx ltac:(fun c l k v r cx' =>
        lazymatch r with
        | Br ?cy ?β ?y ?ky ?vy ?γ =>
          apply (runs_rotate_left c l a k v cy β y ky vy γ cx' P n s Q HA)
        end)
    end
  | |- runs (rotate_right (Some ?a)) ?s ?Q =>
    lazymatch type of HA with
    | Abs (plug ?t ?cx) ?P ?n s =>
      find_zip a t cx ltac:(fun c l k v r cx' =>
        lazymatch l with
        | Br ?cy ?α ?y ?ky ?vy ?β =>
          apply (runs_rotate_right c r a k v cy α y ky vy β cx' P n s Q HA)
        end)
    end
  end;
  clear HA;
  let s' := fresh "s" in let HA' := fresh "HA" in intros s' HA'.

Ltac wp_root HA :=
  lazymatch goal with
  | |- runs get_root ?s ?Q =>
    lazymatch type of HA with
    | Abs ?T ?P ?n s =>
      apply (runs_get_root T P n s Q HA); cbn [plug rootp]
    end
  end.

Ltac wp_step :=
  lazymatch goal with
  | |- runs (bind _ _) _ _ => apply runs_bind
  | |- runs (ret _) _ _ => apply runs_ret
  | |- runs (get _ (Some _)) _ _ => with_abs wp_get
  | |- runs (store (Some _) _) _ _ => with_abs wp_store
  | |- runs (rotate_left _) _ _ => with_abs wp_rotate
  | |- runs (rotate_right _) _ _ => with_abs wp_rotate
  | |- runs get_root _ _ => with_abs wp_root
  | |- runs (parent_is_red _) _ _ => unfold parent_is_red
  | |- runs (nonnull_red _) _ _ => unfold nonnull_red
  | |- runs (null_or_black _) _ _ => unfold null_or_black
  | |- runs (if ptr_eq ?p ?p then _ else _) _ _ => rewrite (ptr_eq_refl p)
  | |- runs (if ptr_eq ?p ?q then _ else _) _ _ =>
    with_abs ltac:(fun HA => rewrite (ptr_eq_ne p q) by (abs_ne HA))
  end;
  hcbn.

Ltac wp := hcbn; repeat wp_step.

(** Bring the node at address [a] into focus in [HA]. *)
Ltac refocus HA a :=
  lazymatch type of HA with
  | Abs (plug ?t ?cx) ?P ?n ?s =>
    find_zip a t cx ltac:(fun c l k v r cx' =>
      change (Abs (plug (Br c l a k v r) cx') P n s) in HA)
  end.

(** Unfolding by name, for the sections below that abbreviate the
    operations at their pool parameters. *)
Ltac unfold_upsert := unfold upsert.
Ltac unfold_pool_alloc := unfold pool_alloc.

Section L2ins.
Context {Key Value : Type} `{KO : KeyOrder Key} `{VD : Inhabited Value}.

Abbreviation Node := (@Node Key Value).
Abbreviation PooledMap := (@PooledMap Key Value).
Abbreviation tree := (@tree Key Value).
Abbreviation ctx := (@ctx Key Value).

Lemma fix_insert_loop_runs cx : ∀ c l z k v r fuel P n (s : PooledMap) T',
  Abs (plug (Br c l z k v r) cx) P n s →
  ins_fix (Br c l z k v r) cx = Some T' →
  (length cx < fuel)%nat →
  runs (fix_insert_loop fuel (Some z)) s (λ _ s', Abs T' P n s').
Proof.
  induction cx as [cx IH] using (induction_ltof1 _ length); unfold ltof in IH.
  intros c l z k v r fuel P n s T' HA Hfix Hfuel.
  destruct fuel as [|fuel]; [simpl in Hfuel; lia|].
  cbn [fix_insert_loop].
  destruct cx as [|f1 cx1].
  { simpl in Hfix. injection Hfix as <-. wp. done. }
  destruct f1 as [[] p kp vp pr|[] pl p kp vp]; simpl in Hfix.
  - (* parent RED, z its left child *)
    destruct cx1 as [|[cg g kg vg u|cg u g kg vg] cx2]; [done| |].
    + destruct u as [|[] ul ua uk uv ur]; try injection Hfix as <-; wp.
      * eapply (IH (FrL BLACK p kp vp (Br RED pr g kg vg Leaf) :: cx2));
          [simpl; lia|exact HA|reflexivity|simpl in *; lia].
      * eapply (IH cx2); [simpl; lia|exact HA|exact Hfix|simpl in *; lia].
      * eapply (IH (FrL BLACK p kp vp (Br RED pr g kg vg (Br BLACK ul ua uk uv ur)) :: cx2));
          [simpl; lia|exact HA|reflexivity|simpl in *; lia].
    + destruct u as [|[] ul ua uk uv ur]; try injection Hfix as <-; wp.
      * eapply (IH (FrR BLACK (Br RED Leaf g kg vg l) z k v :: cx2));
          [simpl; lia|exact HA|reflexivity|simpl in *; lia].
      * eapply (IH cx2); [simpl; lia|exact HA|exact Hfix|simpl in *; lia].
      * eapply (IH (FrR BLACK (Br RED (Br BLACK ul ua uk uv ur) g kg vg l) z k v :: cx2));
          [simpl; lia|exact HA|reflexivity|simpl in *; lia].
  - injection Hfix as <-. wp. done.
  - (* parent RED, z its right child *)
    destruct cx1 as [|[cg g kg vg u|cg u g kg vg] cx2]; [done| |].
    + destruct u as [|[] ul ua uk uv ur]; try injection Hfix as <-; wp.
      * eapply (IH (FrL BLACK z k v (Br RED r g kg vg Leaf) :: cx2));
          [simpl; lia|exact HA|reflexivity|simpl in *; lia].
      * eapply (IH cx2); [simpl; lia|exact HA|exact Hfix|simpl in *; lia].
      * eapply (IH (FrL BLACK z k v (Br RED r g kg vg (Br BLACK ul ua uk uv ur)) :: cx2));
          [simpl; lia|exact HA|reflexivity|simpl in *; lia].
    + destruct u as [|[] ul ua uk uv ur]; try injection Hfix as <-; wp.
      * eapply (IH (FrR BLACK (Br RED Leaf g kg vg pl) p kp vp :: cx2));
          [simpl; lia|exact HA|reflexivity|simpl in *; lia].
      * eapply (IH cx2); [simpl; lia|exact HA|exact Hfix|simpl in *; lia].
      * eapply (IH (FrR BLACK (Br RED (Br BLACK ul ua uk uv ur) g kg vg pl) p kp vp :: cx2));
          [simpl; lia|exact HA|reflexivity|simpl in *; lia].
  - injection Hfix as <-. wp. done.
Qed.

End L2ins.

Section L2ups.
Context {Key Value : Type} `{KO : KeyOrder Key} `{VD : Inhabited Value}.
Variable segment_capacity max_segments : nat.

Abbreviation Node := (@Node Key Value).
Abbreviation PooledMap := (@PooledMap Key Value).
Abbreviation tree := (@tree Key Value).
Abbreviation ctx := (@ctx Key Value).

Lemma height_le_size (t : tree) : wf t → (height t ≤ base.size (aset t))%nat.
Proof.
  induction t as [|c l IHl a k v r IHr]; simpl; [lia|].
  intros (Hal & Har & Hlr & Hl & Hr).
  rewrite size_union, size_singleton, size_union by set_solver.
  specialize (IHl Hl). specialize (IHr Hr). lia.
Qed.

Lemma length_le_size (cx : ctx) : cwf cx → (length cx ≤ base.size (caset cx))%nat.
Proof.
  induction cx as [|f cx IH]; simpl; [lia|].
  intros (Hf & Hd & Hc). specialize (IH Hc).
  rewrite size_union by done.
  destruct f; simpl in *; rewrite size_union, size_singleton by set_solver; lia.
Qed.

Lemma Abs_size_mem t P n (s : PooledMap) : Abs t P n s → base.size (mem s) = base.size (aset t).
Proof.
  intros (_ & _ & _ & Hd & _). rewrite <- size_dom, Hd. f_equal. set_solver.
Qed.

Lemma Abs_height_fuel t P n (s : PooledMap) :
  Abs t P n s → (height t < S (base.size (mem s)))%nat.
Proof.
  intros HA. rewrite (Abs_size_mem _ _ _ _ HA).
  pose proof (height_le_size t). destruct HA as (_ & _ & Hwf & _). specialize (H Hwf). lia.
Qed.

Lemma Abs_length_fuel t cx P n (s : PooledMap) :
  Abs (plug t cx) P n s → (length cx < S (base.size (mem s)))%nat.
Proof.
  intros HA. rewrite (Abs_size_mem _ _ _ _ HA). rewrite aset_plug.
  destruct HA as (_ & _ & Hwf & _). apply wf_plug in Hwf as (_ & Hc & Hd).
  rewrite size_union by done. pose proof (length_le_size cx Hc). lia.
Qed.

Lemma runs_get_fuel (s : PooledMap) Q : Q (S (base.size (mem s))) s → runs get_fuel s Q.
Proof. intros. by exists (S (base.size (mem s))), s. Qed.

Lemma upsert_descend_runs k (t : tree) : ∀ cx fuel P n (s : PooledMap),
  Abs (plug t cx) P n s → (height t < fuel)%nat →
  runs (upsert_descend fuel k (rootp t) (ctx_ptr cx)) s
    (λ res s', s' = s ∧ res = (rootp (locate k t cx).1, ctx_ptr (locate k t cx).2)).
Proof.
  induction t as [|c l IHl a k' v r IHr]; intros cx fuel P n s HA Hfuel.
  - destruct fuel; simpl; by apply runs_ret.
  - destruct fuel as [|fuel]; [simpl in Hfuel; lia|].
    cbn [upsert_descend]. wp. simpl.
    destruct (key_eq k k').
    { wp. done. }
    destruct (key_lt k k'); wp.
    + apply (IHl (FrL c a k' v r :: cx) fuel P n s HA). simpl in Hfuel. lia.
    + apply (IHr (FrR c l a k' v :: cx) fuel P n s HA). simpl in Hfuel. lia.
Qed.

Lemma ins_fix_nonleaf (cx : ctx) : ∀ t T', ins_fix t cx = Some T' → t ≠ Leaf → T' ≠ Leaf.
Proof.
  induction cx as [cx IH] using (induction_ltof1 _ length); unfold ltof in IH.
  intros t T' Hfix Ht.
  assert (∀ (t : tree) cx, t ≠ Leaf → plug t cx ≠ Leaf) as Hplug.
  { clear. intros t cx. revert t. induction cx as [|f cx IH]; intros t Ht; simpl; [done|].
    apply IH. by destruct f. }
  destruct cx as [|f1 cx1]; simpl in Hfix; [congruence|].
  destruct (fr_color f1); [|injection Hfix as <-; apply (Hplug t (f1 :: cx1) Ht)].
  destruct cx1 as [|[cg g kg vg u|cg u g kg vg] cx2]; [done| |].
  - destruct u as [|[] ul ua uk uv ur].
    + destruct f1; [|destruct t; [done|]]; injection Hfix as <-; by apply Hplug.
    + eapply (IH cx2); [simpl; lia|exact Hfix|done].
    + destruct f1; [|destruct t; [done|]]; injection Hfix as <-; by apply Hplug.
  - destruct u as [|[] ul ua uk uv ur].
    + destruct f1; [destruct t; [done|]|]; injection Hfix as <-; by apply Hplug.
    + eapply (IH cx2); [simpl; lia|exact Hfix|done].
    + destruct f1; [destruct t; [done|]|]; injection Hfix as <-; by apply Hplug.
Qed.

Lemma fix_insert_runs cx c l z k v r fuel P n (s : PooledMap) T' :
  Abs (plug (Br c l z k v r) cx) P n s →
  ins_fix (Br c l z k v r) cx = Some T' →
  (length cx < fuel)%nat →
  runs (fix_insert fuel (Some z)) s (λ _ s', Abs (blacken T') P n s').
Proof.
  intros HA Hfix Hfuel. unfold fix_insert.
  apply runs_bind. eapply runs_conseq; [by eapply fix_insert_loop_runs|].
  intros [] s' HA'. simpl in HA' |- *.
  pose proof (ins_fix_nonleaf _ _ _ Hfix) as HT.
  destruct T' as [|c' l' a' k' v' r']; [by destruct HT|].
  change (Abs (plug (Br c' l' a' k' v' r') []) P n s') in HA'.
  wp. assumption.
Qed.

Lemma runs_incr_size t P n (s : PooledMap) Q :
  Abs t P n s →
  (∀ s', Abs t P ((n + 1) mod SIZE_MODULUS) s' → Q tt s') →
  runs incr_size s Q.
Proof.
  intros HA HQ. eexists tt, _. split; [reflexivity|]. apply HQ.
  destruct HA as (? & ? & ? & ? & ? & ? & ?). split_and!; simpl; try done. congruence.
Qed.

Lemma locate_link_side k (t : tree) : ∀ cx,
  link_side k cx → (locate k t cx).1 = Leaf → link_side k (locate k t cx).2.
Proof.
  induction t as [|c l IHl a k' v r IHr]; intros cx Hcx; simpl; [done|].
  destruct (key_eq k k'); [done|].
  destruct (key_lt k k') eqn:Hlt.
  - apply IHl. simpl. done.
  - apply IHr. simpl. done.
Qed.

Lemma plug_locate k (t : tree) : ∀ cx,
  plug (locate k t cx).1 (locate k t cx).2 = plug t cx.
Proof.
  induction t as [|c l IHl a k' v r IHr]; intros cx; simpl; [done|].
  destruct (key_eq k k'); [done|].
  destruct (key_lt k k'); [apply IHl|apply IHr].
Qed.

(** [operator[]] on a key that is present: the node is returned and the
    state is left as it is. *)
Lemma upsert_present_runs k T P n (s : PooledMap) c l a k' v r cx :
  Abs T P n s →
  locate k T [] = (Br c l a k' v r, cx) →
  runs (upsert segment_capacity max_segments k) s (λ p s', p = Some a ∧ s' = s).
Proof.
  intros HA Hloc. unfold upsert.
  apply runs_bind, runs_get_fuel.
  apply runs_bind. change (Abs (plug T []) P n s) in HA. wp.
  eapply runs_conseq.
  { apply (upsert_descend_runs k T [] _ P n s HA). by eapply Abs_height_fuel. }
  intros res s' [-> ->]. rewrite Hloc. simpl. by apply runs_ret.
Qed.

(** [operator[]] on a key that is absent. *)
Lemma upsert_absent_runs k T P P' n (s : PooledMap) a cx T' :
  Abs T P n s →
  locate k T [] = (Leaf, cx) →
  pool_alloc segment_capacity max_segments P = Ok (a, P') →
  a ∉ (dom (mem s) : gset addr) →
  ins_fix (Br RED Leaf a k Value_default Leaf) cx = Some T' →
  runs (upsert segment_capacity max_segments k) s
    (λ p s', p = Some a ∧ Abs (blacken T') P' ((n + 1) mod SIZE_MODULUS) s').
Proof.
  intros HA Hloc Hal Hfresh Hfix. unfold upsert.
  apply runs_bind, runs_get_fuel.
  apply runs_bind. change (Abs (plug T []) P n s) in HA. wp.
  eapply runs_conseq.
  { apply (upsert_descend_runs k T [] _ P n s HA). by eapply Abs_height_fuel. }
  intros res s' [-> ->]. rewrite Hloc. simpl.
  pose proof (plug_locate k T []) as Hpl. rewrite Hloc in Hpl. simpl in Hpl.
  rewrite <- Hpl in HA.
  pose proof (locate_link_side k T [] I) as Hside. rewrite Hloc in Hside.
  specialize (Hside eq_refl). simpl in Hside.
  eapply (link_runs segment_capacity max_segments k cx P P' n a s); [done..|].
  intros s1 HA1. simpl.
  apply runs_bind, runs_get_fuel.
  apply runs_bind. eapply runs_conseq.
  { eapply fix_insert_runs; [exact HA1|exact Hfix|]. by eapply Abs_length_fuel. }
  intros [] s2 HA2. simpl in HA2 |- *.
  apply runs_bind. eapply runs_incr_size; [exact HA2|].
  intros s3 HA3. by apply runs_ret.
Qed.

End L2ups.

Section L2del.
Context {Key Value : Type} `{KO : KeyOrder Key} `{VD : Inhabited Value}.

Abbreviation Node := (@Node Key Value).
Abbreviation PooledMap := (@PooledMap Key Value).
Abbreviation tree := (@tree Key Value).
Abbreviation ctx := (@ctx Key Value).

Lemma fix_erase_loop_root fuel (T : tree) xp P n (s : PooledMap) :
  Abs T P n s →
  runs (fix_erase_loop fuel (rootp T) xp) s (erase_loop_post (blacken T) P n).
Proof.
  intros HA. change (Abs (plug T []) P n s) in HA.
  destruct fuel; cbn [fix_erase_loop]; wp; by exists T, [].
Qed.

Lemma fix_erase_loop_red fuel l x k v r cx xp P n (s : PooledMap) :
  Abs (plug (Br RED l x k v r) cx) P n s →
  runs (fix_erase_loop fuel (Some x) xp) s
    (erase_loop_post (plug (Br BLACK l x k v r) cx) P n).
Proof.
  intros HA.
  destruct cx as [|f cx].
  { apply (fix_erase_loop_root fuel (Br RED l x k v r) xp P n s HA). }
  destruct f; destruct fuel; cbn [fix_erase_loop]; wp; by eexists (Br RED l x k v r), (_ :: cx).
Qed.

Ltac erase_loop_end IH :=
  lazymatch goal with
  | |- runs (fix_erase_loop _ (rootp (plug ?X ?c)) _) ?s _ =>
    with_abs ltac:(fun HA =>
      eapply runs_conseq;
      [ apply (fix_erase_loop_root _ (plug X c) _ _ _ _ HA)
      | intros ? ? Hp; exact Hp ])
  | |- runs (fix_erase_loop _ (Some ?a) _) ?s _ =>
    with_abs ltac:(fun HA =>
      refocus HA a;
      first
        [ lazymatch type of HA with
          | Abs (plug ?t _) _ _ _ => eapply (IH t); [exact HA|eassumption|simpl in *; lia]
          end
        | eapply runs_conseq;
          [ eapply fix_erase_loop_red; exact HA
          | intros ? ? Hp; exact Hp ] ])
  end.

Lemma fix_erase_loop_runs (cx : ctx) : ∀ (t : tree) fuel P n (s : PooledMap) T',
  Abs (plug t cx) P n s →
  del_fix t cx = Some T' →
  (length cx ≤ fuel)%nat →
  runs (fix_erase_loop fuel (rootp t) (ctx_ptr cx)) s (erase_loop_post T' P n).
Proof.
  induction cx as [|f cx' IH]; intros t fuel P n s T' HA Hfix Hfuel.
  { simpl in Hfix. injection Hfix as <-. by apply fix_erase_loop_root. }
  destruct t as [|[] tl x kx vx tr].
  - (* x is nil *)
    destruct fuel as [|fuel]; [simpl in Hfuel; lia|].
    cbn [fix_erase_loop].
    destruct f as [cp p kp vp w|cp w p kp vp]; simpl in Hfix.
    + destruct w as [|[] wl wa wk wv wr]; [done| |].
      * destruct wl as [|cwl wll wla wlk wlv wlr]; [done|].
        destruct wll as [|[] ? ? ? ? ?], wlr as [|[] ? ? ? ? ?]; simpl in Hfix;
          try injection Hfix as <-; wp; erase_loop_end IH.
      * destruct wl as [|[] ? ? ? ? ?], wr as [|[] ? ? ? ? ?]; simpl in Hfix;
          try injection Hfix as <-; wp; erase_loop_end IH.
    + destruct w as [|[] wl wa wk wv wr]; [done| |].
      * destruct wr as [|cwr wrl wra wrk wrv wrr]; [done|].
        destruct wrl as [|[] ? ? ? ? ?], wrr as [|[] ? ? ? ? ?]; simpl in Hfix;
          try injection Hfix as <-; wp; erase_loop_end IH.
      * destruct wl as [|[] ? ? ? ? ?], wr as [|[] ? ? ? ? ?]; simpl in Hfix;
          try injection Hfix as <-; wp; erase_loop_end IH.
  - (* x is RED *)
    simpl in Hfix. injection Hfix as <-.
    eapply runs_conseq; [eapply fix_erase_loop_red; exact HA|].
    intros ? ? Hp; exact Hp.
  - (* x is BLACK *)
    destruct fuel as [|fuel]; [simpl in Hfuel; lia|].
    cbn [fix_erase_loop].
    destruct f as [cp p kp vp w|cp w p kp vp]; simpl in Hfix.
    + destruct w as [|[] wl wa wk wv wr]; [done| |].
      * destruct wl as [|cwl wll wla wlk wlv wlr]; [done|].
        destruct wll as [|[] ? ? ? ? ?], wlr as [|[] ? ? ? ? ?]; simpl in Hfix;
          try injection Hfix as <-; wp; erase_loop_end IH.
      * destruct wl as [|[] ? ? ? ? ?], wr as [|[] ? ? ? ? ?]; simpl in Hfix;
          try injection Hfix as <-; wp; erase_loop_end IH.
    + destruct w as [|[] wl wa wk wv wr]; [done| |].
      * destruct wr as [|cwr wrl wra wrk wrv wrr]; [done|].
        destruct wrl as [|[] ? ? ? ? ?], wrr as [|[] ? ? ? ? ?]; simpl in Hfix;
          try injection Hfix as <-; wp; erase_loop_end IH.
      * destruct wl as [|[] ? ? ? ? ?], wr as [|[] ? ? ? ? ?]; simpl in Hfix;
          try injection Hfix as <-; wp; erase_loop_end IH.
Qed.

Lemma fix_erase_runs (cx : ctx) (t : tree) fuel P n (s : PooledMap) T' :
  Abs (plug t cx) P n s →
  del_fix t cx = Some T' →
  (length cx ≤ fuel)%nat →
  runs (fix_erase fuel (rootp t) (ctx_ptr cx)) s (λ _ s', Abs T' P n s').
Proof.
  intros HA Hfix Hfuel. unfold fix_erase.
  apply runs_bind. eapply runs_conseq; [by eapply fix_erase_loop_runs|].
  intros x s' (t'' & cx'' & -> & HA' & ->). simpl.
  destruct t'' as [|c l a k v r]; wp; [done|]. assumption.
Qed.

End L2del.

Section Layer1c.
Context {Key Value : Type} `{KO : KeyOrder Key} `{VD : Inhabited Value}.

Abbreviation Node := (@Node Key Value).
Abbreviation PooledMap := (@PooledMap Key Value).
Abbreviation tree := (@tree Key Value).
Abbreviation ctx := (@ctx Key Value).
Abbreviation M := (@M Key Value).

Ltac root_step :=
  match goal with
  | H : root ?s = _ |- context [root ?s] => rewrite H
  end;
  try match goal with
  | |- context [croot ?cx (Some ?p)] =>
    let b := fresh "b" in let Hb := fresh "Hb" in
    destruct (croot_Some cx p) as [b Hb]; rewrite Hb
  end.

Ltac finish HQ :=
  eexists _, _; split; [reflexivity|]; apply HQ; [abs_intro|hrun; try done].

(** [transplant(u, u->right)] when [u] has no left child: the right
    subtree takes the place of [u], which stays behind, detached. *)
Lemma transplant_right_runs c u k v r cx P n (s : PooledMap) Q :
  Abs (plug (Br c Leaf u k v r) cx) P n s →
  (∀ s', AbsG (plug r cx) {[u]} P n s' → mem s' !! u = mem s !! u → Q tt s') →
  runs (transplant (Some u) (rootp r)) s Q.
Proof.
  intros HA. abs_dec HA.
  unfold runs, transplant, bind, get, store, set_root, ret.
  destruct r as [|cr rl ra rk rv rr]; simpl in * |-; snorm;
    (destruct cx as [|[cp p kp vp pr|cp pl p kp vp] cx]; simpl in * |-; snorm); intros HQ;
    hrun; finish HQ.
Qed.

Lemma transplant_left_runs c u k v l cx P n (s : PooledMap) Q :
  Abs (plug (Br c l u k v Leaf) cx) P n s →
  (∀ s', AbsG (plug l cx) {[u]} P n s' → mem s' !! u = mem s !! u → Q tt s') →
  runs (transplant (Some u) (rootp l)) s Q.
Proof.
  intros HA. abs_dec HA.
  unfold runs, transplant, bind, get, store, set_root, ret.
  destruct l as [|cl ll la lk lv lr]; simpl in * |-; snorm;
    (destruct cx as [|[cp p kp vp pr|cp pl p kp vp] cx]; simpl in * |-; snorm); intros HQ;
    hrun; finish HQ.
Qed.

(** The successor is the right child of [z]. *)
Lemma erase_succ_child_runs cz cl ll la lk lv lr z kz vz cy y ky vy yr cx yoc P n
    (s : PooledMap) Q :
  Abs (plug (Br cz (Br cl ll la lk lv lr) z kz vz (Br cy Leaf y ky vy yr)) cx) P n s →
  (∀ s', AbsG (plug (Br cz (Br cl ll la lk lv lr) y ky vy yr) cx) {[z]} P n s' →
         Q (rootp yr, Some y, yoc) s') →
  runs (if is_null (rootp yr) then ret tt
        else store (rootp yr) (with_parent (Some y))) s
    (λ _ s1, runs (ret (Some y)) s1
       (λ x_parent s2, runs (replace_by (Some z) (Some y) (rootp yr) yoc x_parent) s2 Q)).
Proof.
  intros HA. abs_dec HA.
  unfold runs, replace_by, transplant, bind, get, store, set_root, ret.
  destruct yr as [|cr rl ra rk rv rr]; simpl in * |-; snorm;
    (destruct cx as [|[cp p kp vp pr|cp pl p kp vp] cx]; simpl in * |-; snorm); intros HQ;
    hrun; eexists _, _; (split; [reflexivity|]);
    eexists _, _; (split; [reflexivity|]); hrun;
    eexists _, _; (split; [reflexivity|]); apply HQ; abs_intro.
Qed.

(** The successor lies deeper and has already been spliced out of its
    place. *)
Lemma erase_succ_deep_runs cz cl ll la lk lv lr z kz vz cr rl ra rk rv rr cx
    y ky vy yl0 yr0 yp cy x yoc P n (s : PooledMap) Q :
  AbsG (plug (Br cz (Br cl ll la lk lv lr) z kz vz (Br cr rl ra rk rv rr)) cx) {[y]} P n s →
  mem s !! y = Some (mkNode ky vy yl0 yr0 yp cy) →
  (∀ s', AbsG (plug (Br cz (Br cl ll la lk lv lr) y ky vy (Br cr rl ra rk rv rr)) cx) {[z]} P n s' →
         Q (x, yp, yoc) s') →
  runs (bind (get right (Some z)) (λ zr,
        bind (store (Some y) (with_right zr)) (λ _,
        bind (get right (Some y)) (λ yr,
        bind (store yr (with_parent (Some y))) (λ _,
        get parent (Some y)))))) s
    (λ x_parent s1, runs (replace_by (Some z) (Some y) x yoc x_parent) s1 Q).
Proof.
  intros HA Hy. abs_dec HA.
  unfold runs, replace_by, transplant, bind, get, store, set_root, ret.
  destruct cx as [|[cp p kp vp pr|cp pl p kp vp] cx]; simpl in * |-; snorm; intros HQ;
    hrun; eexists _, _; (split; [reflexivity|]); hrun;
    eexists _, _; (split; [reflexivity|]); apply HQ; abs_intro.
Qed.

Lemma runs_recycle (T : tree) z P n (s : PooledMap) Q :
  AbsG T {[z]} P n s →
  (∀ s', Abs T (mkPool (z :: free_list P) (segments P) (bump P)) n s' →
         mem s' = delete z (mem s) → Q tt s') →
  runs (recycle (Some z)) s Q.
Proof.
  intros (Hr & Hrep & Hwf & Hdom & Hdisj & HP & Hn) HQ.
  assert (is_Some (mem s !! z)) as [nz Hz].
  { apply elem_of_dom. rewrite Hdom. set_solver. }
  unfold runs, recycle. rewrite Hz. eexists _, _; split; [reflexivity|].
  apply HQ; [|done]. split_and!; simpl; try done.
  - clear -Hrep Hdisj. revert Hrep Hdisj. generalize (@None addr).
    induction T as [|c l IHl a k v r IHr]; intros par; simpl; [done|].
    intros (Ha & Hl & Hr) Hd. split_and!.
    + rewrite lookup_delete_ne; [done|set_solver].
    + apply IHl; [done|set_solver].
    + apply IHr; [done|set_solver].
  - rewrite dom_delete_L, Hdom. set_solver.
  - by rewrite HP.
Qed.

Lemma runs_decr_size t P n (s : PooledMap) Q :
  Abs t P n s →
  (∀ s', Abs t P ((n - 1) mod SIZE_MODULUS) s' → mem s' = mem s → Q tt s') →
  runs decr_size s Q.
Proof.
  intros HA HQ. eexists tt, _. split; [reflexivity|]. apply HQ; [|done].
  destruct HA as (? & ? & ? & ? & ? & ? & ?). split_and!; simpl; try done. congruence.
Qed.

End Layer1c.

Section L2er.
Context {Key Value : Type} `{KO : KeyOrder Key} `{VD : Inhabited Value}.

Abbreviation Node := (@Node Key Value).
Abbreviation PooledMap := (@PooledMap Key Value).
Abbreviation tree := (@tree Key Value).
Abbreviation ctx := (@ctx Key Value).
Abbreviation M := (@M Key Value).

Lemma erase_search_runs k (t : tree) : ∀ cx fuel P n (s : PooledMap),
  Abs (plug t cx) P n s → (height t < fuel)%nat →
  runs (erase_search fuel k (rootp t)) s
    (λ res s', s' = s ∧ res = rootp (locate k t cx).1).
Proof.
  induction t as [|c l IHl a k' v r IHr]; intros cx fuel P n s HA Hfuel.
  - destruct fuel; simpl; by apply runs_ret.
  - destruct fuel as [|fuel]; [simpl in Hfuel; lia|].
    cbn [erase_search]. wp. simpl.
    destruct (key_eq k k').
    { wp. done. }
    destruct (key_lt k k'); wp.
    + apply (IHl (FrL c a k' v r :: cx) fuel P n s HA). simpl in Hfuel. lia.
    + apply (IHr (FrR c l a k' v :: cx) fuel P n s HA). simpl in Hfuel. lia.
Qed.

Lemma plug_app (t : tree) (c1 c2 : ctx) : plug t (c1 ++ c2) = plug (plug t c1) c2.
Proof. revert t. induction c1 as [|f c1 IH]; intros t; simpl; [done|apply IH]. Qed.

Lemma locate_min_spec (t : tree) : ∀ cx, t ≠ Leaf →
  ∃ cy y ky vy yr cxy,
    locate_min t cx = (Br cy Leaf y ky vy yr, cxy ++ cx) ∧
    locate_min t [] = (Br cy Leaf y ky vy yr, cxy) ∧
    plug (Br cy Leaf y ky vy yr) cxy = t.
Proof.
  induction t as [|c l IHl a k v r _]; intros cx Ht; [done|].
  destruct l as [|cl ll la lk lv lr].
  - exists c, a, k, v, r, []. done.
  - destruct (IHl (FrL c a k v r :: cx)) as (cy & y & ky & vy & yr & cxy & H1 & H2 & H3); [done|].
    destruct (IHl [FrL c a k v r]) as (cy' & y' & ky' & vy' & yr' & cxy' & H1' & H2' & H3'); [done|].
    rewrite H2' in H2. injection H2 as <- <- <- <- <- <-.
    exists cy', y', ky', vy', yr', (cxy' ++ [FrL c a k v r]).
    split_and!.
    + change (locate_min (Br c (Br cl ll la lk lv lr) a k v r) cx)
        with (locate_min (Br cl ll la lk lv lr) (FrL c a k v r :: cx)).
      rewrite H1. by rewrite <- app_assoc.
    + change (locate_min (Br c (Br cl ll la lk lv lr) a k v r) [])
        with (locate_min (Br cl ll la lk lv lr) [FrL c a k v r]).
      by rewrite H1'.
    + rewrite plug_app, H3'. done.
Qed.

Lemma minimum_runs (t : tree) : ∀ cx fuel P n (s : PooledMap),
  t ≠ Leaf →
  Abs (plug t cx) P n s → (height t ≤ fuel)%nat →
  runs (minimum fuel (rootp t)) s (λ y s', s' = s ∧ y = rootp (locate_min t cx).1).
Proof.
  induction t as [|c l IHl a k v r _]; intros cx fuel P n s Ht HA Hfuel; [done|].
  destruct fuel as [|fuel]; [simpl in Hfuel; lia|].
  cbn [minimum]. wp.
  destruct l as [|cl ll la lk lv lr]; wp; [done|].
  apply (IHl (FrL c a k v r :: cx) fuel P n s); [done|exact HA|simpl in *; lia].
Qed.

Lemma Abs_sub_height (t : tree) cx P n (s : PooledMap) :
  Abs (plug t cx) P n s → (height t ≤ base.size (mem s))%nat.
Proof.
  intros HA. rewrite (Abs_size_mem _ _ _ _ HA), aset_plug.
  destruct HA as (_ & _ & Hwf & _). apply wf_plug in Hwf as (Ht & Hc & Hd).
  rewrite size_union by done. pose proof (height_le_size t Ht). lia.
Qed.

Lemma AbsG_length (t : tree) cx z P n (s : PooledMap) :
  AbsG (plug t cx) {[z]} P n s → (length cx < base.size (mem s))%nat.
Proof.
  intros (_ & _ & Hwf & Hdom & Hdisj & _).
  rewrite <- size_dom, Hdom, size_union, size_singleton by done.
  rewrite aset_plug. apply wf_plug in Hwf as (Ht & Hc & Hd).
  rewrite size_union by done. pose proof (length_le_size cx Hc). lia.
Qed.

(** [erase] of a key that is absent: 0 is returned and the state is left
    as it is. *)
Lemma erase_absent_runs k T P n (s : PooledMap) cx :
  Abs T P n s →
  locate k T [] = (Leaf, cx) →
  runs (erase k) s (λ res s', res = 0 ∧ s' = s).
Proof.
  intros HA Hloc. unfold erase.
  apply runs_bind, runs_get_fuel.
  apply runs_bind. change (Abs (plug T []) P n s) in HA. wp.
  eapply runs_conseq.
  { apply (erase_search_runs k T [] _ P n s HA). by eapply Abs_height_fuel. }
  intros res s' [-> ->]. rewrite Hloc. simpl. by apply runs_ret.
Qed.

(** The end of [erase], once the node is unlinked. *)
Lemma erase_finish_runs (t : tree) cx z yoc fuel P n (s : PooledMap) T' :
  AbsG (plug t cx) {[z]} P n s →
  (if is_black yoc then del_fix t cx else Some (plug t cx)) = Some T' →
  (base.size (mem s) ≤ fuel)%nat →
  runs (bind (recycle (Some z)) (λ _,
        bind decr_size (λ _,
        bind (if is_black yoc then fix_erase fuel (rootp t) (ctx_ptr cx) else ret tt) (λ _,
        ret 1)))) s
    (λ res s', res = 1 ∧ Abs T' (pool_push z P) ((n - 1) mod SIZE_MODULUS) s').
Proof.
  intros HA HT Hfuel.
  pose proof (AbsG_length _ _ _ _ _ _ HA) as Hlen.
  apply runs_bind. eapply runs_recycle; [exact HA|]. intros s1 HA1 Hm1.
  apply runs_bind. eapply runs_decr_size; [exact HA1|]. intros s2 HA2 Hm2.
  apply runs_bind. destruct yoc; simpl in HT |- *.
  - injection HT as <-. apply runs_ret. by apply runs_ret.
  - eapply runs_conseq.
    { eapply fix_erase_runs; [exact HA2|exact HT|lia]. }
    intros [] s3 HA3. by apply runs_ret.
Qed.

Lemma plug_nonleaf (cx : ctx) : ∀ t : tree, t ≠ Leaf →
  ∃ c l a k v r, plug t cx = Br c l a k v r.
Proof.
  induction cx as [|g cx IH]; intros t0 Ht0; simpl.
  - destruct t0; [done|]. eauto 10.
  - apply IH. by destruct g.
Qed.

Ltac fuel_solve HA HA1 :=
  let Hd := fresh in let Hd1 := fresh in
  destruct HA1 as (_ & _ & _ & Hd1 & _); destruct HA as (_ & _ & _ & Hd & _);
  rewrite <- !size_dom, Hd1, Hd;
  match goal with
  | |- (base.size ?A ≤ S (base.size ?B))%nat =>
    replace A with B; [lia|rewrite ?plug_app, ?aset_plug; simpl; rewrite ?aset_plug; set_solver]
  end.

(** [erase] of a key that is present. *)
Lemma erase_present_runs k T P n (s : PooledMap) c l z k' v r cx T' :
  Abs T P n s →
  locate k T [] = (Br c l z k' v r, cx) →
  erase_at c l z k' v r cx = Some T' →
  runs (erase k) s
    (λ res s', res = 1 ∧ Abs T' (pool_push z P) ((n - 1) mod SIZE_MODULUS) s').
Proof.
  intros HA Hloc Her. unfold erase.
  apply runs_bind, runs_get_fuel.
  apply runs_bind. change (Abs (plug T []) P n s) in HA. wp.
  eapply runs_conseq.
  { apply (erase_search_runs k T [] _ P n s HA). by eapply Abs_height_fuel. }
  intros res s' [-> ->]. rewrite Hloc. hcbn.
  pose proof (plug_locate k T []) as Hpl. rewrite Hloc in Hpl. simpl in Hpl.
  change (Abs T P n s) in HA. rewrite <- Hpl in HA. clear Hpl Hloc.
  unfold erase_at in Her.
  destruct l as [|cl ll la lk lv lr].
  { (* no left child *)
    wp. eapply transplant_right_runs; [exact HA|]. intros s1 HA1 Hz1.
    apply runs_ret.
    eapply erase_finish_runs; [exact HA1|exact Her|].
    fuel_solve HA HA1. }
  destruct r as [|cr rl ra rk rv rr].
  { (* no right child *)
    wp. eapply (transplant_left_runs c z k' v (Br cl ll la lk lv lr) cx P n s); [exact HA|].
    intros s1 HA1 Hz1.
    apply runs_ret.
    eapply (erase_finish_runs (Br cl ll la lk lv lr) cx z c); [exact HA1|exact Her|].
    fuel_solve HA HA1. }
  (* two children *)
  destruct (locate_min_spec (Br cr rl ra rk rv rr) (FrR c (Br cl ll la lk lv lr) z k' v :: cx))
    as (cy & y & ky & vy & yr & cxy & Hmin & Hmin0 & Hplug); [done|].
  rewrite Hmin0 in Her. cbv zeta in Her.
  wp.
  eapply runs_conseq.
  { apply (minimum_runs (Br cr rl ra rk rv rr) (FrR c (Br cl ll la lk lv lr) z k' v :: cx)
             _ P n s); [done|exact HA|].
    change (Abs (plug (Br cr rl ra rk rv rr) (FrR c (Br cl ll la lk lv lr) z k' v :: cx)) P n s) in HA.
    pose proof (Abs_sub_height _ _ _ _ _ HA). lia. }
  intros res s' [-> ->]. rewrite Hmin. cbn [fst rootp].
  rewrite <- Hplug in HA.
  change (Abs (plug (plug (Br cy Leaf y ky vy yr) cxy)
                (FrR c (Br cl ll la lk lv lr) z k' v :: cx)) P n s) in HA.
  rewrite <- plug_app in HA.
  destruct cxy as [|f cxy].
  - (* the successor is the right child of [z] *)
    cbn [app plug fill] in HA. cbn [app] in Her. wp.
    eapply (erase_succ_child_runs c cl ll la lk lv lr z k' v cy y ky vy yr cx cy P n s);
      [exact HA|].
    intros s1 HA1. hcbn.
    eapply (erase_finish_runs yr (FrR c (Br cl ll la lk lv lr) y ky vy :: cx) z cy);
      [exact HA1|exact Her|].
    fuel_solve HA HA1.
  - (* the successor lies deeper *)
    assert (fr_addr f ≠ z) as Hfz.
    { pose proof HA as Hc. destruct Hc as (_ & _ & Hwf & _). rewrite plug_app in Hwf.
      apply wf_plug in Hwf as (_ & _ & Hz). rewrite aset_plug in Hz.
      destruct f; simpl in Hz |- *; set_solver. }
    pose proof (Abs_focus _ _ _ _ _ _ _ _ _ _ HA) as Hy.
    wp.
    eapply (transplant_right_runs cy y ky vy yr _ P n s); [exact HA|].
    intros s1 HA1 Hy1. rewrite Hy in Hy1.
    rewrite plug_app in HA1.
    destruct (plug_nonleaf cxy (fill f yr)) as (cr' & rl' & ra' & rk' & rv' & rr' & Hr').
    { by destruct f. }
    change (AbsG (plug (Br c (Br cl ll la lk lv lr) z k' v (plug (fill f yr) cxy)) cx)
              {[y]} P n s1) in HA1.
    rewrite Hr' in HA1.
    eapply (erase_succ_deep_runs c cl ll la lk lv lr z k' v cr' rl' ra' rk' rv' rr' cx
              y ky vy _ _ _ cy (rootp yr) cy P n s1); [exact HA1|exact Hy1|].
    intros s2 HA2. hcbn.
    rewrite <- Hr' in HA2.
    change (AbsG (plug (plug yr (f :: cxy)) (FrR c (Br cl ll la lk lv lr) y ky vy :: cx))
              {[z]} P n s2) in HA2.
    rewrite <- plug_app in HA2.
    eapply (erase_finish_runs yr ((f :: cxy) ++ FrR c (Br cl ll la lk lv lr) y ky vy :: cx) z cy);
      [exact HA2|exact Her|].
    destruct HA2 as (_ & _ & _ & Hd2 & _). destruct HA as (_ & _ & _ & Hd & _).
    rewrite <- !size_dom, Hd2, Hd.
    match goal with
    | |- (base.size ?A ≤ S (base.size ?B))%nat => replace A with B; [lia|]
    end.
    rewrite !plug_app, !aset_plug. simpl. rewrite ?aset_plug. simpl. set_solver.
Qed.

End L2er.

Section L2misc.
Context {Key Value : Type} `{KO : KeyOrder Key} `{VD : Inhabited Value}.

Abbreviation Node := (@Node Key Value).
Abbreviation PooledMap := (@PooledMap Key Value).
Abbreviation tree := (@tree Key Value).
Abbreviation ctx := (@ctx Key Value).
Abbreviation M := (@M Key Value).

Lemma find_loop_runs k (t : tree) : ∀ cx fuel P n (s : PooledMap),
  Abs (plug t cx) P n s → (height t < fuel)%nat →
  runs (find_loop fuel k (rootp t)) s
    (λ res s', s' = s ∧ res = found_value (locate k t cx).1).
Proof.
  induction t as [|c l IHl a k' v r IHr]; intros cx fuel P n s HA Hfuel.
  - destruct fuel; simpl; by apply runs_ret.
  - destruct fuel as [|fuel]; [simpl in Hfuel; lia|].
    cbn [find_loop]. wp. simpl.
    destruct (key_eq k k').
    { wp. done. }
    destruct (key_lt k k'); wp.
    + apply (IHl (FrL c a k' v r :: cx) fuel P n s HA). simpl in Hfuel. lia.
    + apply (IHr (FrR c l a k' v :: cx) fuel P n s HA). simpl in Hfuel. lia.
Qed.

Lemma find_runs k T P n (s : PooledMap) :
  Abs T P n s →
  runs (find k) s (λ res s', s' = s ∧ res = found_value (locate k T []).1).
Proof.
  intros HA. unfold find.
  apply runs_bind, runs_get_fuel.
  apply runs_bind. change (Abs (plug T []) P n s) in HA. wp.
  apply (find_loop_runs k T [] _ P n s HA). by eapply Abs_height_fuel.
Qed.

Lemma contains_loop_runs k (t : tree) : ∀ cx fuel P n (s : PooledMap),
  Abs (plug t cx) P n s → (height t < fuel)%nat →
  runs (contains_loop fuel k (rootp t)) s
    (λ res s', s' = s ∧ res = is_node (locate k t cx).1).
Proof.
  induction t as [|c l IHl a k' v r IHr]; intros cx fuel P n s HA Hfuel.
  - destruct fuel; simpl; by apply runs_ret.
  - destruct fuel as [|fuel]; [simpl in Hfuel; lia|].
    cbn [contains_loop]. wp. simpl.
    destruct (key_eq k k').
    { wp. done. }
    destruct (key_lt k k'); wp.
    + apply (IHl (FrL c a k' v r :: cx) fuel P n s HA). simpl in Hfuel. lia.
    + apply (IHr (FrR c l a k' v :: cx) fuel P n s HA). simpl in Hfuel. lia.
Qed.

Lemma contains_runs k T P n (s : PooledMap) :
  Abs T P n s →
  runs (contains k) s (λ res s', s' = s ∧ res = is_node (locate k T []).1).
Proof.
  intros HA. unfold contains.
  apply runs_bind, runs_get_fuel.
  apply runs_bind. change (Abs (plug T []) P n s) in HA. wp.
  apply (contains_loop_runs k T [] _ P n s HA). by eapply Abs_height_fuel.
Qed.

Lemma rootp_visit {A} (f : Key → Value → A → Value * A) (t : tree) acc :
  rootp (visit f t acc).1 = rootp t.
Proof.
  destruct t as [|c l a k v r]; simpl; [done|].
  destruct (visit f l acc) as [l' acc1]. destruct (f k v acc1) as [v' acc2].
  by destruct (visit f r acc2) as [r' acc3].
Qed.

Lemma inorder_traverse_runs {A} (f : Key → Value → A → Value * A) (t : tree) :
  ∀ cx fuel acc P n (s : PooledMap),
  Abs (plug t cx) P n s → (height t < fuel)%nat →
  runs (inorder_traverse fuel (rootp t) f acc) s
    (λ res s', res = (visit f t acc).2 ∧ Abs (plug (visit f t acc).1 cx) P n s').
Proof.
  induction t as [|c l IHl a k v r IHr]; intros cx fuel acc P n s HA Hfuel.
  - destruct fuel; simpl; by apply runs_ret.
  - destruct fuel as [|fuel]; [simpl in Hfuel; lia|].
    cbn [inorder_traverse]. wp.
    eapply runs_conseq.
    { apply (IHl (FrL c a k v r :: cx) fuel acc P n s HA). simpl in Hfuel. lia. }
    intros acc1 s1 [-> HA1]. hcbn. clear HA.
    pose proof (rootp_visit f l acc) as Hrl.
    simpl. destruct (visit f l acc) as [l' acc1]. simpl in Hrl, HA1 |- *.
    wp. destruct (f k v acc1) as [v' acc2]. wp.
    eapply runs_conseq.
    { match goal with HA : Abs _ _ _ ?s |- runs _ ?s _ =>
        apply (IHr (FrR c l' a k v' :: cx) fuel acc2 P n s HA) end.
      simpl in Hfuel. lia. }
    intros acc3 s3 [-> HA3].
    destruct (visit f r acc2) as [r' acc3]. simpl in HA3 |- *. done.
Qed.

Lemma for_each_runs {A} (f : Key → Value → A → Value * A) T acc P n (s : PooledMap) :
  Abs T P n s →
  runs (for_each f acc) s
    (λ res s', res = (visit f T acc).2 ∧ Abs (visit f T acc).1 P n s').
Proof.
  intros HA. unfold for_each.
  apply runs_bind, runs_get_fuel.
  apply runs_bind. change (Abs (plug T []) P n s) in HA. wp.
  apply (inorder_traverse_runs f T [] _ acc P n s HA). by eapply Abs_height_fuel.
Qed.

(** ** clear *)

Lemma rep_agree (h h' : gmap addr Node) par (t : tree) :
  (∀ a, a ∈ aset t → h' !! a = h !! a) → rep h par t → rep h' par t.
Proof.
  revert par. induction t as [|c l IHl a k v r IHr]; intros par Hag; simpl; [done|].
  intros (Ha & Hl & Hr). split_and!.
  - rewrite Hag; [done|set_solver].
  - apply IHl; [|done]. intros b Hb. apply Hag. set_solver.
  - apply IHr; [|done]. intros b Hb. apply Hag. set_solver.
Qed.

Lemma clear_runs (t : tree) : ∀ par fuel (s : PooledMap),
  rep (mem s) par t → wf t → (height t < fuel)%nat →
  runs (clear fuel (rootp t)) s (λ _ s', cleared t s s').
Proof.
  induction t as [|c l IHl a k v r IHr]; intros par fuel s Hrep Hwf Hfuel.
  - destruct fuel; simpl; apply runs_ret; (split_and!; [|by destruct s as [? []]|done|done]);
      intros a; by rewrite decide_False by set_solver.
  - destruct fuel as [|fuel]; [simpl in Hfuel; lia|].
    simpl in Hrep, Hwf. destruct Hrep as (Ha & Hl & Hr).
    destruct Hwf as (Hal & Har & Hlr & Hwl & Hwr).
    cbn [clear]. hcbn.
    apply runs_bind. eapply runs_get; [exact Ha|]. hcbn.
    apply runs_bind. eapply runs_conseq.
    { apply (IHl (Some a) fuel s Hl Hwl). simpl in Hfuel. lia. }
    intros [] s1 (Hm1 & Hp1 & Hr1 & Hn1). hcbn.
    assert (mem s1 !! a = mem s !! a) as Ha1.
    { rewrite Hm1. by rewrite decide_False. }
    apply runs_bind. eapply runs_get; [by rewrite Ha1|]. hcbn.
    apply runs_bind. eapply runs_conseq.
    { apply (IHr (Some a) fuel s1); [|done|simpl in Hfuel; lia].
      eapply rep_agree; [|exact Hr]. intros b Hb. rewrite Hm1.
      rewrite decide_False; [done|set_solver]. }
    intros [] s2 (Hm2 & Hp2 & Hr2 & Hn2). hcbn.
    assert (mem s2 !! a = mem s !! a) as Ha2.
    { rewrite Hm2. rewrite decide_False by done. done. }
    unfold runs, recycle. rewrite Ha2, Ha. eexists _, _; split; [reflexivity|].
    split_and!; simpl.
    + intros b. destruct (decide (b = a)) as [->|Hne].
      * rewrite lookup_delete_eq. rewrite decide_True by set_solver. done.
      * rewrite lookup_delete_ne by done. rewrite Hm2, Hm1.
        repeat case_decide; try done; set_solver.
    + rewrite Hp2, Hp1. simpl. f_equal.
      rewrite !reverse_app, reverse_singleton. simpl. by rewrite <- !app_assoc.
    + congruence.
    + congruence.
Qed.

Lemma destroy_runs T P n (s : PooledMap) :
  Abs T P n s →
  runs destroy s (λ _ s', cleared T s s').
Proof.
  intros HA. unfold destroy.
  apply runs_bind, runs_get_fuel.
  apply runs_bind. change (Abs (plug T []) P n s) in HA. wp.
  destruct HA as (Hroot & Hrep & Hwf & Hdom & _).
  eapply (clear_runs T None); [exact Hrep|exact Hwf|].
  pose proof (height_le_size T Hwf). rewrite <- size_dom, Hdom.
  replace (aset (plug T []) ∪ ∅) with (aset T) by (simpl; set_solver). lia.
Qed.

End L2misc.

Section RB.
Context {Key Value : Type} `{KO : KeyOrder Key} `{VD : Inhabited Value}.

Abbreviation tree := (@tree Key Value).
Abbreviation frame := (@frame Key Value).
Abbreviation ctx := (@ctx Key Value).

Lemma bh_plug_balanced (cx : ctx) : ∀ t : tree,
  balanced (plug t cx) ↔ balanced t ∧ cbal cx (bh t).
Proof.
  induction cx as [|f cx IH]; intros t; simpl; [tauto|].
  rewrite IH. destruct f; simpl; intuition congruence.
Qed.

Lemma rr_free_plug (cx : ctx) : ∀ t : tree,
  rr_free (plug t cx) ↔ rr_free t ∧ crr cx (tcol t).
Proof.
  induction cx as [|f cx IH]; intros t; simpl; [tauto|].
  rewrite IH. destruct f; simpl; intuition.
Qed.

Lemma tcol_plug (cx : ctx) : ∀ t : tree, tcol (plug t cx) = croot_col cx (tcol t).
Proof.
  induction cx as [|f cx IH]; intros t; simpl; [done|].
  rewrite IH. by destruct f.
Qed.

Lemma RB_plug (t : tree) (cx : ctx) :
  RB (plug t cx) ↔
  croot_col cx (tcol t) = BLACK ∧ rr_free t ∧ crr cx (tcol t) ∧ balanced t ∧ cbal cx (bh t).
Proof. unfold RB. rewrite tcol_plug, rr_free_plug, bh_plug_balanced. tauto. Qed.

Lemma crr_black (cx : ctx) c : crr cx c → crr cx BLACK.
Proof. destruct cx as [|f cx]; simpl; [done|]. intuition. Qed.

Lemma crr_head_black (f : frame) (cx : ctx) c c' :
  fr_color f = BLACK → crr (f :: cx) c → crr (f :: cx) c'.
Proof. simpl. intros ->. intuition congruence. Qed.

Lemma croot_col_cons (cx : ctx) c c' :
  cx ≠ [] → croot_col cx c = croot_col cx c'.
Proof. destruct cx; [done|]. done. Qed.

Lemma croot_col_black (cx : ctx) c :
  croot_col cx c = BLACK → croot_col cx BLACK = BLACK.
Proof. destruct cx; simpl; [done|]. done. Qed.

Lemma rr_free_blacken (t : tree) : rr_free t → rr_free (blacken t).
Proof. destruct t; simpl; [done|]. intuition congruence. Qed.

Lemma balanced_blacken (t : tree) : balanced t ↔ balanced (blacken t).
Proof. by destruct t. Qed.

Lemma tcol_blacken (t : tree) : tcol (blacken t) = BLACK.
Proof. by destruct t. Qed.

Lemma RB_blacken (t : tree) : rr_free (blacken t) → balanced t → RB (blacken t).
Proof. intros. split_and!; [apply tcol_blacken|done|by rewrite <- balanced_blacken]. Qed.

Lemma nodes_plug (cx : ctx) : ∀ t : tree,
  nodes (plug t cx) = cleft cx ++ nodes t ++ cright cx.
Proof.
  induction cx as [|f cx IH]; intros t; simpl; [by rewrite app_nil_r|].
  rewrite IH. destruct f; simpl; by rewrite <- ?app_assoc.
Qed.

Lemma nodes_blacken (t : tree) : nodes (blacken t) = nodes t.
Proof. by destruct t. Qed.

(** Two trees below the same path have the same entries if they have the
    same entries themselves. *)
Lemma nodes_plug_eq (cx : ctx) (t t' : tree) :
  nodes t = nodes t' → nodes (plug t cx) = nodes (plug t' cx).
Proof. intros H. by rewrite !nodes_plug, H. Qed.

End RB.

Section RBins.
Context {Key Value : Type} `{KO : KeyOrder Key} `{VD : Inhabited Value}.

Abbreviation tree := (@tree Key Value).
Abbreviation frame := (@frame Key Value).
Abbreviation ctx := (@ctx Key Value).

Ltac rb_auto :=
  repeat match goal with
  | H : _ ∧ _ |- _ => destruct H
  | H : RED = RED → _ |- _ => specialize (H eq_refl)
  | H : BLACK = RED → _ |- _ => clear H
  | H : RED = BLACK |- _ => discriminate H
  | H : BLACK = RED |- _ => discriminate H
  end;
  repeat split; try done; try congruence; try lia;
  try match goal with
  | H : cbal ?cx ?n |- cbal ?cx ?m => replace m with n by lia; exact H
  end.

Ltac ins_end :=
  eexists; split; [reflexivity|];
  split; [apply bh_plug_balanced|apply rr_free_blacken, rr_free_plug];
  simpl in *; rb_auto; try (by eapply crr_black).

Lemma ins_fix_ok (cx : ctx) : ∀ l z k v r,
  rr_free (Br RED l z k v r) → balanced (Br RED l z k v r) →
  cbal cx (bh (Br RED l z k v r)) → crr cx BLACK → croot_col cx BLACK = BLACK →
  ∃ T', ins_fix (Br RED l z k v r) cx = Some T' ∧ balanced T' ∧ rr_free (blacken T').
Proof.
  induction cx as [cx IH] using (induction_ltof1 _ length); unfold ltof in IH.
  intros l z k v r Hrr Hbal Hcb Hcr Hroot.
  destruct cx as [|f1 cx1].
  { eexists; split; [reflexivity|]. split; [done|]. by apply rr_free_blacken. }
  destruct f1 as [[] p kp vp pr|[] pl p kp vp].
  - destruct cx1 as [|[cg g kg vg u|cg u g kg vg] cx2]; [done| |].
    + destruct cg; [simpl in Hcr; rb_auto|].
      destruct u as [|[] ul ua uk uv ur]; cbn [ins_fix fr_color recolor_frame fill].
      * ins_end.
      * apply IH; [simpl; lia|simpl in *; rb_auto..].
      * ins_end.
    + destruct cg; [simpl in Hcr; rb_auto|].
      destruct u as [|[] ul ua uk uv ur]; cbn [ins_fix fr_color recolor_frame fill].
      * ins_end.
      * apply IH; [simpl; lia|simpl in *; rb_auto..].
      * ins_end.
  - ins_end.
  - destruct cx1 as [|[cg g kg vg u|cg u g kg vg] cx2]; [done| |].
    + destruct cg; [simpl in Hcr; rb_auto|].
      destruct u as [|[] ul ua uk uv ur]; cbn [ins_fix fr_color recolor_frame fill].
      * ins_end.
      * apply IH; [simpl; lia|simpl in *; rb_auto..].
      * ins_end.
    + destruct cg; [simpl in Hcr; rb_auto|].
      destruct u as [|[] ul ua uk uv ur]; cbn [ins_fix fr_color recolor_frame fill].
      * ins_end.
      * apply IH; [simpl; lia|simpl in *; rb_auto..].
      * ins_end.
  - ins_end.
Qed.

Ltac list_eq := repeat (rewrite <- ?app_assoc; simpl); reflexivity.

Lemma ins_fix_nodes (cx : ctx) : ∀ (t T' : tree),
  ins_fix t cx = Some T' → nodes T' = nodes (plug t cx).
Proof.
  induction cx as [cx IH] using (induction_ltof1 _ length); unfold ltof in IH.
  intros t T' Hfix.
  destruct cx as [|f1 cx1]; simpl in Hfix; [by injection Hfix as <-|].
  destruct (fr_color f1) eqn:Hc1; [|by injection Hfix as <-].
  destruct cx1 as [|[cg g kg vg u|cg u g kg vg] cx2]; [done| |].
  - destruct u as [|[] ul ua uk uv ur].
    + destruct f1; [|destruct t; [done|]]; injection Hfix as <-;
        simpl; apply nodes_plug_eq; list_eq.
    + rewrite (IH cx2 ltac:(simpl; lia) _ _ Hfix).
      simpl. apply nodes_plug_eq. destruct f1; list_eq.
    + destruct f1; [|destruct t; [done|]]; injection Hfix as <-;
        simpl; apply nodes_plug_eq; list_eq.
  - destruct u as [|[] ul ua uk uv ur].
    + destruct f1; [destruct t; [done|]|]; injection Hfix as <-;
        simpl; apply nodes_plug_eq; list_eq.
    + rewrite (IH cx2 ltac:(simpl; lia) _ _ Hfix).
      simpl. apply nodes_plug_eq. destruct f1; list_eq.
    + destruct f1; [destruct t; [done|]|]; injection Hfix as <-;
        simpl; apply nodes_plug_eq; list_eq.
Qed.

End RBins.

Section RBdel.
Context {Key Value : Type} `{KO : KeyOrder Key} `{VD : Inhabited Value}.

Abbreviation tree := (@tree Key Value).
Abbreviation frame := (@frame Key Value).
Abbreviation ctx := (@ctx Key Value).

Ltac rb_hyps :=
  repeat match goal with
  | H : _ ∧ _ |- _ => destruct H
  | H : RED = RED → _ |- _ => specialize (H eq_refl)
  | H : BLACK = RED → _ |- _ => clear H
  | H : RED = BLACK |- _ => discriminate H
  | H : BLACK = RED |- _ => discriminate H
  | H : True |- _ => clear H
  end.

Ltac rb_auto :=
  rb_hyps;
  repeat split; try done; try congruence; try lia;
  try match goal with
  | H : cbal ?cx ?n |- cbal ?cx ?m => replace m with n by lia; exact H
  end;
  try match goal with
  | H : crr ?cx _ |- crr ?cx BLACK => exact (crr_black _ _ H)
  end;
  try match goal with
  | H : croot_col ?cx _ = BLACK |- croot_col ?cx BLACK = BLACK => exact (croot_col_black _ _ H)
  end.

Ltac del_rec IH :=
  solve [apply IH; simpl in *; rb_auto].

Ltac del_end :=
  repeat match goal with c : Color |- _ => destruct c end;
  simpl in *; rb_hyps;
  first
    [ exfalso; lia
    | exfalso; congruence
    | eexists; split; [reflexivity|];
      apply RB_blacken; [apply rr_free_blacken, rr_free_plug|apply bh_plug_balanced];
      simpl in *; solve [rb_auto]
    | eexists; split; [reflexivity|];
      apply RB_plug; simpl in *; solve [rb_auto] ].

Lemma del_fix_ok (cx : ctx) : ∀ t : tree,
  rr_free (blacken t) → balanced t → cbal cx (S (bh t)) → crr cx BLACK →
  croot_col cx BLACK = BLACK →
  ∃ T', del_fix t cx = Some T' ∧ RB T'.
Proof.
  induction cx as [|f cx' IH]; intros t Hrr Hbal Hcb Hcr Hroot.
  { eexists; split; [reflexivity|]. by apply RB_blacken. }
  destruct t as [|[] tl x kx vx tr].
  - (* x is nil *)
    destruct f as [cp p kp vp w|cp w p kp vp]; cbn [del_fix tcol].
    + destruct w as [|[] wl wa wk wv wr].
      * del_end.
      * destruct wl as [|cwl wll wla wlk wlv wlr]; [del_end|].
        destruct wll as [|[] ? ? ? ? ?], wlr as [|[] ? ? ? ? ?]; del_end.
      * destruct wl as [|[] ? ? ? ? ?], wr as [|[] ? ? ? ? ?];
          cbn [del_cases_L is_blackt tcol is_black andb];
          first [ del_rec IH | del_end ].
    + destruct w as [|[] wl wa wk wv wr].
      * del_end.
      * destruct wr as [|cwr wrl wra wrk wrv wrr]; [del_end|].
        destruct wrl as [|[] ? ? ? ? ?], wrr as [|[] ? ? ? ? ?]; del_end.
      * destruct wl as [|[] ? ? ? ? ?], wr as [|[] ? ? ? ? ?];
          cbn [del_cases_R is_blackt tcol is_black andb];
          first [ del_rec IH | del_end ].
  - (* x is RED *)
    cbn [del_fix tcol]. eexists; split; [reflexivity|].
    apply RB_plug. simpl in *. rb_auto; try (intuition congruence); try lia.
  - (* x is BLACK *)
    destruct f as [cp p kp vp w|cp w p kp vp]; cbn [del_fix tcol].
    +
      destruct w as [|[] wl wa wk wv wr].
      * del_end.
      * destruct wl as [|cwl wll wla wlk wlv wlr]; [del_end|].
        destruct wll as [|[] ? ? ? ? ?], wlr as [|[] ? ? ? ? ?]; del_end.
      * destruct wl as [|[] ? ? ? ? ?], wr as [|[] ? ? ? ? ?];
          cbn [del_cases_L is_blackt tcol is_black andb];
          first [ del_rec IH | del_end ].
    +
      destruct w as [|[] wl wa wk wv wr].
      * del_end.
      * destruct wr as [|cwr wrl wra wrk wrv wrr]; [del_end|].
        destruct wrl as [|[] ? ? ? ? ?], wrr as [|[] ? ? ? ? ?]; del_end.
      * destruct wl as [|[] ? ? ? ? ?], wr as [|[] ? ? ? ? ?];
          cbn [del_cases_R is_blackt tcol is_black andb];
          first [ del_rec IH | del_end ].
Qed.

Ltac list_eq := repeat (rewrite <- ?app_assoc; simpl); reflexivity.

Ltac del_io IH :=
  simpl in *;
  match goal with
  | H : Some _ = Some _ |- _ =>
    injection H as <-; rewrite ?nodes_blacken, ?nodes_plug; simpl;
    rewrite ?nodes_blacken; list_eq
  | H : None = Some _ |- _ => discriminate H
  | H : del_fix _ _ = Some _ |- _ =>
    rewrite (IH _ _ H), ?nodes_plug; list_eq
  end.

Lemma del_fix_nodes (cx : ctx) : ∀ (t T' : tree),
  del_fix t cx = Some T' → nodes T' = nodes (plug t cx).
Proof.
  induction cx as [|f cx' IH]; intros t T' Hfix.
  { simpl in Hfix. injection Hfix as <-. apply nodes_blacken. }
  destruct t as [|[] tl x kx vx tr].
  - destruct f as [cp p kp vp w|cp w p kp vp].
    + destruct w as [|[] wl wa wk wv wr]; [del_io IH| |].
      * destruct wl as [|cwl wll wla wlk wlv wlr]; [del_io IH|].
        destruct wll as [|[] ? ? ? ? ?], wlr as [|[] ? ? ? ? ?]; del_io IH.
      * destruct wl as [|[] ? ? ? ? ?], wr as [|[] ? ? ? ? ?]; del_io IH.
    + destruct w as [|[] wl wa wk wv wr]; [del_io IH| |].
      * destruct wr as [|cwr wrl wra wrk wrv wrr]; [del_io IH|].
        destruct wrl as [|[] ? ? ? ? ?], wrr as [|[] ? ? ? ? ?]; del_io IH.
      * destruct wl as [|[] ? ? ? ? ?], wr as [|[] ? ? ? ? ?]; del_io IH.
  - cbn [del_fix tcol] in Hfix. injection Hfix as <-. rewrite !nodes_plug. destruct f; list_eq.
  - destruct f as [cp p kp vp w|cp w p kp vp].
    + destruct w as [|[] wl wa wk wv wr]; [del_io IH| |].
      * destruct wl as [|cwl wll wla wlk wlv wlr]; [del_io IH|].
        destruct wll as [|[] ? ? ? ? ?], wlr as [|[] ? ? ? ? ?]; del_io IH.
      * destruct wl as [|[] ? ? ? ? ?], wr as [|[] ? ? ? ? ?]; del_io IH.
    + destruct w as [|[] wl wa wk wv wr]; [del_io IH| |].
      * destruct wr as [|cwr wrl wra wrk wrv wrr]; [del_io IH|].
        destruct wrl as [|[] ? ? ? ? ?], wrr as [|[] ? ? ? ? ?]; del_io IH.
      * destruct wl as [|[] ? ? ? ? ?], wr as [|[] ? ? ? ? ?]; del_io IH.
Qed.

End RBdel.

Section RBerase.
Context {Key Value : Type} `{KO : KeyOrder Key} `{VD : Inhabited Value}.

Abbreviation tree := (@tree Key Value).
Abbreviation frame := (@frame Key Value).
Abbreviation ctx := (@ctx Key Value).

Lemma bh_plug (cx : ctx) : ∀ t : tree, balanced (plug t cx) → bh (plug t cx) = cbh cx (bh t).
Proof.
  induction cx as [|f cx IH]; intros t Hb; simpl; [done|].
  rewrite (IH _ Hb). apply (bh_plug_balanced (f :: cx)) in Hb as [_ Hc].
  destruct f; simpl in *; [done|]. destruct Hc as (Heq & _). by rewrite Heq.
Qed.

Lemma cbal_app (c1 c2 : ctx) : ∀ n, cbal (c1 ++ c2) n ↔ cbal c1 n ∧ cbal c2 (cbh c1 n).
Proof. induction c1 as [|f c1 IH]; intros n; simpl; [tauto|]. rewrite IH. tauto. Qed.

Lemma crr_app (c1 c2 : ctx) : ∀ c, crr (c1 ++ c2) c ↔ crr c1 c ∧ crr c2 (croot_col c1 c).
Proof. induction c1 as [|f c1 IH]; intros c; simpl; [tauto|]. rewrite IH. tauto. Qed.

Lemma croot_col_app (c1 c2 : ctx) : ∀ c, croot_col (c1 ++ c2) c = croot_col c2 (croot_col c1 c).
Proof. induction c1 as [|f c1 IH]; intros c; simpl; [done|]. apply IH. Qed.

Lemma cleft_app (c1 c2 : ctx) : cleft (c1 ++ c2) = cleft c2 ++ cleft c1.
Proof.
  induction c1 as [|f c1 IH]; simpl; [by rewrite app_nil_r|].
  destruct f; [done|]. rewrite IH. repeat (rewrite <- ?app_assoc; simpl); reflexivity.
Qed.

Lemma cright_app (c1 c2 : ctx) : cright (c1 ++ c2) = cright c1 ++ cright c2.
Proof.
  induction c1 as [|f c1 IH]; simpl; [done|].
  destruct f; [|done]. rewrite IH. repeat (rewrite <- ?app_assoc; simpl); reflexivity.
Qed.

Lemma locate_min_cleft (t : tree) : ∀ cx, cleft (locate_min t cx).2 = cleft cx.
Proof.
  induction t as [|c l IHl a k v r _]; intros cx; [done|].
  destruct l as [|cl ll la lk lv lr]; [done|].
  change (locate_min (Br c (Br cl ll la lk lv lr) a k v r) cx)
    with (locate_min (Br cl ll la lk lv lr) (FrL c a k v r :: cx)).
  rewrite IHl. done.
Qed.

(** Removing a node that has no left child, whose right subtree is [yr]
    and whose color is [cy], from below the path [cx]. *)
Lemma erase_node_ok cy (yr : tree) (cx : ctx) :
  balanced yr → rr_free yr → cbal cx (bh yr + blk cy) → crr cx cy →
  (cy = RED → tcol yr = BLACK) → croot_col cx cy = BLACK →
  ∃ T', (if is_black cy then del_fix yr cx else Some (plug yr cx)) = Some T' ∧ RB T'.
Proof.
  intros Hb Hrr Hcb Hcr Hcol Hroot. destruct cy; simpl.
  - eexists; split; [reflexivity|]. apply RB_plug. split_and!; try done.
    + destruct cx; [done|]. done.
    + rewrite (Hcol eq_refl). by eapply crr_black.
    + simpl in Hcb. by rewrite Nat.add_0_r in Hcb.
  - apply del_fix_ok; try done.
    + by apply rr_free_blacken.
    + simpl in Hcb. by rewrite Nat.add_1_r in Hcb.
Qed.

Lemma erase_at_ok c (l : tree) z k v (r : tree) (cx : ctx) :
  RB (plug (Br c l z k v r) cx) →
  ∃ T', erase_at c l z k v r cx = Some T' ∧ RB T'.
Proof.
  intros HRB. apply RB_plug in HRB as (Hroot & Hrr & Hcr & Hbal & Hcb).
  simpl in Hroot, Hrr, Hcr, Hbal, Hcb.
  destruct Hrr as (Hcol & Hrl & Hrrr). destruct Hbal as (Hbh & Hbl & Hbr).
  unfold erase_at.
  destruct l as [|cl ll la lk lv lr].
  { apply erase_node_ok; try done; [by rewrite <- Hbh|]. intros ->. by apply Hcol. }
  destruct r as [|cr rl ra rk rv rr].
  { apply erase_node_ok; try done. intros ->. by apply Hcol. }
  destruct (locate_min_spec (Br cr rl ra rk rv rr) []) as
    (cy & y & ky & vy & yr & cxy & Hmin & _ & Hplug); [done|].
  rewrite app_nil_r in Hmin. rewrite Hmin. cbv zeta.
  rewrite <- Hplug in Hbr, Hrrr, Hbh, Hcol.
  pose proof (bh_plug _ _ Hbr) as Hbhr.
  apply bh_plug_balanced in Hbr as (HbY & HcbY).
  apply rr_free_plug in Hrrr as (HrY & HcrY).
  simpl in HbY, HrY, HcbY, Hbhr, HcrY.
  destruct HbY as (HbhY & _ & Hbyr). destruct HrY as (HcolY & _ & Hryr).
  apply erase_node_ok; try done.
  - apply cbal_app. split.
    + by rewrite <- HbhY.
    + rewrite <- HbhY. cbn [Nat.add]. rewrite <- Hbhr. cbn [cbal fr_sib fr_color].
      split_and!; try done. by rewrite <- Hbh.
  - apply crr_app. split; [done|]. cbn [crr fr_sib fr_color]. split_and!; try done.
    intros ->. rewrite tcol_plug in Hcol. simpl in Hcol. destruct (Hcol eq_refl). done.
  - intros ->. by apply HcolY.
  - rewrite croot_col_app. done.
Qed.

Lemma erase_at_nodes c (l : tree) z k v (r : tree) (cx : ctx) T' :
  erase_at c l z k v r cx = Some T' →
  nodes T' = cleft cx ++ nodes l ++ nodes r ++ cright cx.
Proof.
  unfold erase_at. intros Her.
  assert (∀ (t : tree) cy cx0 T0,
    (if is_black cy then del_fix t cx0 else Some (plug t cx0)) = Some T0 →
    nodes T0 = nodes (plug t cx0)) as Hnode.
  { intros t cy cx0 T0 H. destruct cy; simpl in H.
    - by injection H as <-.
    - by apply del_fix_nodes. }
  destruct l as [|cl ll la lk lv lr].
  { rewrite (Hnode _ _ _ _ Her), nodes_plug. done. }
  destruct r as [|cr rl ra rk rv rr].
  { rewrite (Hnode _ _ _ _ Her), nodes_plug. simpl. done. }
  destruct (locate_min_spec (Br cr rl ra rk rv rr) []) as
    (cy & y & ky & vy & yr & cxy & Hmin & _ & Hplug); [done|].
  pose proof (locate_min_cleft (Br cr rl ra rk rv rr) []) as Hcl.
  rewrite app_nil_r in Hmin. rewrite Hmin in Her, Hcl. cbv zeta in Her. simpl in Hcl.
  rewrite (Hnode _ _ _ _ Her), nodes_plug, cleft_app, cright_app.
  rewrite <- Hplug, nodes_plug, ?Hcl. simpl.
  repeat (rewrite <- ?app_assoc; simpl). done.
Qed.

End RBerase.

Section Order.
Context {Key Value : Type} `{KO : KeyOrder Key} `{VD : Inhabited Value}.
Context `{KL : !KeyOrderLaws Key}.

Abbreviation tree := (@tree Key Value).
Abbreviation frame := (@frame Key Value).
Abbreviation ctx := (@ctx Key Value).

Lemma klt_irrefl (a : Key) : ¬ klt a a.
Proof. unfold klt. rewrite key_lt_irrefl. done. Qed.

Lemma klt_trans (a b c : Key) : klt a b → klt b c → klt a c.
Proof. apply key_lt_trans. Qed.

Lemma sorted_keys_app (l1 l2 : list (addr * Key * Value)) :
  sorted_keys (l1 ++ l2) ↔
  (∀ e1 e2, e1 ∈ l1 → e2 ∈ l2 → klt (ekey e1) (ekey e2)) ∧ sorted_keys l1 ∧ sorted_keys l2.
Proof.
  unfold sorted_keys. rewrite fmap_app, StronglySorted_app.
  split; intros (H & Ha & Hb); split_and!; try done.
  - intros e1 e2 He1 He2. apply H; by apply list_elem_of_fmap_2.
  - intros x1 x2 (e1 & -> & He1)%list_elem_of_fmap (e2 & -> & He2)%list_elem_of_fmap.
    by apply H.
Qed.

Lemma sorted_keys_cons (e : addr * Key * Value) (l : list (addr * Key * Value)) :
  sorted_keys (e :: l) ↔ Forall (λ e', klt (ekey e) (ekey e')) l ∧ sorted_keys l.
Proof.
  unfold sorted_keys. rewrite fmap_cons, StronglySorted_cons, Forall_fmap. done.
Qed.

Lemma sorted_keys_nil : sorted_keys ([] : list (addr * Key * Value)).
Proof. constructor. Qed.

Lemma sorted_keys_insert (l1 l2 : list (addr * Key * Value)) a k v :
  sorted_keys (l1 ++ l2) →
  Forall (λ e, klt (ekey e) k) l1 → Forall (λ e, klt k (ekey e)) l2 →
  sorted_keys (l1 ++ (a, k, v) :: l2).
Proof.
  rewrite !sorted_keys_app, sorted_keys_cons, !Forall_forall.
  intros (H12 & H1 & H2) Hl Hr. split_and!; try done.
  intros e1 e2 He1 [->|He2]%elem_of_cons; simpl; [by apply Hl|by apply H12].
Qed.

Lemma sorted_keys_delete (l1 l2 : list (addr * Key * Value)) e :
  sorted_keys (l1 ++ e :: l2) → sorted_keys (l1 ++ l2).
Proof.
  rewrite !sorted_keys_app, sorted_keys_cons, !Forall_forall.
  intros (H12 & H1 & H2 & H3). split_and!; try done.
  intros e1 e2 He1 He2. apply H12; [done|]. by apply elem_of_cons; right.
Qed.

Lemma sorted_keys_NoDup (l : list (addr * Key * Value)) : sorted_keys l → NoDup (ekey <$> l).
Proof.
  unfold sorted_keys. induction 1 as [|x ks Hs IH Hall]; constructor; [|done].
  intros Hx. rewrite Forall_forall in Hall. by eapply klt_irrefl, Hall.
Qed.

(** In a list with strictly increasing keys a key has one node. *)
Lemma sorted_keys_functional (l : list (addr * Key * Value)) e1 e2 :
  sorted_keys l → e1 ∈ l → e2 ∈ l → ekey e1 = ekey e2 → e1 = e2.
Proof.
  intros Hs%sorted_keys_NoDup. induction l as [|e l IH]; [by intros ?%elem_of_nil|].
  simpl in Hs. apply NoDup_cons in Hs as [Hk Hs].
  intros [->|H1]%elem_of_cons [->|H2]%elem_of_cons Heq; [done| | |by apply IH].
  - destruct Hk. rewrite Heq. by apply list_elem_of_fmap_2.
  - destruct Hk. rewrite <- Heq. by apply list_elem_of_fmap_2.
Qed.

Lemma locate_spec k (t : tree) : ∀ cx,
  sorted_keys (nodes (plug t cx)) → bounds k cx →
  bounds k (locate k t cx).2 ∧
  match (locate k t cx).1 with Leaf => True | Br _ _ _ k' _ _ => k' = k end.
Proof.
  induction t as [|c l IHl a k' v r IHr]; intros cx Hs Hb; simpl; [done|].
  destruct (key_eq k k') eqn:Heq.
  { split; [done|]. simpl. symmetry. by apply key_eq_spec. }
  pose proof Hs as Hs'.
  rewrite nodes_plug in Hs'. simpl in Hs'.
  apply sorted_keys_app in Hs' as (_ & _ & Hs').
  apply sorted_keys_app in Hs' as (_ & Hs' & _).
  apply sorted_keys_app in Hs' as (Hlr & _ & Hr').
  apply sorted_keys_cons in Hr' as (Hr' & _). rewrite Forall_forall in Hr'.
  destruct Hb as [Hbl Hbr].
  destruct (key_lt k k') eqn:Hlt.
  - apply IHl; [exact Hs|]. split; simpl; [done|].
    constructor; [done|]. apply Forall_app. split; [|done].
    apply Forall_forall. intros e He. eapply klt_trans; [exact Hlt|]. by apply Hr'.
  - assert (klt k' k) as Hgt.
    { destruct (key_lt_total k k') as [H|[H|H]]; [congruence| |done].
      apply key_eq_spec in H. congruence. }
    apply IHr; [exact Hs|]. split; simpl; [|done].
    apply Forall_app. split; [done|]. apply Forall_app. split.
    + apply Forall_forall. intros e He. eapply klt_trans; [|exact Hgt].
      apply (Hlr e (a, k', v)); [done|]. by apply elem_of_cons; left.
    + by repeat constructor.
Qed.

Lemma bounds_nil k : bounds k ([] : ctx).
Proof. split; constructor. Qed.

(** A descent that ends at a nil leaf: the key occurs nowhere. *)
Lemma locate_absent k (T : tree) cx :
  sorted_keys (nodes T) → locate k T [] = (Leaf, cx) →
  nodes T = cleft cx ++ cright cx ∧ bounds k cx ∧ k ∉ ekey <$> nodes T.
Proof.
  intros Hs Hloc.
  pose proof (locate_spec k T [] Hs (bounds_nil k)) as [Hb _]. rewrite Hloc in Hb. simpl in Hb.
  pose proof (plug_locate k T []) as Hpl. rewrite Hloc in Hpl. simpl in Hpl.
  assert (nodes T = cleft cx ++ cright cx) as Hio.
  { rewrite <- Hpl, nodes_plug. done. }
  split_and!; [done..|].
  rewrite Hio, fmap_app. destruct Hb as [Hl Hr]. rewrite Forall_forall in Hl, Hr.
  intros [(e & -> & He)%list_elem_of_fmap|(e & -> & He)%list_elem_of_fmap]%elem_of_app.
  - by eapply klt_irrefl, Hl.
  - by eapply klt_irrefl, Hr.
Qed.

(** A descent that ends at a node: the node holds the key. *)
Lemma locate_present k (T : tree) c l a k' v r cx :
  sorted_keys (nodes T) → locate k T [] = (Br c l a k' v r, cx) →
  k' = k ∧ nodes T = cleft cx ++ nodes l ++ (a, k, v) :: nodes r ++ cright cx.
Proof.
  intros Hs Hloc.
  pose proof (locate_spec k T [] Hs (bounds_nil k)) as [_ Hk]. rewrite Hloc in Hk. simpl in Hk.
  subst k'. split; [done|].
  pose proof (plug_locate k T []) as Hpl. rewrite Hloc in Hpl. simpl in Hpl.
  rewrite <- Hpl, nodes_plug. simpl. by rewrite <- !app_assoc.
Qed.

End Order.

Section PoolInv.
Variable segment_capacity max_segments : nat.

Abbreviation frontier := (frontier segment_capacity).
Abbreviation pool_ok := (pool_ok segment_capacity max_segments).

Lemma pool_ok_empty : pool_ok (mkPool [] 0 0) ∅.
Proof.
  split_and!; simpl; try lia; [constructor|by intros ? ?%elem_of_nil|].
  intros a [?%not_elem_of_empty|?%elem_of_nil]; done.
Qed.

Lemma pool_alloc_ok P live a P' :
  pool_ok P live →
  pool_alloc segment_capacity max_segments P = Ok (a, P') →
  a ∉ live ∧ pool_ok P' ({[a]} ∪ live).
Proof.
  intros (Hnd & Hfree & Hlt & Hb & Hs). unfold pool_alloc.
  destruct P as [[|x fl] sg bp]; simpl in *.
  - destruct ((0 <? sg)%nat && (bp <? segment_capacity)%nat) eqn:E1.
    + apply andb_true_iff in E1 as [E1%Nat.ltb_lt E2%Nat.ltb_lt].
      destruct sg as [|m]; [lia|].
      replace (S m - 1)%nat with m by lia.
      intros [= <- <-]. unfold frontier in *. simpl in *.
      split.
      * intros Hin. specialize (Hlt _ (or_introl Hin)). lia.
      * split_and!; simpl; try lia; [constructor|by intros ? ?%elem_of_nil|].
        intros b [[->%elem_of_singleton|Hin]%elem_of_union|?%elem_of_nil];
          [unfold frontier; simpl; lia| |done].
        specialize (Hlt _ (or_introl Hin)). unfold frontier; simpl; lia.
    + destruct ((sg <? max_segments)%nat && (0 <? segment_capacity)%nat) eqn:E2; [|done].
      apply andb_true_iff in E2 as [E2%Nat.ltb_lt E3%Nat.ltb_lt].
      intros [= <- <-]. unfold frontier in *. simpl in *.
      assert (∀ b, b ∈ live → (b < sg * segment_capacity)%nat) as Hlive.
      { intros b Hin. specialize (Hlt _ (or_introl Hin)). destruct sg as [|m]; [lia|]. nia. }
      split.
      * intros Hin. specialize (Hlive _ Hin). lia.
      * split_and!; simpl; try lia; [constructor|by intros ? ?%elem_of_nil|].
        intros b [[->%elem_of_singleton|Hin]%elem_of_union|?%elem_of_nil];
          [unfold frontier; simpl; lia| |done].
        specialize (Hlive _ Hin). unfold frontier; simpl; lia.
  - intros [= <- <-]. apply NoDup_cons in Hnd as [Hx Hnd]. split.
    + apply Hfree. by left.
    + split_and!; simpl; try done.
      * intros b Hb' [->%elem_of_singleton|Hin]%elem_of_union; [done|].
        eapply Hfree; [by right|done].
      * intros b [[->%elem_of_singleton|Hin]%elem_of_union|Hin].
        -- apply Hlt. right. by left.
        -- apply Hlt. by left.
        -- apply Hlt. right. by right.
Qed.

Lemma pool_alloc_fault P f :
  pool_alloc segment_capacity max_segments P = Fault f → f = AllocFail.
Proof.
  unfold pool_alloc. destruct (free_list P); [|done].
  repeat case_match; congruence.
Qed.

(** A recycled slot is always handed out again before a new one. *)
Lemma pool_alloc_free_list P a fl :
  free_list P = a :: fl →
  pool_alloc segment_capacity max_segments P = Ok (a, mkPool fl (segments P) (bump P)).
Proof. unfold pool_alloc. by intros ->. Qed.

Lemma pool_push_ok P live z :
  pool_ok P live → z ∈ live → pool_ok (pool_push z P) (live ∖ {[z]}).
Proof.
  intros (Hnd & Hfree & Hlt & Hb & Hs) Hz. split_and!; simpl; try done.
  - apply NoDup_cons. split; [|done]. intros Hin. by apply (Hfree z).
  - intros b [->|Hin]%elem_of_cons; [set_solver|]. specialize (Hfree _ Hin). set_solver.
  - intros b [[Hin _]%elem_of_difference|[->|Hin]%elem_of_cons]; apply Hlt; auto.
Qed.

Lemma frontier_le P : pool_ok P ∅ ∨ True →
  (bump P ≤ segment_capacity)%nat → (segments P ≤ max_segments)%nat →
  (frontier P ≤ max_segments * segment_capacity)%nat.
Proof.
  intros _ Hb Hs. unfold frontier. destruct (segments P) as [|m]; [lia|]. nia.
Qed.

Lemma pool_ok_count P live :
  pool_ok P live →
  (base.size live + length (free_list P) ≤ max_segments * segment_capacity)%nat.
Proof.
  intros (Hnd & Hfree & Hlt & Hb & Hs).
  pose proof (frontier_le P (or_intror I) Hb Hs) as Hfr.
  assert (live ∪ list_to_set (free_list P) ⊆ (set_seq 0 (frontier P) : gset nat)) as Hsub.
  { intros b Hb'. apply elem_of_set_seq. split; [lia|]. simpl. apply Hlt.
    apply elem_of_union in Hb' as [?|?%elem_of_list_to_set]; auto. }
  apply subseteq_size in Hsub.
  rewrite size_set_seq, size_union, size_list_to_set in Hsub; [lia|done|].
  intros b Hb1 Hb2%elem_of_list_to_set. by apply (Hfree b).
Qed.

End PoolInv.

Section Layer4.
Context {Key Value : Type} `{KO : KeyOrder Key} `{VD : Inhabited Value}.
Variable segment_capacity max_segments : nat.

Abbreviation Node := (@Node Key Value).
Abbreviation PooledMap := (@PooledMap Key Value).
Abbreviation tree := (@tree Key Value).
Abbreviation ctx := (@ctx Key Value).
Abbreviation upsert := (upsert segment_capacity max_segments).
Abbreviation pool_alloc := (pool_alloc segment_capacity max_segments).
Abbreviation pool_ok := (pool_ok segment_capacity max_segments).
Abbreviation op := (@op Key Value).
Abbreviation event := (@event Key).
Abbreviation M := (@M Key Value).
Abbreviation apply_op := (apply_op segment_capacity max_segments).
Abbreviation run := (run segment_capacity max_segments).
Abbreviation reachable := (reachable segment_capacity max_segments).
Abbreviation InvT := (InvT segment_capacity max_segments).
Abbreviation InvS := (InvS segment_capacity max_segments).
Abbreviation pool_step := (pool_step segment_capacity max_segments).

(** ** Client programs *)

(** ** The representation invariant *)

(** ** Nodes and addresses *)

Lemma aset_nodes (t : tree) : aset t = list_to_set (eaddr <$> nodes t).
Proof.
  induction t as [|c l IHl a k v r IHr]; simpl; [done|].
  rewrite fmap_app, list_to_set_app_L, fmap_cons, list_to_set_cons, <- IHl, <- IHr.
  unfold eaddr; simpl. set_solver.
Qed.

Lemma elem_of_aset (t : tree) a : a ∈ aset t ↔ ∃ k v, (a, k, v) ∈ nodes t.
Proof.
  rewrite aset_nodes, elem_of_list_to_set, list_elem_of_fmap. split.
  - intros ([[a' k] v] & -> & Hin). by exists k, v.
  - intros (k & v & Hin). by exists (a, k, v).
Qed.

Lemma wf_nodes_NoDup (t : tree) : wf t → NoDup (eaddr <$> nodes t).
Proof.
  induction t as [|c l IHl a k v r IHr]; simpl; [constructor|].
  intros (Hal & Har & Hlr & Hwl & Hwr).
  rewrite fmap_app, fmap_cons. apply NoDup_app. split_and!.
  - by apply IHl.
  - intros x Hx [->|Hx']%elem_of_cons.
    + apply Hal. by rewrite aset_nodes, elem_of_list_to_set.
    + apply (Hlr x); by rewrite aset_nodes, elem_of_list_to_set.
  - apply NoDup_cons. split; [|by apply IHr].
    intros Hx. apply Har. by rewrite aset_nodes, elem_of_list_to_set.
Qed.

Lemma length_nodes (t : tree) : wf t → length (nodes t) = base.size (aset t).
Proof.
  intros Hwf. rewrite aset_nodes, size_list_to_set by by apply wf_nodes_NoDup.
  by rewrite length_fmap.
Qed.

Lemma rep_nodes (h : gmap addr Node) (t : tree) : ∀ par a k v,
  rep h par t → (a, k, v) ∈ nodes t →
  ∃ nd, h !! a = Some nd ∧ key nd = k ∧ value nd = v.
Proof.
  induction t as [|c l IHl a' k' v' r IHr]; intros par a k v; simpl.
  - by intros _ ?%elem_of_nil.
  - intros (Ha & Hl & Hr) [Hin|[Heq|Hin]%elem_of_cons]%elem_of_app.
    + by eapply IHl.
    + injection Heq as -> -> ->. eexists; split; [exact Ha|done].
    + by eapply IHr.
Qed.

Lemma Abs_lookup T P n (s : PooledMap) a nd :
  Abs T P n s → mem s !! a = Some nd → (a, key nd, value nd) ∈ nodes T.
Proof.
  intros (_ & Hrep & _ & Hdom & _) Ha.
  assert (a ∈ aset T) as Hin.
  { rewrite union_empty_r_L in Hdom. rewrite <- Hdom. by apply elem_of_dom. }
  apply elem_of_aset in Hin as (k & v & Hin).
  destruct (rep_nodes _ _ _ _ _ _ Hrep Hin) as (nd' & Ha' & <- & <-).
  by simplify_eq.
Qed.

Lemma Abs_nodes T P n (s : PooledMap) a k v :
  Abs T P n s → (a, k, v) ∈ nodes T →
  ∃ nd, mem s !! a = Some nd ∧ key nd = k ∧ value nd = v.
Proof. intros (_ & Hrep & _) Hin. by eapply rep_nodes. Qed.

(** A tree determines the state that holds it. *)
Lemma rep_lookup_eq (h h' : gmap addr Node) (t : tree) : ∀ par a,
  rep h par t → rep h' par t → a ∈ aset t → h !! a = h' !! a.
Proof.
  induction t as [|c l IHl a' k' v' r IHr]; intros par a; simpl; [set_solver|].
  intros (Ha & Hl & Hr) (Ha' & Hl' & Hr') [->%elem_of_singleton|[Hin|Hin]%elem_of_union]%elem_of_union.
  - by rewrite Ha, Ha'.
  - by eapply IHl.
  - by eapply IHr.
Qed.

Lemma Abs_unique T P n (s s' : PooledMap) : Abs T P n s → Abs T P n s' → s = s'.
Proof.
  intros (Hroot & Hrep & _ & Hdom & _ & Hp & Hn) (Hroot' & Hrep' & _ & Hdom' & _ & Hp' & Hn').
  destruct s as [h p r n0], s' as [h' p' r' n0']; simpl in *. subst.
  f_equal.
  apply map_eq. intros a. destruct (decide (a ∈ aset T)) as [Hin|Hin].
  - by eapply rep_lookup_eq.
  - rewrite union_empty_r_L in Hdom, Hdom'.
    rewrite (proj1 (not_elem_of_dom h a)) by by rewrite Hdom.
    by rewrite (proj1 (not_elem_of_dom h' a)) by by rewrite Hdom'.
Qed.

Lemma Abs_dom T P n (s : PooledMap) : Abs T P n s → dom (mem s) = aset T.
Proof. intros (_ & _ & _ & Hdom & _). by rewrite union_empty_r_L in Hdom. Qed.

Lemma Abs_pool_size T P n (s : PooledMap) : Abs T P n s → P = pool s ∧ n = size_ s.
Proof. intros (_ & _ & _ & _ & _ & Hp & Hn). done. Qed.

Lemma InvT_intro T P n (s : PooledMap) :
  Abs T P n s → RB T → n = Z.of_nat (length (nodes T)) → pool_ok P (aset T) → InvT T s.
Proof.
  intros HA HRB Hn Hpool. pose proof (Abs_pool_size _ _ _ _ HA) as [-> ->].
  split_and!; try done. by rewrite (Abs_dom _ _ _ _ HA).
Qed.

Lemma InvT_pool_aset T (s : PooledMap) : InvT T s → pool_ok (pool s) (aset T).
Proof. intros (HA & _ & _ & Hp). by rewrite (Abs_dom _ _ _ _ HA) in Hp. Qed.

Lemma aset_focus (t : tree) a :
  a ∈ aset t → ∃ c l k v r cx, t = plug (Br c l a k v r) cx.
Proof.
  induction t as [|c l IHl a' k v r IHr]; simpl; [set_solver|].
  intros [->%elem_of_singleton|[Hin|Hin]%elem_of_union]%elem_of_union.
  - by exists c, l, k, v, r, [].
  - destruct (IHl Hin) as (c0 & l0 & k0 & v0 & r0 & cx & ->).
    exists c0, l0, k0, v0, r0, (cx ++ [FrL c a' k v r]). by rewrite plug_app.
  - destruct (IHr Hin) as (c0 & l0 & k0 & v0 & r0 & cx & ->).
    exists c0, l0, k0, v0, r0, (cx ++ [FrR c l a' k v]). by rewrite plug_app.
Qed.

Lemma locate_nodes k (T : tree) :
  nodes T = cleft (locate k T []).2 ++ nodes (locate k T []).1 ++ cright (locate k T []).2.
Proof. by rewrite <- nodes_plug, plug_locate. Qed.

Lemma locate_key_eq k (t : tree) : ∀ cx c l a k' v r cx',
  locate k t cx = (Br c l a k' v r, cx') → key_eq k k' = true.
Proof.
  induction t as [|c0 l0 IHl a0 k0 v0 r0 IHr]; intros cx c l a k' v r cx'; simpl; [done|].
  destruct (key_eq k k0) eqn:Heq; [intros H; by simplify_eq|].
  destruct (key_lt k k0); eauto.
Qed.

(** ** The red-black invariants, read off the heap *)

Lemma rep_path_blacks (h : gmap addr Node) (t : tree) : ∀ par n,
  rep h par t → balanced t → path_blacks h (rootp t) n → n = bh t.
Proof.
  induction t as [|c l IHl a k v r IHr]; intros par n; simpl.
  - intros _ _ Hp. by inversion Hp.
  - intros (Ha & Hl & Hr) (Hbh & Hbl & Hbr) Hp.
    inversion Hp as [|a' nd m Hnd Hm|a' nd m Hnd Hm]; subst;
      rewrite Ha in Hnd; injection Hnd as <-; simpl in *.
    + by rewrite (IHl _ _ Hl Hbl Hm).
    + by rewrite (IHr _ _ Hr Hbr Hm), Hbh.
Qed.

Lemma rep_path_exists (h : gmap addr Node) (t : tree) : ∀ par,
  rep h par t → path_blacks h (rootp t) (bh t).
Proof.
  induction t as [|c l IHl a k v r IHr]; intros par; simpl; [constructor|].
  intros (Ha & Hl & Hr).
  apply (pb_left h a (mkNode k v (rootp l) (rootp r) par c) (bh l) Ha). simpl. by eapply IHl.
Qed.

Lemma Abs_red_parent T P n (s : PooledMap) a nd :
  Abs T P n s → RB T → mem s !! a = Some nd → color nd = RED →
  ∃ p pn, parent nd = Some p ∧ mem s !! p = Some pn ∧ color pn = BLACK.
Proof.
  intros HA HRB Ha Hred.
  assert (a ∈ aset T) as Hin.
  { rewrite <- (Abs_dom _ _ _ _ HA). by apply elem_of_dom. }
  destruct (aset_focus _ _ Hin) as (c & l & k & v & r & cx & ->).
  apply RB_plug in HRB as (Hroot & _ & Hcr & _). simpl in Hroot, Hcr.
  abs_dec HA.
  match goal with H : mem s !! a = Some (mkNode _ _ _ _ _ _) |- _ =>
    rewrite H in Ha; injection Ha as <- end.
  simpl in Hred. subst c.
  destruct cx as [|f cx]; simpl in *; [done|].
  destruct Hcr as (Hf & _).
  assert (fr_color f = BLACK) as Hb.
  { destruct (fr_color f); [by destruct Hf|done]. }
  destruct f as [cp p kp vp pr|cp pl p kp vp]; simpl in *; snorm; subst cp;
    eexists _, _; (split; [reflexivity|]); (split; [eassumption|done]).
Qed.

Lemma Abs_root_black T P n (s : PooledMap) :
  Abs T P n s → RB T →
  root s = None ∨ ∃ r nd, root s = Some r ∧ mem s !! r = Some nd ∧ color nd = BLACK.
Proof.
  intros (Hroot & Hrep & _) (Hc & _).
  destruct T as [|c l a k v r]; simpl in *; [by left|]. right.
  destruct Hrep as (Ha & _). subst c. by eexists _, _.
Qed.

(** ** Creating and linking the new node *)

Lemma link_exec {A} k (cx : ctx) P P' n a (s : PooledMap) (K : ptr → M A) :
  Abs (plug Leaf cx) P n s →
  pool_alloc P = Ok (a, P') →
  a ∉ (dom (mem s) : gset addr) →
  bind (create segment_capacity max_segments k Value_default) (λ node,
  bind (store node (with_parent None)) (λ _,
  bind (store node (with_right None)) (λ _,
  bind (store node (with_left None)) (λ _,
  bind (store node (with_color RED)) (λ _,
  bind (store node (with_parent (ctx_ptr cx))) (λ _,
  bind get_root (λ r,
  bind (if is_null r then set_root node
        else bind (get key (ctx_ptr cx)) (λ pk,
             if key_lt k pk then store (ctx_ptr cx) (with_left node)
             else store (ctx_ptr cx) (with_right node))) (λ _,
  K node)))))))) s = K (Some a) (linked k a (ctx_ptr cx) P' s).
Proof.
  intros HA Hal Hfresh.
  abs_dec HA.
  match goal with H : dom _ = _ |- _ => rewrite H in Hfresh end. snorm.
  unfold bind, create, store, get, get_root, set_root, linked.
  match goal with H : pool s = P |- _ => rewrite H end. rewrite Hal. hcbn.
  destruct cx as [|[cp p kp vp pr|cp pl p kp vp] cx]; simpl in * |-; snorm.
  - hrun. match goal with H : root s = _ |- _ => rewrite H end. hcbn.
    f_equal. f_equal.
    apply map_eq. intros i. rewrite !lookup_insert. repeat case_decide; done.
  - hrun. match goal with H : root s = _ |- _ => rewrite H end.
    destruct (croot_Some cx p) as [b Hb]. rewrite Hb. hrun.
    destruct (key_lt k kp) eqn:Hlt; hrun; f_equal; f_equal;
      apply map_eq; intros i;
      destruct (decide (i = p)) as [->|Hip];
      rewrite ?lookup_alter_eq, ?lookup_alter_ne, ?lookup_insert_eq by done;
      repeat hstep; unfold link_child; simpl; rewrite ?Hlt; try done;
      rewrite !lookup_insert; repeat case_decide; done.
  - hrun. match goal with H : root s = _ |- _ => rewrite H end.
    destruct (croot_Some cx p) as [b Hb]. rewrite Hb. hrun.
    destruct (key_lt k kp) eqn:Hlt; hrun; f_equal; f_equal;
      apply map_eq; intros i;
      destruct (decide (i = p)) as [->|Hip];
      rewrite ?lookup_alter_eq, ?lookup_alter_ne, ?lookup_insert_eq by done;
      repeat hstep; unfold link_child; simpl; rewrite ?Hlt; try done;
      rewrite !lookup_insert; repeat case_decide; done.
Qed.

(** ** The empty map *)

Lemma InvT_empty : InvT Leaf (empty_map : PooledMap).
Proof.
  unfold InvT. split_and!; simpl.
  - unfold Abs, AbsG. simpl. split_and!; try done; set_solver.
  - by split_and!.
  - done.
  - rewrite dom_empty_L. apply pool_ok_empty.
Qed.

(** ** Monad equations, queries and traversal *)

Lemma bind_eq {A B} (m : M A) (f : A → M B) (s : PooledMap) a s1 :
  m s = Ok (a, s1) → bind m f s = f a s1.
Proof. unfold bind. by intros ->. Qed.

Lemma bind_Ok {A B} (m : M A) (f : A → M B) (s : PooledMap) b s' :
  bind m f s = Ok (b, s') ↔ ∃ a s1, m s = Ok (a, s1) ∧ f a s1 = Ok (b, s').
Proof.
  unfold bind. split.
  - destruct (m s) as [[a s1]|]; [|done]. intros H. by exists a, s1.
  - intros (a & s1 & -> & H). done.
Qed.

Lemma bind_Fault {A B} (m : M A) (f : A → M B) (s : PooledMap) e :
  bind m f s = Fault e ↔
  m s = Fault e ∨ ∃ a s1, m s = Ok (a, s1) ∧ f a s1 = Fault e.
Proof.
  unfold bind. split.
  - destruct (m s) as [[a s1]|e']; [|intros [= ->]; by left]. intros H. right. by exists a, s1.
  - intros [->|(a & s1 & -> & H)]; done.
Qed.

Lemma contains_eq k T P n (s : PooledMap) :
  Abs T P n s → contains k s = Ok (is_node (locate k T []).1, s).
Proof. intros HA. by destruct (contains_runs k T P n s HA) as (res & s' & -> & -> & ->). Qed.

Lemma find_eq k T P n (s : PooledMap) :
  Abs T P n s → find k s = Ok (found_value (locate k T []).1, s).
Proof. intros HA. by destruct (find_runs k T P n s HA) as (res & s' & -> & -> & ->). Qed.

Lemma locate_in k (T : tree) c l a k' v r cx :
  locate k T [] = (Br c l a k' v r, cx) → (a, k', v) ∈ nodes T.
Proof. intros Hloc. rewrite (locate_nodes k T), Hloc. simpl. set_solver. Qed.

Lemma total_delta_split (log : list event) :
  total_delta log = insertions log - successful_erases log.
Proof. induction log as [|[] log IH]; simpl; lia. Qed.

Lemma apply_op_event o (s : PooledMap) e s' :
  apply_op o s = Ok (e, s') →
  match o with
  | OpErase k => ∃ count, e = EvErased k count
  | OpUpsert k | OpAssign k _ => e = EvFound k ∨ e = EvInserted k
  end.
Proof.
  destruct o as [k|k w|k]; simpl.
  - intros (b & s1 & _ & (p & s2 & _ & [= <- _])%bind_Ok)%bind_Ok. destruct b; auto.
  - intros (b & s1 & _ & (p & s2 & _ & ([] & s3 & _ & [= <- _])%bind_Ok)%bind_Ok)%bind_Ok.
    destruct b; auto.
  - intros (c & s1 & _ & [= <- _])%bind_Ok. by exists c.
Qed.

Lemma visit_record (t : tree) : ∀ acc,
  visit record_call t acc = (t, acc ++ inorder t).
Proof.
  induction t as [|c l IHl a k v r IHr]; intros acc; simpl; [by rewrite app_nil_r|].
  rewrite IHl. simpl. rewrite IHr. unfold inorder. simpl.
  rewrite fmap_app, fmap_cons. unfold entry_of at 2. simpl.
  by rewrite <- !app_assoc.
Qed.

Lemma visit_fold {A} (f : Key → Value → A → Value * A) (t : tree) : ∀ acc,
  (visit f t acc).2 = visit_all f acc (inorder t).
Proof.
  unfold visit_all, inorder.
  induction t as [|c l IHl a k v r IHr]; intros acc; simpl; [done|].
  specialize (IHl acc). destruct (visit f l acc) as [l' acc1]. simpl in IHl.
  destruct (f k v acc1) as [v' acc2] eqn:Hf.
  specialize (IHr acc2). destruct (visit f r acc2) as [r' acc3]. simpl in IHr |- *.
  rewrite fmap_app, fmap_cons, foldl_app. simpl. by rewrite <- IHl, Hf.
Qed.

Lemma for_each_record_eq T P n (s : PooledMap) :
  Abs T P n s → for_each record_call [] s = Ok (inorder T, s).
Proof.
  intros HA. destruct (for_each_runs record_call T [] P n s HA) as (res & s' & -> & -> & HA').
  rewrite visit_record in *. simpl in *. by rewrite (Abs_unique _ _ _ _ _ HA HA').
Qed.

Lemma for_each_eq {A} (f : Key → Value → A → Value * A) acc T P n (s : PooledMap) :
  Abs T P n s → ∃ s', for_each f acc s = Ok (visit_all f acc (inorder T), s').
Proof.
  intros HA. destruct (for_each_runs f T acc P n s HA) as (res & s' & -> & -> & HA').
  exists s'. by rewrite visit_fold.
Qed.

(** ** Order *)

Section Ordered.
Context `{KL : !KeyOrderLaws Key}.

Lemma tree_step_sorted (T T' : tree) :
  sorted_keys (nodes T) → tree_step T T' → sorted_keys (nodes T').
Proof.
  intros Hs [k a cx Hloc Hn|k c l z k' v r cx Hloc Hn|l1 a k v v' l2 Hn Hn'].
  - destruct (locate_absent k T cx Hs Hloc) as (HnT & [Hl Hr] & _).
    rewrite Hn. apply sorted_keys_insert; [by rewrite <- HnT|done..].
  - destruct (locate_present k T c l z k' v r cx Hs Hloc) as [-> HnT].
    rewrite Hn. rewrite HnT in Hs. rewrite app_assoc in Hs. apply sorted_keys_delete in Hs.
    by rewrite <- app_assoc in Hs.
  - unfold sorted_keys in *. rewrite Hn in Hs. rewrite Hn'.
    by rewrite fmap_app, fmap_cons in *.
Qed.

Lemma rtc_tree_step_sorted (T T' : tree) :
  sorted_keys (nodes T) → rtc tree_step T T' → sorted_keys (nodes T').
Proof. intros Hs Hst. induction Hst; eauto using tree_step_sorted. Qed.

(** The descent finds the node that holds a key. *)
Lemma locate_node k (T : tree) a k' v :
  sorted_keys (nodes T) → (a, k', v) ∈ nodes T → key_eq k k' = true →
  ∃ c l r cx, locate k T [] = (Br c l a k' v r, cx).
Proof.
  intros Hs Hin ->%key_eq_spec.
  destruct (locate k' T []) as [[|c l a2 k2 v2 r] cx] eqn:Hloc.
  - destruct (locate_absent k' T cx Hs Hloc) as (_ & _ & Hno). destruct Hno.
    apply list_elem_of_fmap. by exists (a, k', v).
  - destruct (locate_present k' T c l a2 k2 v2 r cx Hs Hloc) as [-> HnT].
    pose proof (locate_in _ _ _ _ _ _ _ _ _ Hloc) as Hin2.
    pose proof (sorted_keys_functional _ _ _ Hs Hin Hin2 eq_refl) as [= <- <-].
    by exists c, l, r, cx.
Qed.

(** The descent ends at a nil leaf when no node holds the key. *)
Lemma locate_none k (T : tree) :
  (∀ e, e ∈ nodes T → key_eq k (ekey e) = false) →
  ∃ cx, locate k T [] = (Leaf, cx).
Proof.
  intros Hno. destruct (locate k T []) as [[|c l a k' v r] cx] eqn:Hloc; [by exists cx|].
  pose proof (locate_key_eq _ _ _ _ _ _ _ _ _ _ Hloc) as Heq.
  pose proof (locate_in _ _ _ _ _ _ _ _ _ Hloc) as Hin.
  specialize (Hno _ Hin). simpl in Hno. unfold ekey in Hno. simpl in Hno. congruence.
Qed.

End Ordered.

Lemma InvT_count T (s : PooledMap) :
  InvT T s →
  (length (nodes T) + length (free_list (pool s)) ≤ max_segments * segment_capacity)%nat.
Proof.
  intros HI. pose proof (InvT_pool_aset _ _ HI) as Hp. destruct HI as (HA & _).
  apply pool_ok_count in Hp. rewrite length_nodes; [done|]. by destruct HA as (_ & _ & Hwf & _).
Qed.

(** ** Assignment through the returned reference *)

Lemma write_ref_step a w T (s : PooledMap) :
  InvT T s → a ∈ aset T →
  ∃ T' s' l1 k v l2,
    write_ref (Some a) w s = Ok (tt, s') ∧ InvT T' s' ∧
    pool s' = pool s ∧ size_ s' = size_ s ∧
    nodes T = l1 ++ (a, k, v) :: l2 ∧ nodes T' = l1 ++ (a, k, w) :: l2.
Proof.
  intros (HA & HRB & Hn & Hpool) Hin.
  destruct (aset_focus _ _ Hin) as (c & l & k & v & r & cx & ->).
  destruct (store_value_focus w _ _ _ _ _ _ _ _ _ _ HA) as (s' & Hs & HA').
  destruct (Abs_pool_size _ _ _ _ HA') as [Hp' Hn'].
  exists (plug (Br c l a k w r) cx), s', (cleft cx ++ nodes l), k, v, (nodes r ++ cright cx).
  split_and!; try done.
  - eapply InvT_intro; [exact HA'| | |].
    + apply RB_plug. by apply RB_plug in HRB.
    + rewrite Hn, !nodes_plug. simpl. by rewrite !length_app.
    + rewrite aset_plug. simpl. rewrite <- (aset_plug (Br c l a k v r)).
      by rewrite <- (Abs_dom _ _ _ _ HA).
  - rewrite nodes_plug. simpl. by rewrite <- !app_assoc.
  - rewrite nodes_plug. simpl. by rewrite <- !app_assoc.
Qed.

Section Bounded.
Hypothesis Hcap : Z.of_nat (max_segments * segment_capacity) < SIZE_MODULUS.

(** ** operator[] *)

Lemma upsert_step k T (s : PooledMap) :
  InvT T s →
  match locate k T [] with
  | (Br c l a k' v r, cx) => upsert k s = Ok (Some a, s)
  | (Leaf, cx) =>
    match pool_alloc (pool s) with
    | Ok (a, P') =>
      ∃ T' s', upsert k s = Ok (Some a, s') ∧ InvT T' s' ∧ pool s' = P' ∧
               nodes T' = cleft cx ++ (a, k, Value_default) :: cright cx ∧
               size_ s' = size_ s + 1
    | Fault f => upsert k s = Fault AllocFail
    end
  end.
Proof.
  intros HI. pose proof HI as (HA & HRB & Hn & Hpool).
  destruct (locate k T []) as [[|c l a k' v r] cx] eqn:Hloc.
  - destruct (pool_alloc (pool s)) as [[a P']|f] eqn:Hal.
    + destruct (pool_alloc_ok _ _ _ _ _ _ Hpool Hal) as [Hfresh Hpool'].
      pose proof (plug_locate k T []) as Hpl. rewrite Hloc in Hpl. simpl in Hpl.
      pose proof HRB as HRB'. rewrite <- Hpl in HRB'.
      apply RB_plug in HRB' as (Hroot & _ & Hcr & _ & Hcb). simpl in Hroot, Hcr, Hcb.
      destruct (ins_fix_ok cx Leaf a k Value_default Leaf) as (T' & Hfix & Hbal & Hrr);
        simpl; try done.
      destruct (upsert_absent_runs segment_capacity max_segments k T _ _ _ s a cx T' HA Hloc Hal Hfresh Hfix)
        as (p & s' & Hrun & -> & HA').
      pose proof (ins_fix_nodes _ _ _ Hfix) as Hnodes.
      rewrite nodes_plug in Hnodes. simpl in Hnodes.
      pose proof (locate_nodes k T) as HnT. rewrite Hloc in HnT. simpl in HnT.
      assert (length (nodes T') = S (length (nodes T))) as Hlen.
      { rewrite Hnodes, HnT, !length_app. simpl. lia. }
      assert (aset (blacken T') = {[a]} ∪ aset T) as Haset.
      { rewrite !aset_nodes, nodes_blacken, Hnodes, HnT, !fmap_app, fmap_cons, !list_to_set_app_L,
          list_to_set_cons. unfold eaddr at 2. simpl. set_solver. }
      assert (InvT (blacken T') s') as HI'.
      { eapply InvT_intro; [exact HA'|by apply RB_blacken| |].
        - rewrite nodes_blacken, Hlen, Hn.
          assert (pool_ok P' (aset (blacken T'))) as Hp2.
          { rewrite Haset. by rewrite (Abs_dom _ _ _ _ HA) in Hpool'. }
          apply pool_ok_count in Hp2. rewrite <- length_nodes in Hp2
            by by destruct HA' as (_ & _ & Hwf & _).
          rewrite nodes_blacken, Hlen in Hp2.
          rewrite Z.mod_small; [lia|]. unfold SIZE_MODULUS in *. lia.
        - rewrite Haset. by rewrite (Abs_dom _ _ _ _ HA) in Hpool'. }
      exists (blacken T'), s'. split_and!; try done.
      * by destruct (Abs_pool_size _ _ _ _ HA') as [-> _].
      * by rewrite nodes_blacken.
      * destruct HI' as (_ & _ & -> & _). rewrite nodes_blacken, Hlen, Hn. lia.
    + pose proof (pool_alloc_fault _ _ _ _ Hal) as ->.
      destruct (upsert_descend_runs k T [] (S (base.size (mem s))) _ _ s HA
                  (Abs_height_fuel _ _ _ _ HA)) as (res & s1 & Hd & -> & ->).
      rewrite Hloc in Hd. cbn [ctx_ptr fst snd] in Hd.
      unfold_upsert. unfold bind, get_fuel, get_root.
      destruct HA as (Hr & _). rewrite Hr, Hd. simpl.
      unfold create. by rewrite Hal.
  - destruct (upsert_present_runs segment_capacity max_segments k T _ _ s c l a k' v r cx HA Hloc)
      as (p & s' & Hrun & -> & ->). done.
Qed.

(** The steps of an inserting [operator[]] call, one by one. *)
Lemma upsert_absent_exec k T (s : PooledMap) cx a P' :
  InvT T s → locate k T [] = (Leaf, cx) → pool_alloc (pool s) = Ok (a, P') →
  let s1 := linked k a (ctx_ptr cx) P' s in
  upsert_descend (S (base.size (mem s))) k (root s) None s = Ok ((None, ctx_ptr cx), s) ∧
  ∃ s2, fix_insert (S (base.size (mem s1))) (Some a) s1 = Ok (tt, s2) ∧
        upsert k s = Ok (Some a, mkMap (mem s2) (pool s2) (root s2) (size_ s + 1)).
Proof.
  intros HI Hloc Hal s1. pose proof HI as (HA & HRB & Hn & Hpool).
  destruct (pool_alloc_ok _ _ _ _ _ _ Hpool Hal) as [Hfresh _].
  destruct (upsert_descend_runs k T [] (S (base.size (mem s))) _ _ s HA
              (Abs_height_fuel _ _ _ _ HA)) as (res & s0 & Hd & -> & ->).
  rewrite Hloc in Hd. cbn [ctx_ptr fst snd rootp] in Hd.
  assert (root s = rootp T) as Hr by by destruct HA.
  rewrite Hr. split; [done|].
  pose proof (upsert_step k T s HI) as Hup. rewrite Hloc, Hal in Hup.
  destruct Hup as (T' & s' & Hrun & HI' & Hp & Hnodes & Hsz).
  pose proof (plug_locate k T []) as Hpl. rewrite Hloc in Hpl. simpl in Hpl.
  pose proof HA as HA0. rewrite <- Hpl in HA0.
  assert (upsert k s =
          bind get_fuel (λ fuel, bind (fix_insert fuel (Some a)) (λ _,
          bind incr_size (λ _, ret (Some a)))) s1) as Hex.
  { unfold_upsert.
    rewrite (bind_eq get_fuel _ s _ s eq_refl).
    rewrite (bind_eq get_root _ s _ s eq_refl).
    rewrite Hr, (bind_eq _ _ s _ s Hd). cbn [is_null].
    by rewrite (link_exec k cx _ P' _ a s _ HA0 Hal Hfresh). }
  rewrite Hex in Hrun.
  apply bind_Ok in Hrun as (fuel & s1' & [= <- <-] & Hrun).
  apply bind_Ok in Hrun as ([] & s2 & Hfix & Hrun).
  apply bind_Ok in Hrun as ([] & s3 & [= <-] & [= <-]).
  exists s2. split; [done|]. rewrite Hex.
  rewrite (bind_eq get_fuel _ s1 _ s1 eq_refl), (bind_eq _ _ _ _ _ Hfix).
  unfold bind, incr_size, ret. simpl in Hsz. by rewrite Hsz.
Qed.

(** ** erase *)

Lemma erase_step k T (s : PooledMap) :
  InvT T s →
  match locate k T [] with
  | (Br c l z k' v r, cx) =>
    ∃ T' s', erase k s = Ok (1, s') ∧ InvT T' s' ∧ pool s' = pool_push z (pool s) ∧
             nodes T' = cleft cx ++ nodes l ++ nodes r ++ cright cx ∧
             size_ s' = size_ s - 1
  | (Leaf, cx) => erase k s = Ok (0, s)
  end.
Proof.
  intros HI. pose proof HI as (HA & HRB & Hn & Hpool).
  destruct (locate k T []) as [[|c l z k' v r] cx] eqn:Hloc.
  - destruct (erase_absent_runs k T _ _ s cx HA Hloc) as (res & s' & Hrun & -> & ->). done.
  - pose proof (plug_locate k T []) as Hpl. rewrite Hloc in Hpl. simpl in Hpl.
    pose proof HRB as HRB'. rewrite <- Hpl in HRB'.
    destruct (erase_at_ok _ _ _ _ _ _ _ HRB') as (T' & Her & HRBT').
    destruct (erase_present_runs k T _ _ s c l z k' v r cx T' HA Hloc Her)
      as (res & s' & Hrun & -> & HA').
    pose proof (erase_at_nodes _ _ _ _ _ _ _ _ Her) as Hnodes.
    pose proof (locate_nodes k T) as HnT. rewrite Hloc in HnT. simpl in HnT.
    rewrite <- app_assoc in HnT. simpl in HnT.
    pose proof (InvT_count _ _ HI) as Hcount.
    assert (length (nodes T) = S (length (nodes T'))) as Hlen.
    { rewrite Hnodes, HnT. repeat (rewrite ?length_app; simpl). lia. }
    assert (z ∈ aset T) as Hz.
    { apply elem_of_aset. exists k', v. rewrite HnT. set_solver. }
    assert (aset T' = aset T ∖ {[z]}) as Haset.
    { assert (z ∉ aset T') as Hz'.
      { destruct HA as (_ & _ & Hwf & _). apply wf_nodes_NoDup in Hwf.
        rewrite HnT in Hwf. rewrite app_assoc in Hwf.
        rewrite fmap_app, fmap_cons in Hwf. apply NoDup_app in Hwf as (_ & Hd1 & Hd2).
        apply NoDup_cons in Hd2 as [Hd2 _].
        rewrite aset_nodes, Hnodes, app_assoc, fmap_app, elem_of_list_to_set.
        intros [Hin|Hin]%elem_of_app; [|done].
        apply (Hd1 _ Hin). by left. }
      assert (aset T = {[z]} ∪ aset T') as ->; [|set_solver].
      rewrite !aset_nodes, Hnodes, HnT, !fmap_app, fmap_cons, !fmap_app, !list_to_set_app_L,
        list_to_set_cons, !list_to_set_app_L. unfold eaddr at 3. simpl. set_solver. }
    assert (InvT T' s') as HI'.
    { eapply InvT_intro; [exact HA'|done| |].
      - rewrite Hn, Hlen. rewrite Z.mod_small; [lia|]. unfold SIZE_MODULUS in *. lia.
      - rewrite Haset. apply pool_push_ok; [|done]. by rewrite <- (Abs_dom _ _ _ _ HA). }
    exists T', s'. split_and!; try done.
    + by destruct (Abs_pool_size _ _ _ _ HA') as [-> _].
    + destruct HI' as (_ & _ & -> & _). rewrite Hn, Hlen. lia.
Qed.

(** ** One client call *)

Lemma apply_op_step o T (s : PooledMap) :
  InvT T s →
  (∃ e s' T', apply_op o s = Ok (e, s') ∧ InvT T' s' ∧ rtc tree_step T T' ∧
              size_ s' = size_ s + delta e ∧ pool_step e (pool s) (pool s')) ∨
  (apply_op o s = Fault AllocFail ∧ pool_alloc (pool s) = Fault AllocFail ∧
   ∀ k, o ≠ OpErase k).
Proof.
  intros HI. pose proof HI as (HA & _).
  pose proof (upsert_step) as Hup. pose proof (erase_step) as Her.
  destruct o as [k|k w|k]; simpl; unfold bind.
  - rewrite (contains_eq k T _ _ s HA). specialize (Hup k T s HI).
    destruct (locate k T []) as [[|c l a k' v r] cx] eqn:Hloc; simpl.
    + destruct (pool_alloc (pool s)) as [[a P']|f] eqn:Hal.
      * destruct Hup as (T' & s' & -> & HI' & Hp & Hnodes & Hsz). left.
        exists (EvInserted k), s', T'. split_and!; try done.
        -- apply rtc_once. by eapply ts_insert.
        -- simpl. rewrite Hp. by exists a.
      * right. rewrite Hup. split_and!; [done|by rewrite (pool_alloc_fault _ _ _ _ Hal)|done].
    + rewrite Hup. left. exists (EvFound k), s, T. split_and!; try done. simpl. lia.
  - rewrite (contains_eq k T _ _ s HA). specialize (Hup k T s HI).
    destruct (locate k T []) as [[|c l a k' v r] cx] eqn:Hloc; simpl.
    + destruct (pool_alloc (pool s)) as [[a P']|f] eqn:Hal.
      * destruct Hup as (T' & s' & -> & HI' & Hp & Hnodes & Hsz).
        assert (a ∈ aset T') as Hin.
        { apply elem_of_aset. exists k, Value_default. rewrite Hnodes. set_solver. }
        destruct (write_ref_step a w T' s' HI' Hin)
          as (T'' & s'' & l1 & k1 & v1 & l2 & -> & HI'' & Hp'' & Hsz'' & Hn1 & Hn2).
        left. exists (EvInserted k), s'', T''. split_and!; try done.
        -- eapply rtc_l; [by eapply ts_insert|]. apply rtc_once. by eapply ts_assign.
        -- by rewrite Hsz''.
        -- simpl. rewrite Hp'', Hp. by exists a.
      * right. rewrite Hup. split_and!; [done|by rewrite (pool_alloc_fault _ _ _ _ Hal)|done].
    + rewrite Hup.
      assert (a ∈ aset T) as Hin.
      { apply elem_of_aset. exists k', v. by eapply locate_in. }
      destruct (write_ref_step a w T s HI Hin)
        as (T'' & s'' & l1 & k1 & v1 & l2 & -> & HI'' & Hp'' & Hsz'' & Hn1 & Hn2).
      left. exists (EvFound k), s'', T''. split_and!; try done.
      * apply rtc_once. by eapply ts_assign.
      * rewrite Hsz''. simpl. lia.
  - specialize (Her k T s HI).
    destruct (locate k T []) as [[|c l z k' v r] cx] eqn:Hloc.
    + rewrite Her. left. exists (EvErased k 0), s, T. split_and!; try done.
      * simpl. lia.
      * simpl. by left.
    + destruct Her as (T' & s' & -> & HI' & Hp & Hnodes & Hsz). left.
      exists (EvErased k 1), s', T'. split_and!; try done.
      * apply rtc_once. by eapply ts_erase.
      * simpl. right. split; [done|]. by exists z.
Qed.

(** ** Programs *)

Lemma run_step ops : ∀ T (s : PooledMap) log s',
  InvT T s → run ops s = Ok (log, s') →
  ∃ T', InvT T' s' ∧ rtc tree_step T T' ∧ size_ s' = size_ s + total_delta log.
Proof.
  induction ops as [|o ops IH]; intros T s log s' HI; simpl.
  - intros [= <- <-]. exists T. split_and!; [done..|simpl; lia].
  - intros (e & s1 & He & (es & s2 & Hes & [= <- <-])%bind_Ok)%bind_Ok.
    destruct (apply_op_step o T s HI) as [(e' & s1' & T1 & He' & HI1 & Hst & Hsz & _)|[Hf _]];
      [|congruence].
    rewrite He in He'. injection He' as <- <-.
    destruct (IH T1 s1 es s2 HI1 Hes) as (T' & HI' & Hst' & Hsz').
    exists T'. split_and!; [done|by etrans|simpl; lia].
Qed.

Lemma reachable_Inv (s : PooledMap) :
  reachable s → ∃ T, InvT T s ∧ rtc tree_step Leaf T.
Proof.
  intros (ops & log & Hrun).
  destruct (run_step ops Leaf empty_map log s InvT_empty Hrun) as (T & HI & Hst & _).
  by exists T.
Qed.

(** A program stops early only when the pool has no slot left. *)
Lemma run_fault ops : ∀ T (s : PooledMap) f,
  InvT T s → run ops s = Fault f → f = AllocFail.
Proof.
  induction ops as [|o ops IH]; intros T s f HI; simpl; [done|].
  intros [Hf|(e & s1 & He & Hf)]%bind_Fault.
  - destruct (apply_op_step o T s HI) as [(e' & s1' & T1 & He' & _)|[Hf' _]]; congruence.
  - destruct (apply_op_step o T s HI) as [(e' & s1' & T1 & He' & HI1 & _)|[Hf' _]];
      [|congruence].
    rewrite He in He'. injection He' as <- <-.
    apply bind_Fault in Hf as [Hf|(es & s2 & _ & [=])]. by eapply IH.
Qed.

(** ** Slot reuse *)

(** A program with no more inserting calls than the free list has slots
    runs to its end without touching the segments. *)
Lemma run_reuse ops : ∀ T (s : PooledMap),
  InvT T s → (upsert_calls ops ≤ length (free_list (pool s)))%nat →
  ∃ log s' T', run ops s = Ok (log, s') ∧ InvT T' s' ∧
    segments (pool s') = segments (pool s) ∧ bump (pool s') = bump (pool s) ∧
    Z.of_nat (length (free_list (pool s'))) =
      Z.of_nat (length (free_list (pool s))) - insertions log + successful_erases log.
Proof.
  induction ops as [|o ops IH]; intros T s HI Hlen.
  - exists [], s, T. simpl. split_and!; try done. lia.
  - assert (∃ e s1 T1, apply_op o s = Ok (e, s1) ∧ InvT T1 s1 ∧
              segments (pool s1) = segments (pool s) ∧ bump (pool s1) = bump (pool s) ∧
              Z.of_nat (length (free_list (pool s1))) =
                Z.of_nat (length (free_list (pool s))) - insertions [e] + successful_erases [e] ∧
              (upsert_calls ops ≤ length (free_list (pool s1)))%nat)
      as (e & s1 & T1 & He & HI1 & Hsg & Hbp & Hfl & Hlen1).
    { destruct (apply_op_step o T s HI) as [(e & s1 & T1 & He & HI1 & _ & _ & Hps)|(_ & Hf & Hne)].
      - exists e, s1, T1. pose proof (apply_op_event _ _ _ _ He) as Hev.
        destruct o as [k|k w|k]; simpl in Hlen.
        + destruct Hev as [->| ->]; simpl in Hps.
          * rewrite Hps. split_and!; try done; simpl; lia.
          * destruct Hps as [a Hal]. destruct (free_list (pool s)) as [|x fl] eqn:Hfl;
              [simpl in Hlen; lia|].
            rewrite (pool_alloc_free_list _ _ _ _ _ Hfl) in Hal. injection Hal as _ <-.
            simpl in *. split_and!; try done; lia.
        + destruct Hev as [->| ->]; simpl in Hps.
          * rewrite Hps. split_and!; try done; simpl; lia.
          * destruct Hps as [a Hal]. destruct (free_list (pool s)) as [|x fl] eqn:Hfl;
              [simpl in Hlen; lia|].
            rewrite (pool_alloc_free_list _ _ _ _ _ Hfl) in Hal. injection Hal as _ <-.
            simpl in *. split_and!; try done; lia.
        + destruct Hev as [c ->]. simpl in Hps.
          destruct Hps as [[-> ->]|[-> [z ->]]]; simpl; split_and!; try done; lia.
      - destruct o as [k|k w|k]; simpl in Hlen; [| |by destruct (Hne k)];
          (destruct (free_list (pool s)) as [|x fl] eqn:Hfl; [simpl in Hlen; lia|]);
          by rewrite (pool_alloc_free_list _ _ _ _ _ Hfl) in Hf. }
    destruct (IH T1 s1 HI1 Hlen1) as (log & s' & T' & Hrun & HI' & Hsg' & Hbp' & Hfl').
    exists (e :: log), s', T'. simpl.
    rewrite (bind_eq _ _ _ _ _ He), (bind_eq _ _ _ _ _ Hrun).
    split_and!; [done|done|congruence|congruence|].
    rewrite Hfl', Hfl. destruct e; simpl; lia.
Qed.

(** ** Reachable states *)

Section OrderedRuns.
Context `{KL : !KeyOrderLaws Key}.

Lemma reachable_InvS (s : PooledMap) : reachable s → ∃ T, InvS T s.
Proof.
  intros (T & HI & Hst)%reachable_Inv. exists T. split; [done|].
  eapply rtc_tree_step_sorted; [|done]. apply sorted_keys_nil.
Qed.

Lemma run_InvS ops T (s : PooledMap) log s' :
  InvS T s → run ops s = Ok (log, s') → ∃ T', InvS T' s'.
Proof.
  intros [HI Hs] Hrun. destruct (run_step ops T s log s' HI Hrun) as (T' & HI' & Hst & _).
  exists T'. split; [done|]. by eapply rtc_tree_step_sorted.
Qed.

End OrderedRuns.

End Bounded.

End Layer4.

Section Claims.
Context {Key Value : Type} `{KO : KeyOrder Key} `{VD : Inhabited Value}.
Variable segment_capacity max_segments : nat.
Hypothesis Hcap : Z.of_nat (max_segments * segment_capacity) < SIZE_MODULUS.

Abbreviation Node := (@Node Key Value).
Abbreviation PooledMap := (@PooledMap Key Value).
Abbreviation tree := (@tree Key Value).
Abbreviation ctx := (@ctx Key Value).
Abbreviation op := (@op Key Value).
Abbreviation M := (@M Key Value).
Abbreviation event := (@event Key).
Abbreviation upsert := (upsert segment_capacity max_segments).
Abbreviation pool_alloc := (pool_alloc segment_capacity max_segments).
Abbreviation run := (run segment_capacity max_segments).
Abbreviation reachable := (reachable segment_capacity max_segments).
Abbreviation InvT := (InvT segment_capacity max_segments).
Abbreviation InvS := (InvS segment_capacity max_segments).

Lemma run_Inv ops log (s : PooledMap) :
  run ops empty_map = Ok (log, s) → ∃ T, InvT T s.
Proof.
  intros Hrun.
  destruct (reachable_Inv segment_capacity max_segments Hcap s) as (T & HI & _); [by exists ops, log|].
  by exists T.
Qed.

(** C1. After every sequence of [operator[]] and [erase] calls on an
    empty map, the tree is a red-black tree: every RED node has a BLACK
    parent, every path from the root down to a nil leaf passes through
    the same number of BLACK nodes, and the root is BLACK or the tree is
    empty.  A sequence stops early only on a failed allocation. *)
Theorem C1_red_black_invariants (ops : list op) :
  (∀ f, run ops empty_map = Fault f → f = AllocFail) ∧
  ∀ log (s : PooledMap), run ops empty_map = Ok (log, s) →
    (∀ a nd, mem s !! a = Some nd → color nd = RED →
       ∃ p pn, parent nd = Some p ∧ mem s !! p = Some pn ∧ color pn = BLACK) ∧
    (∃ N, path_blacks (mem s) (root s) N ∧
          ∀ n, path_blacks (mem s) (root s) n → n = N) ∧
    (root s = None ∨
     ∃ r nd, root s = Some r ∧ mem s !! r = Some nd ∧ color nd = BLACK).
Proof.
  split.
  - intros f Hf.
    exact (run_fault segment_capacity max_segments Hcap ops Leaf empty_map f
             (InvT_empty _ _) Hf).
  - intros log s Hrun. destruct (run_Inv _ _ _ Hrun) as (T & HA & HRB & _).
    split_and!.
    + intros a nd Ha Hred. by eapply Abs_red_parent.
    + pose proof HA as (Hroot & Hrep & _). destruct HRB as (_ & _ & Hbal).
      exists (bh T). rewrite Hroot. split.
      * by eapply rep_path_exists.
      * intros n Hp. by eapply rep_path_blacks.
    + by eapply Abs_root_black.
Qed.

(** C6. The size is the number of [operator[]] calls that inserted their
    key minus the number of successful erases, and it is the number of
    entries [for_each] enumerates. *)
Theorem C6_size (ops : list op) log (s : PooledMap) :
  run ops empty_map = Ok (log, s) →
  size s = Ok (insertions log - successful_erases log, s) ∧
  ∃ l, for_each record_call [] s = Ok (l, s) ∧
       Z.of_nat (length l) = insertions log - successful_erases log.
Proof.
  intros Hrun.
  destruct (run_step segment_capacity max_segments Hcap ops Leaf empty_map log s
              (InvT_empty _ _) Hrun) as (T & (HA & _ & Hn & _) & _ & Hsz).
  simpl in Hsz. rewrite total_delta_split in Hsz.
  split.
  - unfold size. by rewrite Hsz.
  - exists (inorder T). split; [by eapply for_each_record_eq|].
    unfold inorder. rewrite length_fmap, <- Hn, Hsz. lia.
Qed.

Lemma rep_heap_postorder (h : gmap addr Node) (t : tree) : ∀ par fuel,
  rep h par t → (height t < fuel)%nat → heap_postorder fuel h (rootp t) = postorder t.
Proof.
  induction t as [|c l IHl a k v r IHr]; intros par fuel; simpl.
  - by destruct fuel.
  - intros (Ha & Hl & Hr) Hfuel. destruct fuel as [|fuel]; [lia|]. simpl.
    rewrite Ha. simpl. rewrite (IHl (Some a)), (IHr (Some a)); [done|done|lia|done|lia].
Qed.

Lemma elem_of_postorder (t : tree) a : a ∈ postorder t ↔ a ∈ aset t.
Proof. induction t as [|c l IHl a' k v r IHr]; simpl; set_solver. Qed.

Lemma NoDup_postorder (t : tree) : wf t → NoDup (postorder t).
Proof.
  induction t as [|c l IHl a k v r IHr]; simpl; [constructor|].
  intros (Hal & Har & Hlr & Hwl & Hwr).
  apply NoDup_app. split_and!; [by apply IHl| |].
  - intros x Hx%elem_of_postorder [Hx'%elem_of_postorder|Hx'%list_elem_of_singleton]%elem_of_app.
    + by apply (Hlr x).
    + by subst.
  - apply NoDup_app. split_and!; [by apply IHr| |apply NoDup_singleton].
    intros x Hx%elem_of_postorder ->%list_elem_of_singleton. done.
Qed.

(** C8. The destructor's [clear] walks the tree post-order and recycles
    every node, each once, onto the pool's free list; it leaves the root
    pointer and the count as they were. *)
Theorem C8_clear (ops : list op) log (s : PooledMap) :
  run ops empty_map = Ok (log, s) →
  let walk := heap_postorder (S (base.size (mem s))) (mem s) (root s) in
  ∃ s', destroy s = Ok (tt, s') ∧
        mem s' = ∅ ∧
        free_list (pool s') = reverse walk ++ free_list (pool s) ∧
        NoDup walk ∧ (∀ a, a ∈ walk ↔ is_Some (mem s !! a)) ∧
        root s' = root s ∧ size_ s' = size_ s.
Proof.
  intros Hrun walk. destruct (run_Inv _ _ _ Hrun) as (T & HA & _).
  destruct (destroy_runs T _ _ s HA) as ([] & s' & Hd & Hmem & Hpool & Hroot & Hsz).
  pose proof HA as (Hr & Hrep & Hwf & _).
  assert (walk = postorder T) as ->.
  { unfold walk. rewrite Hr. eapply rep_heap_postorder; [done|].
    by eapply Abs_height_fuel. }
  exists s'. split_and!; try done.
  - apply map_eq. intros a. rewrite Hmem, lookup_empty. case_decide; [done|].
    apply not_elem_of_dom. by rewrite (Abs_dom _ _ _ _ HA).
  - by rewrite Hpool.
  - by apply NoDup_postorder.
  - intros a. by rewrite elem_of_postorder, <- (Abs_dom _ _ _ _ HA), elem_of_dom.
Qed.

(** A null sibling makes the loop body of [fix_erase] read through a
    null pointer. *)
Lemma get_Ok {A} (f : Node → A) p (s0 : PooledMap) a s1 :
  get f p s0 = Ok (a, s1) → s1 = s0.
Proof. unfold get. repeat case_match; congruence. Qed.

Lemma fix_erase_null_sibling fuel x x_parent (s0 : PooledMap) :
  fix_erase_continue x s0 = Ok (true, s0) →
  sibling x x_parent s0 = Ok (None, s0) →
  fix_erase_loop (S fuel) x x_parent s0 = Fault NullDeref.
Proof.
  unfold fix_erase_continue, sibling. intros Hc Hs.
  rewrite (bind_eq get_root _ s0 (root s0) s0 eq_refl) in Hc.
  apply bind_Ok in Hs as (xpl & s1 & Hxpl & Hw).
  pose proof (get_Ok _ _ _ _ _ Hxpl) as ->.
  cbn [fix_erase_loop].
  rewrite (bind_eq get_root _ s0 (root s0) s0 eq_refl).
  rewrite (bind_eq _ _ s0 true s0 Hc). cbn iota.
  rewrite (bind_eq _ _ _ _ _ Hxpl).
  destruct (ptr_eq x xpl); by rewrite (bind_eq _ _ _ _ _ Hw).
Qed.

(** C9. [erase] never reads through a null pointer in a state reached
    from the empty map; a null sibling [w] in the loop body of
    [fix_erase] would make it do so. *)
Theorem C9_fix_erase_sibling (ops : list op) log (s : PooledMap) (k : Key) :
  run ops empty_map = Ok (log, s) →
  (∃ count s', erase k s = Ok (count, s')) ∧
  ∀ fuel x x_parent (s0 : PooledMap),
    fix_erase_continue x s0 = Ok (true, s0) →
    sibling x x_parent s0 = Ok (None, s0) →
    fix_erase_loop (S fuel) x x_parent s0 = Fault NullDeref.
Proof.
  intros Hrun. split; [|apply fix_erase_null_sibling].
  destruct (run_Inv _ _ _ Hrun) as (T & HI).
  pose proof (erase_step segment_capacity max_segments Hcap k T s HI) as Her.
  destruct (locate k T []) as [[|c l z k' v r] cx]; [by exists 0, s|].
  destruct Her as (T' & s' & Her & _). by exists 1, s'.
Qed.

Lemma upsert_calls_erases (es : list Key) :
  upsert_calls (erase_all es : list op) = 0%nat.
Proof. unfold erase_all. by induction es. Qed.

Lemma upsert_calls_upserts (us : list Key) :
  upsert_calls (upsert_all us : list op) = length us.
Proof. unfold upsert_all. induction us as [|k us IH]; simpl; [done|]. f_equal. exact IH. Qed.

Lemma erases_log (es : list Key) : ∀ (s : PooledMap) log s',
  run (erase_all es) s = Ok (log, s') → insertions log = 0.
Proof.
  unfold erase_all. induction es as [|k es IH]; intros s log s'; simpl; [by intros [= <- _]|].
  intros (e & s1 & He & (log' & s2 & Hrun & [= <- _])%bind_Ok)%bind_Ok.
  apply (apply_op_event segment_capacity max_segments (OpErase k)) in He as [c ->].
  simpl. by eapply IH.
Qed.

Lemma upserts_log (us : list Key) : ∀ (s : PooledMap) log s',
  run (upsert_all us) s = Ok (log, s') → successful_erases log = 0.
Proof.
  unfold upsert_all. induction us as [|k us IH]; intros s log s'; simpl; [by intros [= <- _]|].
  intros (e & s1 & He & (log' & s2 & Hrun & [= <- _])%bind_Ok)%bind_Ok.
  apply (apply_op_event segment_capacity max_segments (OpUpsert k)) in He as [->| ->];
    simpl; by eapply IH.
Qed.

(** C10. A node is created in a slot popped from the free list when
    there is one, else in the next slot of the current segment when it
    has one, and only else in a new segment.  After some erases, a run
    of at most as many [operator[]] calls as erases succeeded allocates
    no segment: the segment count and the bump index stay as they were. *)
Theorem C10_pool_reuse (ops : list op) log (s : PooledMap) (es us : list Key) :
  run ops empty_map = Ok (log, s) →
  (∀ P a fl, free_list P = a :: fl →
     pool_alloc P = Ok (a, mkPool fl (segments P) (bump P))) ∧
  (∀ P, free_list P = [] → (0 < segments P)%nat → (bump P < segment_capacity)%nat →
     pool_alloc P = Ok (((segments P - 1) * segment_capacity + bump P)%nat,
                        mkPool [] (segments P) (S (bump P)))) ∧
  (∀ P, free_list P = [] → (segments P = 0 ∨ segment_capacity ≤ bump P)%nat →
     (segments P < max_segments)%nat → (0 < segment_capacity)%nat →
     pool_alloc P = Ok ((segments P * segment_capacity)%nat, mkPool [] (S (segments P)) 1)) ∧
  ∃ log1 s1,
    run (erase_all es) s = Ok (log1, s1) ∧
    segments (pool s1) = segments (pool s) ∧ bump (pool s1) = bump (pool s) ∧
    Z.of_nat (length (free_list (pool s1))) =
      Z.of_nat (length (free_list (pool s))) + successful_erases log1 ∧
    (Z.of_nat (length us) ≤ successful_erases log1 →
     ∃ log2 s2,
       run (upsert_all us) s1 = Ok (log2, s2) ∧
       segments (pool s2) = segments (pool s) ∧ bump (pool s2) = bump (pool s) ∧
       Z.of_nat (length (free_list (pool s2))) =
         Z.of_nat (length (free_list (pool s1))) - insertions log2).
Proof.
  intros Hrun. split_and!.
  - intros P a fl Hfl. unfold_pool_alloc. by rewrite Hfl.
  - intros P Hfl Hsg Hbp. unfold_pool_alloc. rewrite Hfl.
    apply Nat.ltb_lt in Hsg, Hbp. by rewrite Hsg, Hbp.
  - intros P Hfl Hfull Hsg Hcp. unfold_pool_alloc. rewrite Hfl.
    apply Nat.ltb_lt in Hsg, Hcp. rewrite Hsg, Hcp. simpl.
    destruct Hfull as [->|Hfull]; [done|].
    apply Nat.ltb_ge in Hfull. rewrite Hfull. by rewrite andb_false_r.
  - destruct (run_Inv _ _ _ Hrun) as (T & HI).
    destruct (run_reuse segment_capacity max_segments Hcap (erase_all es) T s HI)
      as (log1 & s1 & T1 & Hrun1 & HI1 & Hsg1 & Hbp1 & Hfl1).
    { rewrite upsert_calls_erases. lia. }
    rewrite (erases_log _ _ _ _ Hrun1) in Hfl1.
    exists log1, s1. split_and!; [done..|lia|].
    intros Hlen.
    destruct (run_reuse segment_capacity max_segments Hcap (upsert_all us) T1 s1 HI1)
      as (log2 & s2 & T2 & Hrun2 & HI2 & Hsg2 & Hbp2 & Hfl2).
    { rewrite upsert_calls_upserts. lia. }
    rewrite (upserts_log _ _ _ _ Hrun2) in Hfl2.
    exists log2, s2. split_and!; [done|congruence|congruence|lia].
Qed.

Section OrderedClaims.
Context `{KL : !KeyOrderLaws Key}.

Lemma run_InvS0 ops log (s : PooledMap) :
  run ops empty_map = Ok (log, s) → ∃ T, InvS T s.
Proof.
  intros Hrun. apply (reachable_InvS segment_capacity max_segments Hcap). by exists ops, log.
Qed.

(** C2. In every state reached from the empty map, [for_each] calls the
    visitor once per stored entry, and the keys it passes are strictly
    increasing. *)
Theorem C2_for_each_increasing (ops : list op) log (s : PooledMap) :
  run ops empty_map = Ok (log, s) →
  ∃ l, for_each record_call [] s = Ok (l, s) ∧
       StronglySorted klt (l.*1) ∧
       length l = base.size (mem s) ∧
       (∀ k v, (k, v) ∈ l ↔
               ∃ a nd, mem s !! a = Some nd ∧ key nd = k ∧ value nd = v) ∧
       ∀ A (f : Key → Value → A → Value * A) acc,
         ∃ s', for_each f acc s = Ok (visit_all f acc l, s').
Proof.
  intros Hrun. destruct (run_InvS0 _ _ _ Hrun) as (T & (HA & HRB & Hn & Hp) & Hs).
  exists (inorder T). split_and!.
  - by eapply for_each_record_eq.
  - unfold inorder. rewrite <- list_fmap_compose. exact Hs.
  - unfold inorder. rewrite length_fmap, length_nodes by by destruct HA as (_ & _ & Hwf & _).
    by rewrite <- (Abs_dom _ _ _ _ HA), size_dom.
  - intros k v. unfold inorder. rewrite list_elem_of_fmap. split.
    + intros ([[a k'] v'] & [= -> ->] & Hin).
      destruct (Abs_nodes _ _ _ _ _ _ _ HA Hin) as (nd & Ha & Hk & Hv). by exists a, nd.
    + intros (a & nd & Ha & <- & <-). exists (a, key nd, value nd). split; [done|].
      by eapply Abs_lookup.
  - intros A f acc. by eapply for_each_eq.
Qed.

Lemma present_locate k T (s : PooledMap) a nd :
  InvS T s → mem s !! a = Some nd → key_eq k (key nd) = true →
  ∃ c l r cx, locate k T [] = (Br c l a (key nd) (value nd) r, cx).
Proof.
  intros [(HA & _) Hs] Ha Heq. apply locate_node; [done| |done]. by eapply Abs_lookup.
Qed.

Lemma absent_locate k T (s : PooledMap) :
  InvT T s → (∀ a nd, mem s !! a = Some nd → key_eq k (key nd) = false) →
  ∃ cx, locate k T [] = (Leaf, cx).
Proof.
  intros (HA & _) Hno. apply locate_none. intros [[a k'] v] Hin.
  destruct (Abs_nodes _ _ _ _ _ _ _ HA Hin) as (nd & Ha & <- & _). by eapply Hno.
Qed.

(** C3. [operator[]] on a key that a node holds returns that node and
    changes nothing: no allocation, the same tree, the same size.  On a
    key that no node holds it takes a slot from the pool, makes it a RED
    node with the key and a default value below the last node of the
    descent (the root of an empty tree), runs [fix_insert], adds one to
    the size and returns the new node, whose value is the default. *)
Theorem C3_upsert (ops : list op) log (s : PooledMap) (k : Key) :
  run ops empty_map = Ok (log, s) →
  (∀ a nd, mem s !! a = Some nd → key_eq k (key nd) = true →
     upsert k s = Ok (Some a, s) ∧ read_ref (Some a) s = Ok (value nd, s)) ∧
  ((∀ a nd, mem s !! a = Some nd → key_eq k (key nd) = false) →
   match pool_alloc (pool s) with
   | Fault _ => upsert k s = Fault AllocFail
   | Ok (a, P') =>
     ∃ par s2,
       mem s !! a = None ∧
       upsert_descend (S (base.size (mem s))) k (root s) None s = Ok ((None, par), s) ∧
       (root s = None → par = None) ∧
       let s1 := linked k a par P' s in
       let s' := mkMap (mem s2) (pool s2) (root s2) (size_ s + 1) in
       fix_insert (S (base.size (mem s1))) (Some a) s1 = Ok (tt, s2) ∧
       upsert k s = Ok (Some a, s') ∧
       read_ref (Some a) s' = Ok (Value_default, s')
   end).
Proof.
  intros Hrun. destruct (run_InvS0 _ _ _ Hrun) as (T & HIS). pose proof HIS as [HI Hs].
  split.
  - intros a nd Ha Heq. destruct (present_locate k T s a nd HIS Ha Heq) as (c & l & r & cx & Hloc).
    pose proof (upsert_step segment_capacity max_segments Hcap k T s HI) as Hup.
    rewrite Hloc in Hup. split; [done|]. unfold read_ref, get. by rewrite Ha.
  - intros Hno. destruct (absent_locate k T s HI Hno) as (cx & Hloc).
    pose proof (upsert_step segment_capacity max_segments Hcap k T s HI) as Hup.
    rewrite Hloc in Hup.
    destruct (pool_alloc (pool s)) as [[a P']|f] eqn:Hal; [|done].
    destruct Hup as (T' & s' & Hrun' & HI' & Hp & Hnodes & Hsz).
    destruct (upsert_absent_exec segment_capacity max_segments Hcap k T s cx a P' HI Hloc Hal)
      as (Hd & s2 & Hfix & Hex).
    exists (ctx_ptr cx), s2. split_and!; try done.
    + destruct HI as (HA & _ & _ & Hpool).
      destruct (pool_alloc_ok _ _ _ _ _ _ Hpool Hal) as [Hfresh _].
      by apply not_elem_of_dom.
    + intros Hr. destruct HI as ((Hroot & _) & _). rewrite Hr in Hroot.
      destruct T as [|? ? ? ? ? ?]; [|done]. simpl in Hloc. by injection Hloc as <-.
    + rewrite Hex in Hrun'. injection Hrun' as <-.
      destruct HI' as (HA' & _).
      destruct (Abs_nodes _ _ _ _ a k Value_default HA') as (nd & Ha & _ & Hv).
      { rewrite Hnodes. set_solver. }
      unfold read_ref, get. simpl in Ha |- *. by rewrite Ha, Hv.
Qed.

Lemma erased_absent k (T T' : tree) c l z k' v r cx :
  sorted_keys (nodes T) → locate k T [] = (Br c l z k' v r, cx) →
  nodes T' = cleft cx ++ nodes l ++ nodes r ++ cright cx →
  sorted_keys (nodes T') →
  ∃ cx', locate k T' [] = (Leaf, cx').
Proof.
  intros Hs Hloc Hn Hs'.
  destruct (locate k T' []) as [[|c2 l2 a2 k2 v2 r2] cx2] eqn:Hloc2; [by exists cx2|].
  destruct (locate_present k T' _ _ _ _ _ _ _ Hs' Hloc2) as [-> _].
  pose proof (locate_in _ _ _ _ _ _ _ _ _ Hloc2) as Hin.
  destruct (locate_present k T _ _ _ _ _ _ _ Hs Hloc) as [-> HnT].
  apply sorted_keys_NoDup in Hs. rewrite HnT, app_assoc, fmap_app, fmap_cons in Hs.
  apply NoDup_app in Hs as (_ & Hd1 & Hd2). apply NoDup_cons in Hd2 as [Hd2 _].
  rewrite Hn, app_assoc in Hin. apply elem_of_app in Hin as [Hin|Hin].
  - destruct (Hd1 k); [|by left]. apply list_elem_of_fmap. by exists (a2, k, v2).
  - destruct Hd2. apply list_elem_of_fmap. by exists (a2, k, v2).
Qed.

(** C4. [erase] of a key the map contains returns 1, removes that one
    entry and no other, takes one off the size and leaves a map that
    does not contain the key; [erase] of a key the map does not contain
    returns 0 and leaves the state as it was. *)
Theorem C4_erase (ops : list op) log (s : PooledMap) (k : Key) :
  run ops empty_map = Ok (log, s) →
  (∃ b, contains k s = Ok (b, s)) ∧
  (contains k s = Ok (true, s) →
     ∃ s' l1 v l2,
       erase k s = Ok (1, s') ∧
       size s' = Ok (size_ s - 1, s') ∧
       contains k s' = Ok (false, s') ∧
       for_each record_call [] s = Ok (l1 ++ (k, v) :: l2, s) ∧
       for_each record_call [] s' = Ok (l1 ++ l2, s')) ∧
  (contains k s = Ok (false, s) → erase k s = Ok (0, s)).
Proof.
  intros Hrun. destruct (run_InvS0 _ _ _ Hrun) as (T & HIS). pose proof HIS as [HI Hs].
  pose proof HI as (HA & _).
  pose proof (erase_step segment_capacity max_segments Hcap k T s HI) as Her.
  rewrite (contains_eq k T _ _ s HA).
  destruct (locate k T []) as [[|c l z k' v r] cx] eqn:Hloc; simpl.
  - split_and!; [by exists false|done|done].
  - split_and!; [by exists true| |done]. intros _.
    destruct Her as (T' & s' & Hrun' & HI' & Hp & Hnodes & Hsz).
    destruct (locate_present k T _ _ _ _ _ _ _ Hs Hloc) as [-> HnT].
    assert (sorted_keys (nodes T')) as Hs'.
    { eapply tree_step_sorted; [exact Hs|]. by eapply ts_erase. }
    destruct (erased_absent k T T' _ _ _ _ _ _ _ Hs Hloc Hnodes Hs') as (cx' & Hloc').
    pose proof HI' as (HA' & _).
    exists s', (entry_of <$> (cleft cx ++ nodes l)), v, (entry_of <$> (nodes r ++ cright cx)).
    split_and!.
    + done.
    + unfold size. by rewrite Hsz.
    + rewrite (contains_eq k T' _ _ s' HA'). by rewrite Hloc'.
    + rewrite (for_each_record_eq T _ _ s HA). unfold inorder. rewrite HnT.
      by rewrite app_assoc, fmap_app, fmap_cons.
    + rewrite (for_each_record_eq T' _ _ s' HA'). unfold inorder. rewrite Hnodes.
      by rewrite app_assoc, fmap_app.
Qed.

Lemma exposed_value T (s : PooledMap) a k v :
  InvS T s → (a, k, v) ∈ nodes T →
  read_ref (Some a) s = Ok (v, s) ∧ find k s = Ok (v, s) ∧
  ∀ w, ∃ s', write_ref (Some a) w s = Ok (tt, s') ∧ find k s' = Ok (w, s').
Proof.
  intros [HI Hs] Hin. pose proof HI as (HA & _).
  assert (key_eq k k = true) as Hkk by by apply key_eq_spec.
  split_and!.
  - destruct (Abs_nodes _ _ _ _ _ _ _ HA Hin) as (nd & Ha & _ & <-).
    unfold read_ref, get. by rewrite Ha.
  - destruct (locate_node k T a k v Hs Hin Hkk) as (c & l & r & cx & Hloc).
    rewrite (find_eq k T _ _ s HA). by rewrite Hloc.
  - intros w.
    assert (a ∈ aset T) as Ha by (apply elem_of_aset; eauto).
    destruct (write_ref_step segment_capacity max_segments a w T s HI Ha)
      as (T' & s' & l1 & k1 & v1 & l2 & Hw & HI' & _ & _ & Hn & Hn').
    exists s'. split; [done|].
    assert (k1 = k) as ->.
    { destruct (Abs_nodes _ _ _ _ _ _ _ HA Hin) as (nd & Hnd & <- & _).
      destruct (Abs_nodes _ _ _ _ a k1 v1 HA) as (nd' & Hnd' & <- & _); [rewrite Hn; set_solver|].
      congruence. }
    assert (sorted_keys (nodes T')) as Hs'.
    { eapply tree_step_sorted; [exact Hs|]. by eapply ts_assign. }
    destruct (locate_node k T' a k w Hs') as (c & l & r & cx & Hloc); [rewrite Hn'; set_solver|done|].
    destruct HI' as (HA' & _). rewrite (find_eq k T' _ _ s' HA'). by rewrite Hloc.
Qed.

(** C5. [find] right after [operator[]] on the same key returns the
    value the call exposed: the default value when the key was inserted,
    the value stored before when it was there already, and what was
    written through the returned reference if something was. *)
Theorem C5_upsert_then_find (ops : list op) log (s : PooledMap) (k : Key) p s' :
  run ops empty_map = Ok (log, s) →
  upsert k s = Ok (p, s') →
  ∃ v, read_ref p s' = Ok (v, s') ∧ find k s' = Ok (v, s') ∧
       (contains k s = Ok (false, s) → v = Value_default) ∧
       (contains k s = Ok (true, s) → find k s = Ok (v, s)) ∧
       ∀ w, ∃ s'', write_ref p w s' = Ok (tt, s'') ∧ find k s'' = Ok (w, s'').
Proof.
  intros Hrun Hup. destruct (run_InvS0 _ _ _ Hrun) as (T & HIS). pose proof HIS as [HI Hs].
  pose proof HI as (HA & _).
  pose proof (upsert_step segment_capacity max_segments Hcap k T s HI) as Hstep.
  rewrite (contains_eq k T _ _ s HA).
  destruct (locate k T []) as [[|c l a k' v r] cx] eqn:Hloc; simpl.
  - destruct (pool_alloc (pool s)) as [[a P']|f] eqn:Hal; [|congruence].
    destruct Hstep as (T' & s1 & Hup' & HI' & _ & Hnodes & _).
    rewrite Hup in Hup'. injection Hup' as -> ->.
    assert (sorted_keys (nodes T')) as Hs'.
    { eapply tree_step_sorted; [exact Hs|]. by eapply ts_insert. }
    destruct (exposed_value T' s1 a k Value_default) as (Hr & Hf & Hw);
      [done|rewrite Hnodes; set_solver|].
    exists Value_default. split_and!; done.
  - rewrite Hup in Hstep. injection Hstep as -> ->.
    destruct (locate_present k T _ _ _ _ _ _ _ Hs Hloc) as [-> _].
    destruct (exposed_value T s a k v HIS) as (Hr & Hf & Hw);
      [by eapply locate_in|].
    exists v. split_and!; done.
Qed.

(** C7. [find] returns the stored value of the node that holds the key,
    and a default-constructed value when no node holds it; a stored
    default value gives the same result as an absent key. *)
Theorem C7_find (ops : list op) log (s : PooledMap) (k : Key) :
  run ops empty_map = Ok (log, s) →
  (∀ a nd, mem s !! a = Some nd → key_eq k (key nd) = true →
     find k s = Ok (value nd, s)) ∧
  ((∀ a nd, mem s !! a = Some nd → key_eq k (key nd) = false) →
     find k s = Ok (Value_default, s)) ∧
  (∀ a nd ops0 log0 (s0 : PooledMap),
     mem s !! a = Some nd → key_eq k (key nd) = true → value nd = Value_default →
     run ops0 empty_map = Ok (log0, s0) →
     (∀ a0 nd0, mem s0 !! a0 = Some nd0 → key_eq k (key nd0) = false) →
     ∃ v, find k s = Ok (v, s) ∧ find k s0 = Ok (v, s0)).
Proof.
  intros Hrun.
  assert (∀ ops1 log1 (s1 : PooledMap), run ops1 empty_map = Ok (log1, s1) →
    (∀ a nd, mem s1 !! a = Some nd → key_eq k (key nd) = true →
       find k s1 = Ok (value nd, s1)) ∧
    ((∀ a nd, mem s1 !! a = Some nd → key_eq k (key nd) = false) →
       find k s1 = Ok (Value_default, s1))) as Hboth.
  { intros ops1 log1 s1 Hrun1.
    destruct (run_InvS0 _ _ _ Hrun1) as (T & HIS). pose proof HIS as [HI Hs].
    pose proof HI as (HA & _). rewrite (find_eq k T _ _ s1 HA). split.
    - intros a nd Ha Heq.
      destruct (present_locate k T s1 a nd HIS Ha Heq) as (c & l & r & cx & Hloc).
      by rewrite Hloc.
    - intros Hno. destruct (absent_locate k T s1 HI Hno) as (cx & Hloc). by rewrite Hloc. }
  destruct (Hboth _ _ _ Hrun) as [Hpres Habs]. split_and!; [done..|].
  intros a nd ops0 log0 s0 Ha Heq Hv Hrun0 Hno.
  exists Value_default. split.
  - rewrite <- Hv. by eapply Hpres.
  - destruct (Hboth _ _ _ Hrun0) as [_ Habs0]. by apply Habs0.
Qed.

End OrderedClaims.

End Claims.

(** ** Concrete instances: [PooledMap<int, int>] with 8 segments of 4 slots *)

Lemma small_pool_bound : Z.of_nat (8 * 4) < SIZE_MODULUS.
Proof. reflexivity. Qed.

Lemma demo_run : run (VD := int_default) 4 8 ops_demo empty_map = Ok (demo_log, demo_state).
Proof. vm_compute. reflexivity. Qed.

Lemma demo_no_key (k : Z) :
  Forall (λ e, key_eq k (key e.2) = false) (map_to_list (mem demo_state)) →
  ∀ a nd, mem demo_state !! a = Some nd → key_eq k (key nd) = false.
Proof.
  intros Hall a nd Ha. apply elem_of_map_to_list in Ha.
  rewrite Forall_forall in Hall. apply (Hall (a, nd) Ha).
Qed.

Lemma C1_witness :
  run (VD := int_default) 4 8 ops_demo empty_map = Ok (demo_log, demo_state) ∧
  (∀ a nd, mem demo_state !! a = Some nd → color nd = RED →
     ∃ p pn, parent nd = Some p ∧ mem demo_state !! p = Some pn ∧ color pn = BLACK) ∧
  (∃ N, path_blacks (mem demo_state) (root demo_state) N ∧
        ∀ n, path_blacks (mem demo_state) (root demo_state) n → n = N) ∧
  (root demo_state = None ∨
   ∃ r nd, root demo_state = Some r ∧ mem demo_state !! r = Some nd ∧ color nd = BLACK).
Proof.
  split; [vm_compute; reflexivity|].
  apply (proj2 (C1_red_black_invariants (VD := int_default) 4 8 small_pool_bound ops_demo)
           demo_log demo_state).
  vm_compute. reflexivity.
Defined.

Lemma C2_witness :
  run (VD := int_default) 4 8 ops_demo empty_map = Ok (demo_log, demo_state) ∧
  ∃ l, for_each record_call [] demo_state = Ok (l, demo_state) ∧
       StronglySorted klt (l.*1) ∧
       length l = base.size (mem demo_state) ∧
       (∀ k v, (k, v) ∈ l ↔
               ∃ a nd, mem demo_state !! a = Some nd ∧ key nd = k ∧ value nd = v) ∧
       ∀ A (f : Z → Z → A → Z * A) acc,
         ∃ s', for_each f acc demo_state = Ok (visit_all f acc l, s').
Proof.
  split; [vm_compute; reflexivity|].
  apply (C2_for_each_increasing (VD := int_default) 4 8 small_pool_bound ops_demo demo_log).
  vm_compute. reflexivity.
Defined.

Lemma demo_alloc : pool_alloc 4 8 (pool demo_state) = Ok (4%nat, mkPool [] 2 1).
Proof. vm_compute. reflexivity. Qed.

Lemma C3_witness :
  run (VD := int_default) 4 8 ops_demo empty_map = Ok (demo_log, demo_state) ∧
  (upsert (VD := int_default) 4 8 20 demo_state = Ok (Some 1%nat, demo_state) ∧
   read_ref (Some 1%nat) demo_state = Ok (0, demo_state)) ∧
  ∃ s', upsert (VD := int_default) 4 8 30 demo_state = Ok (Some 4%nat, s') ∧
        read_ref (Some 4%nat) s' = Ok (0, s') ∧ size_ s' = 5.
Proof.
  split; [vm_compute; reflexivity|].
  pose proof (C3_upsert (VD := int_default) 4 8 small_pool_bound ops_demo demo_log demo_state)
    as H.
  split.
  - apply (proj1 (H 20 ltac:(vm_compute; reflexivity)) 1%nat
             (mkNode 20 0 None (Some 0%nat) (Some 3%nat) BLACK));
      vm_compute; reflexivity.
  - destruct (H 30 ltac:(vm_compute; reflexivity)) as [_ Ha].
    specialize (Ha (demo_no_key 30 ltac:(vm_compute; repeat constructor))).
    rewrite demo_alloc in Ha.
    destruct Ha as (par & s2 & _ & _ & _ & _ & Hup & Hrd).
    eexists. split; [exact Hup|]. split; [exact Hrd|]. reflexivity.
Defined.

Lemma C4_witness :
  run (VD := int_default) 4 8 ops_demo empty_map = Ok (demo_log, demo_state) ∧
  (∃ s' l1 v l2,
     erase 20 demo_state = Ok (1, s') ∧
     size s' = Ok (3, s') ∧
     contains 20 s' = Ok (false, s') ∧
     for_each record_call [] demo_state = Ok (l1 ++ (20, v) :: l2, demo_state) ∧
     for_each record_call [] s' = Ok (l1 ++ l2, s')) ∧
  erase 10 demo_state = Ok (0, demo_state).
Proof.
  split; [vm_compute; reflexivity|].
  pose proof (C4_erase (VD := int_default) 4 8 small_pool_bound ops_demo demo_log demo_state)
    as H.
  split.
  - destruct (H 20 ltac:(vm_compute; reflexivity)) as (_ & Hp & _).
    exact (Hp ltac:(vm_compute; reflexivity)).
  - destruct (H 10 ltac:(vm_compute; reflexivity)) as (_ & _ & Ha).
    exact (Ha ltac:(vm_compute; reflexivity)).
Defined.

Lemma C5_witness :
  run (VD := int_default) 4 8 ops_demo empty_map = Ok (demo_log, demo_state) ∧
  upsert (VD := int_default) 4 8 15 demo_state = Ok (Some 3%nat, demo_state) ∧
  ∃ v, read_ref (Some 3%nat) demo_state = Ok (v, demo_state) ∧
       find 15 demo_state = Ok (v, demo_state) ∧
       (contains 15 demo_state = Ok (false, demo_state) → v = 0) ∧
       (contains 15 demo_state = Ok (true, demo_state) → find 15 demo_state = Ok (v, demo_state)) ∧
       ∀ w, ∃ s'', write_ref (Some 3%nat) w demo_state = Ok (tt, s'') ∧
                   find 15 s'' = Ok (w, s'').
Proof.
  split; [vm_compute; reflexivity|].
  split; [vm_compute; reflexivity|].
  apply (C5_upsert_then_find (VD := int_default) 4 8 small_pool_bound ops_demo demo_log
           demo_state 15 (Some 3%nat) demo_state); vm_compute; reflexivity.
Defined.

Lemma C6_witness :
  run (VD := int_default) 4 8 ops_demo empty_map = Ok (demo_log, demo_state) ∧
  size demo_state = Ok (insertions demo_log - successful_erases demo_log, demo_state) ∧
  ∃ l, for_each record_call [] demo_state = Ok (l, demo_state) ∧
       Z.of_nat (length l) = insertions demo_log - successful_erases demo_log.
Proof.
  split; [vm_compute; reflexivity|].
  apply (C6_size (VD := int_default) 4 8 small_pool_bound ops_demo demo_log demo_state).
  vm_compute. reflexivity.
Defined.

(** One key upserted, erased and upserted again: the map holds one
    entry, and the distinct keys ever upserted minus the successful
    erases are none. *)
Lemma C6_counterexample :
  ∃ log s, run (VD := int_default) 4 8 ops_reinsert empty_map = Ok (log, s) ∧
           size s = Ok (1, s) ∧
           claimed_size ops_reinsert log = 0 ∧
           size s ≠ Ok (claimed_size ops_reinsert log, s).
Proof.
  eexists _, _. split; [vm_compute; reflexivity|].
  split; [vm_compute; reflexivity|].
  split; [vm_compute; reflexivity|].
  vm_compute. discriminate.
Qed.

Lemma C7_witness :
  run (VD := int_default) 4 8 ops_demo empty_map = Ok (demo_log, demo_state) ∧
  find 15 demo_state = Ok (7, demo_state) ∧
  find 30 demo_state = Ok (0, demo_state) ∧
  ∃ v, find 20 demo_state = Ok (v, demo_state) ∧ find 20 empty_map = Ok (v, empty_map).
Proof.
  split; [vm_compute; reflexivity|].
  pose proof (C7_find (VD := int_default) 4 8 small_pool_bound ops_demo demo_log demo_state)
    as H.
  split_and!.
  - apply (proj1 (H 15 ltac:(vm_compute; reflexivity)) 3%nat
             (mkNode 15 7 (Some 2%nat) (Some 1%nat) None BLACK));
      vm_compute; reflexivity.
  - destruct (H 30 ltac:(vm_compute; reflexivity)) as (_ & Ha & _).
    exact (Ha (demo_no_key 30 ltac:(vm_compute; repeat constructor))).
  - destruct (H 20 ltac:(vm_compute; reflexivity)) as (_ & _ & Hboth).
    destruct (Hboth 1%nat (mkNode 20 0 None (Some 0%nat) (Some 3%nat) BLACK)
                [] [] empty_map
                ltac:(vm_compute; reflexivity) ltac:(vm_compute; reflexivity)
                ltac:(vm_compute; reflexivity) eq_refl
                ltac:(intros a0 nd0 Hl; simpl in Hl; by rewrite lookup_empty in Hl)) as (v & H1 & H2).
    by exists v.
Defined.

Lemma C8_witness :
  run (VD := int_default) 4 8 ops_demo empty_map = Ok (demo_log, demo_state) ∧
  ∃ s', destroy demo_state = Ok (tt, s') ∧
        mem s' = ∅ ∧
        free_list (pool s') = [3; 1; 0; 2]%nat ∧
        root s' = Some 3%nat ∧ size_ s' = 4.
Proof.
  split; [vm_compute; reflexivity|].
  pose proof (C8_clear (VD := int_default) 4 8 small_pool_bound ops_demo demo_log demo_state
                demo_run) as H.
  cbv zeta in H. destruct H as (s' & Hd & Hmem & Hfl & _ & _ & Hroot & Hsz).
  exists s'. split_and!; [exact Hd|exact Hmem| | |].
  - rewrite Hfl. vm_compute. reflexivity.
  - rewrite Hroot. reflexivity.
  - rewrite Hsz. reflexivity.
Defined.

(** The destructor's [clear] on a map with one entry: the root still
    points at the recycled node and the count is still 1. *)
Lemma C8_counterexample :
  ∃ log s s', run (VD := int_default) 4 8 ops_single empty_map = Ok (log, s) ∧
              destroy s = Ok (tt, s') ∧
              root s' = Some 0%nat ∧
              size s' = Ok (1, s') ∧
              empty s' = Ok (false, s').
Proof.
  eexists _, _, _. split; [vm_compute; reflexivity|].
  split; [vm_compute; reflexivity|].
  split_and!; vm_compute; reflexivity.
Qed.

Lemma C9_witness :
  run (VD := int_default) 4 8 ops_demo empty_map = Ok (demo_log, demo_state) ∧
  (∃ count s', erase 20 demo_state = Ok (count, s')) ∧
  fix_erase_loop 1 None (Some 0%nat) lone_state = Fault NullDeref.
Proof.
  split; [vm_compute; reflexivity|].
  destruct (C9_fix_erase_sibling (VD := int_default) 4 8 small_pool_bound ops_demo demo_log
              demo_state 20 demo_run) as [Her Hnull].
  split; [exact Her|].
  apply Hnull; vm_compute; reflexivity.
Defined.

Lemma C10_witness :
  run (VD := int_default) 4 8 ops_demo empty_map = Ok (demo_log, demo_state) ∧
  ∃ log1 s1 log2 s2,
    run (VD := int_default) 4 8 (erase_all [20; 5]) demo_state = Ok (log1, s1) ∧
    successful_erases log1 = 2 ∧
    run (VD := int_default) 4 8 (upsert_all [1; 2]) s1 = Ok (log2, s2) ∧
    segments (pool s2) = segments (pool demo_state) ∧
    bump (pool s2) = bump (pool demo_state).
Proof.
  split; [vm_compute; reflexivity|].
  destruct (C10_pool_reuse (VD := int_default) 4 8 small_pool_bound ops_demo demo_log
              demo_state [20; 5] [1; 2] demo_run)
    as (_ & _ & _ & log1 & s1 & Hr1 & _ & _ & _ & Hup).
  assert (successful_erases log1 = 2) as He.
  { vm_compute in Hr1. injection Hr1 as <- _. reflexivity. }
  destruct Hup as (log2 & s2 & Hr2 & Hsg & Hbp & _); [rewrite He; reflexivity|].
  exists log1, s1, log2, s2. split_and!; [exact Hr1|exact He|exact Hr2|exact Hsg|exact Hbp].
Defined.

Section Further.
Context {Key Value : Type} `{KO : KeyOrder Key} `{VD : Inhabited Value}.
Variable segment_capacity max_segments : nat.
Hypothesis Hcap : Z.of_nat (max_segments * segment_capacity) < SIZE_MODULUS.

Abbreviation Node := (@Node Key Value).
Abbreviation PooledMap := (@PooledMap Key Value).
Abbreviation tree := (@tree Key Value).
Abbreviation ctx := (@ctx Key Value).
Abbreviation op := (@op Key Value).
Abbreviation M := (@M Key Value).
Abbreviation event := (@event Key).
Abbreviation upsert := (upsert segment_capacity max_segments).
Abbreviation pool_alloc := (pool_alloc segment_capacity max_segments).
Abbreviation apply_op := (apply_op segment_capacity max_segments).
Abbreviation run := (run segment_capacity max_segments).
Abbreviation InvT := (InvT segment_capacity max_segments).
Abbreviation InvS := (InvS segment_capacity max_segments).

(** ** Rotations *)

Lemma focus_node T P n (s : PooledMap) a nd :
  Abs T P n s → mem s !! a = Some nd →
  ∃ c l r cx, T = plug (Br c l a (key nd) (value nd) r) cx ∧
              left nd = rootp l ∧ right nd = rootp r ∧
              parent nd = ctx_ptr cx ∧ color nd = c.
Proof.
  intros HA Ha.
  assert (a ∈ aset T) as Hin.
  { rewrite <- (Abs_dom _ _ _ _ HA). by apply elem_of_dom. }
  destruct (aset_focus _ _ Hin) as (c & l & k & v & r & cx & ->).
  rewrite (Abs_focus _ _ _ _ _ _ _ _ _ _ HA) in Ha. injection Ha as <-.
  by exists c, l, r, cx.
Qed.

Lemma inorder_plug (t t' : tree) (cx : ctx) :
  nodes t = nodes t' → inorder (plug t cx) = inorder (plug t' cx).
Proof. intros H. unfold inorder. by rewrite (nodes_plug_eq cx t t' H). Qed.

(** X1. [rotate_left] on a node with a right child makes that child the
    node's parent and keeps the in-order sequence of the entries; on a
    node without a right child it reads through a null pointer. *)
Theorem rotate_left_keeps_order (ops : list op) log (s : PooledMap) x nd :
  run ops empty_map = Ok (log, s) →
  mem s !! x = Some nd →
  match right nd with
  | None => rotate_left (Some x) s = Fault NullDeref
  | Some y =>
    ∃ s' l ny nx' ny',
      rotate_left (Some x) s = Ok (tt, s') ∧
      for_each record_call [] s = Ok (l, s) ∧
      for_each record_call [] s' = Ok (l, s') ∧
      mem s !! y = Some ny ∧ mem s' !! x = Some nx' ∧ mem s' !! y = Some ny' ∧
      nx' = mkNode (key nd) (value nd) (left nd) (left ny) (Some y) (color nd) ∧
      ny' = mkNode (key ny) (value ny) (Some x) (right ny) (parent nd) (color ny) ∧
      dom (mem s') = dom (mem s) ∧ size_ s' = size_ s ∧ pool s' = pool s
  end.
Proof.
  intros Hrun Hx. destruct (run_Inv segment_capacity max_segments Hcap _ _ _ Hrun) as (T & HA & _).
  destruct (focus_node _ _ _ _ _ _ HA Hx) as (c & l & r & cx & -> & Hl & Hr & Hp & Hc).
  destruct r as [|cy β y ky vy γ]; simpl in Hr; rewrite Hr.
  - unfold rotate_left, bind, get. by rewrite Hx, Hr.
  - destruct (rotate_left_focus _ _ _ _ _ _ _ _ _ _ _ _ _ _ _ HA) as (s' & Hrot & HA').
    exists s', (inorder (plug (Br c l x (key nd) (value nd) (Br cy β y ky vy γ)) cx)).
    pose proof (Abs_focus cy β y ky vy γ (FrR c l x (key nd) (value nd) :: cx) _ _ _ HA) as Hy.
    pose proof (Abs_focus c l x (key nd) (value nd) β (FrL cy y ky vy γ :: cx) _ _ _ HA') as Hx'.
    pose proof (Abs_focus cy (Br c l x (key nd) (value nd) β) y ky vy γ cx _ _ _ HA') as Hy'.
    simpl in Hy, Hx', Hy'.
    eexists _, _, _. split_and!; try done.
    + by eapply for_each_record_eq.
    + rewrite (for_each_record_eq _ _ _ _ HA'). do 2 f_equal.
      apply inorder_plug. simpl. by rewrite <- !app_assoc.
    + simpl. by rewrite Hl, Hc.
    + simpl. by rewrite Hp.
    + rewrite (Abs_dom _ _ _ _ HA), (Abs_dom _ _ _ _ HA'), !aset_plug. simpl. set_solver.
    + by destruct (Abs_pool_size _ _ _ _ HA') as [_ <-].
    + by destruct (Abs_pool_size _ _ _ _ HA') as [<- _].
Qed.

(** X2. [rotate_right] on a node with a left child makes that child the
    node's parent and keeps the in-order sequence of the entries; on a
    node without a left child it reads through a null pointer. *)
Theorem rotate_right_keeps_order (ops : list op) log (s : PooledMap) x nd :
  run ops empty_map = Ok (log, s) →
  mem s !! x = Some nd →
  match left nd with
  | None => rotate_right (Some x) s = Fault NullDeref
  | Some y =>
    ∃ s' l ny nx' ny',
      rotate_right (Some x) s = Ok (tt, s') ∧
      for_each record_call [] s = Ok (l, s) ∧
      for_each record_call [] s' = Ok (l, s') ∧
      mem s !! y = Some ny ∧ mem s' !! x = Some nx' ∧ mem s' !! y = Some ny' ∧
      nx' = mkNode (key nd) (value nd) (right ny) (right nd) (Some y) (color nd) ∧
      ny' = mkNode (key ny) (value ny) (left ny) (Some x) (parent nd) (color ny) ∧
      dom (mem s') = dom (mem s) ∧ size_ s' = size_ s ∧ pool s' = pool s
  end.
Proof.
  intros Hrun Hx. destruct (run_Inv segment_capacity max_segments Hcap _ _ _ Hrun) as (T & HA & _).
  destruct (focus_node _ _ _ _ _ _ HA Hx) as (c & l & r & cx & -> & Hl & Hr & Hp & Hc).
  destruct l as [|cy α y ky vy β]; simpl in Hl; rewrite Hl.
  - unfold rotate_right, bind, get. by rewrite Hx, Hl.
  - destruct (rotate_right_focus _ _ _ _ _ _ _ _ _ _ _ _ _ _ _ HA) as (s' & Hrot & HA').
    exists s', (inorder (plug (Br c (Br cy α y ky vy β) x (key nd) (value nd) r) cx)).
    pose proof (Abs_focus cy α y ky vy β (FrL c x (key nd) (value nd) r :: cx) _ _ _ HA) as Hy.
    pose proof (Abs_focus c β x (key nd) (value nd) r (FrR cy α y ky vy :: cx) _ _ _ HA') as Hx'.
    pose proof (Abs_focus cy α y ky vy (Br c β x (key nd) (value nd) r) cx _ _ _ HA') as Hy'.
    simpl in Hy, Hx', Hy'.
    eexists _, _, _. split_and!; try done.
    + by eapply for_each_record_eq.
    + rewrite (for_each_record_eq _ _ _ _ HA'). do 2 f_equal.
      apply inorder_plug. simpl. by rewrite <- !app_assoc.
    + simpl. by rewrite Hr, Hc.
    + simpl. by rewrite Hp.
    + rewrite (Abs_dom _ _ _ _ HA), (Abs_dom _ _ _ _ HA'), !aset_plug. simpl. set_solver.
    + by destruct (Abs_pool_size _ _ _ _ HA') as [_ <-].
    + by destruct (Abs_pool_size _ _ _ _ HA') as [<- _].
Qed.

(** X3. A left rotation at a node followed by a right rotation at its
    new parent gives the state back, and so does a right rotation
    followed by a left one. *)
Theorem rotate_round_trip (ops : list op) log (s : PooledMap) x nd y :
  run ops empty_map = Ok (log, s) →
  mem s !! x = Some nd →
  (right nd = Some y →
   ∃ s', rotate_left (Some x) s = Ok (tt, s') ∧ rotate_right (Some y) s' = Ok (tt, s)) ∧
  (left nd = Some y →
   ∃ s', rotate_right (Some x) s = Ok (tt, s') ∧ rotate_left (Some y) s' = Ok (tt, s)).
Proof.
  intros Hrun Hx. destruct (run_Inv segment_capacity max_segments Hcap _ _ _ Hrun) as (T & HA & _).
  destruct (focus_node _ _ _ _ _ _ HA Hx) as (c & l & r & cx & -> & Hl & Hr & Hp & Hc).
  split; intros Hy.
  - rewrite Hy in Hr. destruct r as [|cy β y' ky vy γ]; [done|]. injection Hr as ->.
    destruct (rotate_left_focus _ _ _ _ _ _ _ _ _ _ _ _ _ _ _ HA) as (s' & Hrot & HA').
    destruct (rotate_right_focus _ _ _ _ _ _ _ _ _ _ _ _ _ _ _ HA') as (s'' & Hrot' & HA'').
    exists s'. split; [done|]. by rewrite (Abs_unique _ _ _ _ _ HA HA'').
  - rewrite Hy in Hl. destruct l as [|cy α y' ky vy β]; [done|]. injection Hl as ->.
    destruct (rotate_right_focus _ _ _ _ _ _ _ _ _ _ _ _ _ _ _ HA) as (s' & Hrot & HA').
    destruct (rotate_left_focus _ _ _ _ _ _ _ _ _ _ _ _ _ _ _ HA') as (s'' & Hrot' & HA'').
    exists s'. split; [done|]. by rewrite (Abs_unique _ _ _ _ _ HA HA'').
Qed.

(** ** empty *)

(** X4. [empty()] is true exactly when the root is null; then the heap
    holds no node and [for_each] visits nothing. *)
Theorem empty_iff_no_node (ops : list op) log (s : PooledMap) :
  run ops empty_map = Ok (log, s) →
  ∃ b, empty s = Ok (b, s) ∧
       (b = true ↔ root s = None) ∧
       (b = true ↔ mem s = ∅) ∧
       (b = true ↔ for_each record_call [] s = Ok ([], s)).
Proof.
  intros Hrun.
  destruct (run_Inv segment_capacity max_segments Hcap _ _ _ Hrun) as (T & HA & _ & Hn & _).
  exists (size_ s =? 0). split; [done|].
  rewrite (for_each_record_eq _ _ _ _ HA).
  pose proof (Abs_dom _ _ _ _ HA) as Hdom.
  destruct HA as (Hroot & _). rewrite Hroot, Hn.
  destruct T as [|c l a k v r]; simpl.
  - split_and!; split; try done. intros _. apply dom_empty_iff_L. by rewrite Hdom.
  - split_and!; (split; [intros Hb|]).
    + apply Z.eqb_eq in Hb. rewrite length_app in Hb. simpl in Hb. lia.
    + done.
    + apply Z.eqb_eq in Hb. rewrite length_app in Hb. simpl in Hb. lia.
    + intros Hm. rewrite Hm, dom_empty_L in Hdom. simpl in Hdom. set_solver.
    + apply Z.eqb_eq in Hb. rewrite length_app in Hb. simpl in Hb. lia.
    + intros [= Hi]. unfold inorder in Hi. simpl in Hi.
      rewrite fmap_app in Hi. by destruct (entry_of <$> nodes l).
Qed.

(** ** The links between nodes *)

(** X5. The parent pointers mirror the child pointers: a child's parent
    is the node that points to it, a node with a parent is one of that
    parent's children, and the node without a parent is the root. *)
Theorem parent_links_consistent (ops : list op) log (s : PooledMap) a nd :
  run ops empty_map = Ok (log, s) →
  mem s !! a = Some nd →
  (∀ c, left nd = Some c ∨ right nd = Some c →
        ∃ nc, mem s !! c = Some nc ∧ parent nc = Some a) ∧
  (∀ p, parent nd = Some p →
        ∃ np, mem s !! p = Some np ∧ (left np = Some a ∨ right np = Some a)) ∧
  (parent nd = None ↔ root s = Some a).
Proof.
  intros Hrun Ha. destruct (run_Inv segment_capacity max_segments Hcap _ _ _ Hrun) as (T & HA & _).
  destruct (focus_node _ _ _ _ _ _ HA Ha) as (c & l & r & cx & -> & Hl & Hr & Hp & Hc).
  split_and!.
  - intros ch [Hch|Hch].
    + rewrite Hch in Hl. destruct l as [|cl ll la lk lv lr]; [done|]. injection Hl as ->.
      pose proof (Abs_focus cl ll la lk lv lr (FrL c a (key nd) (value nd) r :: cx) _ _ _ HA) as H.
      eexists. split; [exact H|done].
    + rewrite Hch in Hr. destruct r as [|cr rl ra rk rv rr]; [done|]. injection Hr as ->.
      pose proof (Abs_focus cr rl ra rk rv rr (FrR c l a (key nd) (value nd) :: cx) _ _ _ HA) as H.
      eexists. split; [exact H|done].
  - intros p Hpar. rewrite Hpar in Hp.
    destruct cx as [|[cp p' kp vp pr|cp pl p' kp vp] cx]; [done| |]; injection Hp as ->.
    + pose proof (Abs_focus cp (Br c l a (key nd) (value nd) r) p' kp vp pr cx _ _ _ HA) as H.
      eexists. split; [exact H|]. left. done.
    + pose proof (Abs_focus cp pl p' kp vp (Br c l a (key nd) (value nd) r) cx _ _ _ HA) as H.
      eexists. split; [exact H|]. right. done.
  - rewrite Hp. pose proof HA as Hc'. abs_dec Hc'.
    match goal with H : root s = _ |- _ => rewrite H end.
    destruct cx as [|f cx]; simpl in *; [done|]. snorm.
    split; [done|]. intros Heq. exfalso.
    eapply (croot_ne cx (fr_addr f) a); [| |symmetry; exact Heq].
    + destruct f; simpl in *; snorm; congruence.
    + destruct f; simpl in *; snorm; done.
Qed.

(** ** Depth *)

Lemma height_bh (t : tree) :
  rr_free t → balanced t →
  (height t ≤ 2 * bh t + match tcol t with RED => 1 | BLACK => 0 end)%nat.
Proof.
  induction t as [|c l IHl a k v r IHr]; simpl; [lia|].
  intros (Hc & Hrl & Hrr) (Hbh & Hbl & Hbr).
  specialize (IHl Hrl Hbl). specialize (IHr Hrr Hbr).
  destruct c; simpl.
  - destruct (Hc eq_refl) as [Hl Hr]. rewrite Hl in IHl. rewrite Hr in IHr. lia.
  - destruct (tcol l), (tcol r); lia.
Qed.

Lemma nodes_bh (t : tree) : balanced t → (2 ^ bh t ≤ length (nodes t) + 1)%nat.
Proof.
  induction t as [|c l IHl a k v r IHr]; simpl; [lia|].
  intros (Hbh & Hbl & Hbr). specialize (IHl Hbl). specialize (IHr Hbr).
  rewrite length_app. simpl. rewrite Hbh in IHl |- *.
  destruct c; simpl; rewrite ?Nat.add_0_r, ?Nat.add_1_r; simpl; lia.
Qed.

(** X6. The descent of [find] and [contains] ends within
    [2 * log2 (size + 1)] steps. *)
Theorem lookup_depth_logarithmic (ops : list op) log (s : PooledMap) (k : Key) (fuel : nat) :
  run ops empty_map = Ok (log, s) →
  2 * Z.log2 (size_ s + 1) < Z.of_nat fuel →
  find_loop fuel k (root s) s = find k s ∧
  contains_loop fuel k (root s) s = contains k s.
Proof.
  intros Hrun Hfuel.
  destruct (run_Inv segment_capacity max_segments Hcap _ _ _ Hrun)
    as (T & HA & (Hc & Hrr & Hbal) & Hn & _).
  assert (height T < fuel)%nat as Hh.
  { pose proof (height_bh T Hrr Hbal) as H1. rewrite Hc in H1.
    pose proof (nodes_bh T Hbal) as H2.
    assert (Z.of_nat (bh T) ≤ Z.log2 (size_ s + 1)) as H3.
    { apply Z.log2_le_pow2; [lia|]. rewrite Hn.
      apply Nat2Z.inj_le in H2. rewrite Nat2Z.inj_pow in H2. lia. }
    lia. }
  assert (root s = rootp T) as -> by by destruct HA.
  change (Abs (plug T []) (pool s) (size_ s) s) in HA.
  split.
  - destruct (find_loop_runs k T [] fuel _ _ s HA Hh) as (res & s' & -> & -> & ->).
    change (plug T []) with T in HA. by rewrite (find_eq k T _ _ s HA).
  - destruct (contains_loop_runs k T [] fuel _ _ s HA Hh) as (res & s' & -> & -> & ->).
    change (plug T []) with T in HA. by rewrite (contains_eq k T _ _ s HA).
Qed.

(** ** References *)

Lemma upsert_keeps k T (s : PooledMap) p s' a nd :
  InvT T s → mem s !! a = Some nd → upsert k s = Ok (p, s') →
  ∃ T' a', InvT T' s' ∧ p = Some a' ∧ a' ∈ aset T' ∧
           (a, key nd, value nd) ∈ nodes T' ∧
           (a' = a → key_eq k (key nd) = true).
Proof.
  intros HI Ha Hup. pose proof HI as (HA & _ & _ & Hpool).
  pose proof (Abs_lookup _ _ _ _ _ _ HA Ha) as Hin.
  pose proof (upsert_step segment_capacity max_segments Hcap k T s HI) as Hst.
  destruct (locate k T []) as [[|c l a1 k' v r] cx] eqn:Hloc.
  - destruct (pool_alloc (pool s)) as [[a1 P']|f] eqn:Hal; [|congruence].
    destruct Hst as (T' & s1 & Hup' & HI' & _ & Hnodes & _).
    rewrite Hup in Hup'. injection Hup' as -> ->.
    destruct (pool_alloc_ok _ _ _ _ _ _ Hpool Hal) as [Hfresh _].
    pose proof (locate_nodes k T) as HnT. rewrite Hloc in HnT. simpl in HnT.
    exists T', a1. split_and!; try done.
    + apply elem_of_aset. exists k, Value_default. rewrite Hnodes. set_solver.
    + rewrite Hnodes. rewrite HnT in Hin. set_solver.
    + intros ->. destruct Hfresh. by apply elem_of_dom.
  - rewrite Hup in Hst. injection Hst as -> ->.
    pose proof (locate_in _ _ _ _ _ _ _ _ _ Hloc) as Hin1.
    exists T, a1. split_and!; try done.
    + apply elem_of_aset. eauto.
    + intros ->. destruct (Abs_nodes _ _ _ _ _ _ _ HA Hin1) as (nd1 & Ha1 & <- & _).
      rewrite Ha in Ha1. injection Ha1 as <-. by eapply locate_key_eq.
Qed.

Lemma apply_op_keeps o T (s : PooledMap) e s' a nd :
  InvT T s → mem s !! a = Some nd → spares (key nd) o = true →
  apply_op o s = Ok (e, s') →
  ∃ T' nd', InvT T' s' ∧ mem s' !! a = Some nd' ∧
            key nd' = key nd ∧ value nd' = value nd.
Proof.
  intros HI Ha Hsp Hop. pose proof HI as (HA & _).
  pose proof (Abs_lookup _ _ _ _ _ _ HA Ha) as Hin.
  destruct o as [k|k w|k]; simpl in Hop, Hsp.
  - apply bind_Ok in Hop as (b & s1 & Hc & Hop).
    rewrite (contains_eq k T _ _ s HA) in Hc. injection Hc as _ <-.
    apply bind_Ok in Hop as (p & s2 & Hup & [= _ <-]).
    destruct (upsert_keeps k T s p s2 a nd HI Ha Hup) as (T' & a' & HI' & _ & _ & Hin' & _).
    destruct HI' as (HA' & HI'').
    destruct (Abs_nodes _ _ _ _ _ _ _ HA' Hin') as (nd' & Ha' & Hk & Hv).
    exists T', nd'. split_and!; try done.
  - apply bind_Ok in Hop as (b & s1 & Hc & Hop).
    rewrite (contains_eq k T _ _ s HA) in Hc. injection Hc as _ <-.
    apply bind_Ok in Hop as (p & s2 & Hup & Hop).
    apply bind_Ok in Hop as ([] & s3 & Hw & [= _ <-]).
    destruct (upsert_keeps k T s p s2 a nd HI Ha Hup) as (T' & a' & HI' & -> & Ha' & Hin' & Hne).
    destruct (write_ref_step segment_capacity max_segments a' w T' s2 HI' Ha')
      as (T'' & s'' & l1 & k1 & v1 & l2 & Hw' & HI'' & _ & _ & Hn & Hn').
    rewrite Hw in Hw'. injection Hw' as <-.
    assert (a' ≠ a) as Hneq.
    { intros Heq. specialize (Hne Heq). apply negb_true_iff in Hsp. congruence. }
    assert ((a, key nd, value nd) ∈ nodes T'') as Hin''.
    { rewrite Hn in Hin'. rewrite Hn'.
      repeat (rewrite elem_of_app in Hin' || rewrite elem_of_cons in Hin').
      rewrite elem_of_app, elem_of_cons. intuition congruence. }
    destruct HI'' as (HA'' & HI3).
    destruct (Abs_nodes _ _ _ _ _ _ _ HA'' Hin'') as (nd' & Ha'' & Hk & Hv).
    exists T'', nd'. split_and!; try done.
  - apply bind_Ok in Hop as (cnt & s1 & Her & [= _ <-]).
    pose proof (erase_step segment_capacity max_segments Hcap k T s HI) as Hst.
    destruct (locate k T []) as [[|c l z k' v r] cx] eqn:Hloc.
    + rewrite Her in Hst. injection Hst as _ <-. by exists T, nd.
    + destruct Hst as (T' & s2 & Her' & HI' & _ & Hnodes & _).
      rewrite Her in Her'. injection Her' as _ <-.
      pose proof (locate_nodes k T) as HnT. rewrite Hloc in HnT. simpl in HnT.
      pose proof (locate_key_eq _ _ _ _ _ _ _ _ _ _ Hloc) as Hkk.
      assert ((a, key nd, value nd) ∈ nodes T') as Hin'.
      { rewrite Hnodes. rewrite HnT in Hin. apply negb_true_iff in Hsp.
        repeat (rewrite elem_of_app in Hin || rewrite elem_of_cons in Hin).
        rewrite !elem_of_app. intuition congruence. }
      destruct HI' as (HA' & HI'').
      destruct (Abs_nodes _ _ _ _ _ _ _ HA' Hin') as (nd' & Ha' & Hk & Hv).
      exists T', nd'. split_and!; try done.
Qed.

(** X7. A node stays where it is, with its key and its value, through
    every later call that neither erases nor assigns its key: the
    reference [operator[]] returned for it stays valid. *)
Theorem reference_stays_valid (ops : list op) log (s : PooledMap) a nd
    (ops' : list op) log' (s' : PooledMap) :
  run ops empty_map = Ok (log, s) →
  mem s !! a = Some nd →
  forallb (spares (key nd)) ops' = true →
  run ops' s = Ok (log', s') →
  ∃ nd', mem s' !! a = Some nd' ∧ key nd' = key nd ∧ value nd' = value nd ∧
         read_ref (Some a) s' = Ok (value nd, s').
Proof.
  intros Hrun Ha Hsp Hrun'.
  destruct (run_Inv segment_capacity max_segments Hcap _ _ _ Hrun) as (T & HI).
  clear Hrun. revert T s nd log' HI Ha Hsp Hrun'.
  induction ops' as [|o ops' IH]; intros T s nd log' HI Ha Hsp Hrun'; simpl in *.
  - injection Hrun' as _ <-. exists nd. split_and!; try done.
    unfold read_ref, get. by rewrite Ha.
  - apply andb_true_iff in Hsp as [Hsp Hsps].
    apply bind_Ok in Hrun' as (e & s1 & He & Hrun').
    apply bind_Ok in Hrun' as (es & s2 & Hrun' & [= _ <-]).
    destruct (apply_op_keeps o T s e s1 a nd HI Ha Hsp He) as (T1 & nd1 & HI1 & Ha1 & Hk & Hv).
    rewrite <- Hk in Hsps.
    destruct (IH T1 s1 nd1 es HI1 Ha1 Hsps Hrun') as (nd' & Ha' & Hk' & Hv' & Hr).
    exists nd'. split_and!; try congruence.
Qed.

(** ** Updating values in place *)

Lemma visit_update (g : Key → Value → Value) (t : tree) :
  (visit (update_with g) t tt).2 = tt ∧
  inorder (visit (update_with g) t tt).1 = (λ e, (e.1, g e.1 e.2)) <$> inorder t.
Proof.
  unfold inorder.
  induction t as [|c l IHl a k v r IHr]; simpl; [done|].
  destruct (visit (update_with g) l tt) as [l' []]. simpl in IHl.
  destruct (visit (update_with g) r tt) as [r' []]. simpl in IHr |- *.
  destruct IHl as [_ IHl], IHr as [_ IHr]. split; [done|].
  rewrite !fmap_app, !fmap_cons, IHl, IHr. done.
Qed.

(** X8. A visitor that assigns to the value it is handed changes every
    stored value and nothing else: afterwards the map enumerates the
    same keys in the same order, each with its new value. *)
Theorem for_each_updates_in_place (ops : list op) log (s : PooledMap)
    (g : Key → Value → Value) :
  run ops empty_map = Ok (log, s) →
  ∃ s' l,
    for_each record_call [] s = Ok (l, s) ∧
    for_each (update_with g) tt s = Ok (tt, s') ∧
    for_each record_call [] s' = Ok ((λ e, (e.1, g e.1 e.2)) <$> l, s') ∧
    root s' = root s ∧ size_ s' = size_ s ∧ pool s' = pool s ∧
    dom (mem s') = dom (mem s).
Proof.
  intros Hrun. destruct (run_Inv segment_capacity max_segments Hcap _ _ _ Hrun) as (T & HA & _).
  destruct (for_each_runs (update_with g) T tt _ _ s HA) as (res & s' & Hfe & -> & HA').
  destruct (visit_update g T) as [Hres Hio]. rewrite Hres in Hfe.
  exists s', (inorder T). split_and!; try done.
  - by eapply for_each_record_eq.
  - rewrite (for_each_record_eq _ _ _ _ HA'). by rewrite Hio.
  - destruct HA as (-> & _), HA' as (-> & _). by rewrite rootp_visit.
  - by destruct (Abs_pool_size _ _ _ _ HA') as [_ <-].
  - by destruct (Abs_pool_size _ _ _ _ HA') as [<- _].
  - rewrite (Abs_dom _ _ _ _ HA), (Abs_dom _ _ _ _ HA'), !aset_nodes.
    assert (∀ t : tree, eaddr <$> nodes (visit (update_with g) t tt).1 = eaddr <$> nodes t) as Hsame.
    { clear. induction t as [|c l IHl a k v r IHr]; simpl; [done|].
      destruct (visit (update_with g) l tt) as [l' []]. simpl in IHl.
      destruct (visit (update_with g) r tt) as [r' []]. simpl in IHr |- *.
      by rewrite !fmap_app, !fmap_cons, IHl, IHr. }
    by rewrite Hsame.
Qed.

(** ** Properties that need the order of the keys *)

Section OrderedFurther.
Context `{KL : !KeyOrderLaws Key}.

Lemma run_sorted ops log (s : PooledMap) :
  run ops empty_map = Ok (log, s) → ∃ T, InvS T s.
Proof.
  intros Hrun. apply (reachable_InvS segment_capacity max_segments Hcap). by exists ops, log.
Qed.

Lemma key_eq_refl (k : Key) : key_eq k k = true.
Proof. by apply key_eq_spec. Qed.

Lemma key_eq_false (k k' : Key) : k ≠ k' → key_eq k k' = false.
Proof.
  intros Hne. destruct (key_eq k k') eqn:E; [|done]. by apply key_eq_spec in E.
Qed.

Lemma entry_find_skip (k : Key) (l1 l2 : list (Key * Value)) :
  k ∉ l1.*1 → entry_find k (l1 ++ l2) = entry_find k l2.
Proof.
  induction l1 as [|[k1 v1] l1 IH]; simpl; [done|].
  intros Hno. rewrite key_eq_false by set_solver. apply IH. set_solver.
Qed.

Lemma entry_find_None (k : Key) (l : list (Key * Value)) :
  k ∉ l.*1 → entry_find k l = None.
Proof. intros Hno. rewrite <- (app_nil_r l). by rewrite entry_find_skip. Qed.

Lemma inorder_keys (t : tree) : (inorder t).*1 = ekey <$> nodes t.
Proof. unfold inorder. by rewrite <- list_fmap_compose. Qed.

(** What the descent finds is the entry of the key in the enumeration. *)
Lemma entry_find_locate k (T : tree) :
  sorted_keys (nodes T) →
  entry_find k (inorder T) =
  match (locate k T []).1 with Leaf => None | Br _ _ _ _ v _ => Some v end.
Proof.
  intros Hs. destruct (locate k T []) as [[|c l a k' v r] cx] eqn:Hloc; simpl.
  - destruct (locate_absent k T cx Hs Hloc) as (_ & _ & Hno).
    apply entry_find_None. by rewrite inorder_keys.
  - destruct (locate_present k T c l a k' v r cx Hs Hloc) as [-> HnT].
    apply sorted_keys_NoDup in Hs. rewrite HnT, app_assoc, fmap_app, fmap_cons in Hs.
    apply NoDup_app in Hs as (_ & Hd & _).
    unfold inorder. rewrite HnT, app_assoc, fmap_app, fmap_cons.
    rewrite entry_find_skip.
    + simpl. by rewrite key_eq_refl.
    + rewrite <- list_fmap_compose. intros Hin. apply (Hd _ Hin). by left.
Qed.

(** X9. [contains(k)] is true exactly when [for_each] enumerates an
    entry with the key [k], and [find(k)] returns the value of that
    entry; neither changes the state. *)
Theorem contains_iff_enumerated (ops : list op) log (s : PooledMap) (k : Key) :
  run ops empty_map = Ok (log, s) →
  ∃ l b, for_each record_call [] s = Ok (l, s) ∧
       contains k s = Ok (b, s) ∧ (b = true ↔ ∃ v, (k, v) ∈ l) ∧
       find k s = Ok (default Value_default (entry_find k l), s) ∧
       (∀ v, (k, v) ∈ l → entry_find k l = Some v).
Proof.
  intros Hrun. destruct (run_sorted _ _ _ Hrun) as (T & (HA & _) & Hs).
  exists (inorder T), (is_node (locate k T []).1).
  pose proof (entry_find_locate k T Hs) as Hef.
  split_and!.
  - by eapply for_each_record_eq.
  - by rewrite (contains_eq k T _ _ s HA).
  - destruct (locate k T []) as [[|c l a k' v r] cx] eqn:Hloc; simpl in *.
    + split; [done|]. intros [v Hin].
      destruct (locate_absent k T cx Hs Hloc) as (_ & _ & Hno). destruct Hno.
      rewrite <- inorder_keys. apply list_elem_of_fmap. by exists (k, v).
    + split; [|done]. intros _.
      destruct (locate_present k T c l a k' v r cx Hs Hloc) as [-> _].
      exists v. unfold inorder. apply list_elem_of_fmap. exists (a, k, v). split; [done|].
      by eapply locate_in.
  - rewrite (find_eq k T _ _ s HA), Hef. by destruct (locate k T []) as [[|] ?].
  - intros v Hin. unfold inorder in Hin.
    apply list_elem_of_fmap in Hin as ([[a k'] v'] & [= Hk Hv] & Hin). subst k' v'.
    destruct (locate_node k T a k v Hs Hin (key_eq_refl k)) as (c & l & r & cx & Hloc).
    rewrite Hef, Hloc. done.
Qed.

(** X10. No two nodes hold the same key. *)
Theorem keys_unique (ops : list op) log (s : PooledMap) a b na nb :
  run ops empty_map = Ok (log, s) →
  mem s !! a = Some na → mem s !! b = Some nb →
  key_eq (key na) (key nb) = true → a = b.
Proof.
  intros Hrun Ha Hb Heq. destruct (run_sorted _ _ _ Hrun) as (T & (HA & _) & Hs).
  apply key_eq_spec in Heq.
  pose proof (Abs_lookup _ _ _ _ _ _ HA Ha) as Hina.
  pose proof (Abs_lookup _ _ _ _ _ _ HA Hb) as Hinb.
  by pose proof (sorted_keys_functional _ _ _ Hs Hina Hinb Heq) as [= -> _].
Qed.

Lemma root_entry (t : tree) a : rootp t = Some a → ∃ k v, (a, k, v) ∈ nodes t.
Proof. destruct t as [|c l a' k v r]; [done|]. intros [= ->]. exists k, v. simpl. set_solver. Qed.

(** X11. The key of a node's left child is smaller than the node's key,
    and the key of its right child is larger. *)
Theorem search_tree_order (ops : list op) log (s : PooledMap) a nd :
  run ops empty_map = Ok (log, s) →
  mem s !! a = Some nd →
  (∀ c nc, left nd = Some c → mem s !! c = Some nc → klt (key nc) (key nd)) ∧
  (∀ c nc, right nd = Some c → mem s !! c = Some nc → klt (key nd) (key nc)).
Proof.
  intros Hrun Ha. destruct (run_sorted _ _ _ Hrun) as (T & (HA & _) & Hs).
  destruct (focus_node _ _ _ _ _ _ HA Ha) as (c & l & r & cx & -> & Hl & Hr & Hp & Hc).
  rewrite nodes_plug in Hs. simpl in Hs.
  apply sorted_keys_app in Hs as (_ & _ & Hs). apply sorted_keys_app in Hs as (_ & Hs & _).
  apply sorted_keys_app in Hs as (Hlt & _ & Hs). apply sorted_keys_cons in Hs as [Hgt _].
  rewrite Forall_forall in Hgt.
  split; intros ch nc Hch Hnc.
  - rewrite Hch in Hl. symmetry in Hl. destruct (root_entry _ _ Hl) as (k & v & Hin).
    pose proof (Abs_focus _ _ _ _ _ _ _ _ _ _ HA) as _.
    assert ((ch, k, v) ∈ nodes (plug (Br c l a (key nd) (value nd) r) cx)) as Hin'.
    { rewrite nodes_plug. simpl. set_solver. }
    destruct (Abs_nodes _ _ _ _ _ _ _ HA Hin') as (nc' & Hnc' & <- & _).
    rewrite Hnc in Hnc'. injection Hnc' as <-.
    apply (Hlt (ch, key nc, v) (a, key nd, value nd)); [done|set_solver].
  - rewrite Hch in Hr. symmetry in Hr. destruct (root_entry _ _ Hr) as (k & v & Hin).
    assert ((ch, k, v) ∈ nodes (plug (Br c l a (key nd) (value nd) r) cx)) as Hin'.
    { rewrite nodes_plug. simpl. set_solver. }
    destruct (Abs_nodes _ _ _ _ _ _ _ HA Hin') as (nc' & Hnc' & <- & _).
    rewrite Hnc in Hnc'. injection Hnc' as <-.
    apply (Hgt (ch, key nc, v) Hin).
Qed.


(** ** How the operations compose *)

Lemma split_unique (l1 l2 l1' l2' : list (addr * Key * Value)) x x' :
  NoDup (ekey <$> (l1 ++ x :: l2)) →
  l1 ++ x :: l2 = l1' ++ x' :: l2' → ekey x = ekey x' →
  l1 = l1' ∧ x = x' ∧ l2 = l2'.
Proof.
  revert l1'. induction l1 as [|a l1 IH]; intros l1' Hnd Heq Hk; simpl in *.
  - destruct l1' as [|b l1']; simpl in Heq.
    + by injection Heq as -> ->.
    + injection Heq as -> ->. apply NoDup_cons in Hnd as [Hno _]. destruct Hno.
      rewrite Hk, fmap_app, fmap_cons. set_solver.
  - destruct l1' as [|b l1']; simpl in Heq.
    + injection Heq as -> <-. apply NoDup_cons in Hnd as [Hno _]. destruct Hno.
      rewrite <- Hk, fmap_app, fmap_cons. set_solver.
    + injection Heq as -> Heq. apply NoDup_cons in Hnd as [_ Hnd].
      destruct (IH l1' Hnd Heq Hk) as (-> & -> & ->). done.
Qed.

(** X13. Inserting a key the map does not contain and erasing it again
    gives a map with the entries it had before, in the same order, and
    the same size. *)
Theorem insert_then_erase (ops : list op) log (s : PooledMap) (k : Key) p (s1 : PooledMap) :
  run ops empty_map = Ok (log, s) →
  contains k s = Ok (false, s) →
  upsert k s = Ok (p, s1) →
  ∃ s2 l,
    erase k s1 = Ok (1, s2) ∧
    for_each record_call [] s = Ok (l, s) ∧
    for_each record_call [] s2 = Ok (l, s2) ∧
    size s2 = Ok (size_ s, s2) ∧
    contains k s2 = Ok (false, s2).
Proof.
  intros Hrun Hc Hup. destruct (run_sorted _ _ _ Hrun) as (T & HI & Hs).
  pose proof HI as (HA & _).
  rewrite (contains_eq k T _ _ s HA) in Hc.
  pose proof (upsert_step segment_capacity max_segments Hcap k T s HI) as Hst.
  destruct (locate k T []) as [[|c l a k' v r] cx] eqn:Hloc; [|done].
  destruct (pool_alloc (pool s)) as [[a P']|f] eqn:Hal; [|congruence].
  destruct Hst as (T1 & s1' & Hup' & HI1 & _ & Hn1 & Hsz1).
  rewrite Hup in Hup'. injection Hup' as -> <-.
  pose proof (locate_nodes k T) as HnT. rewrite Hloc in HnT. simpl in HnT.
  assert (sorted_keys (nodes T1)) as Hs1.
  { eapply tree_step_sorted; [exact Hs|]. by eapply ts_insert. }
  destruct (locate_node k T1 a k Value_default Hs1) as (c1 & l1 & r1 & cx1 & Hloc1);
    [rewrite Hn1; set_solver|apply key_eq_refl|].
  pose proof (erase_step segment_capacity max_segments Hcap k T1 s1 HI1) as Her.
  rewrite Hloc1 in Her. destruct Her as (T2 & s2 & Her & HI2 & _ & Hn2 & Hsz2).
  destruct (locate_present k T1 _ _ _ _ _ _ _ Hs1 Hloc1) as [_ Hn1'].
  assert (nodes T2 = nodes T) as Hsame.
  { rewrite Hn1, app_assoc in Hn1'.
    destruct (split_unique (cleft cx) (cright cx) (cleft cx1 ++ nodes l1) (nodes r1 ++ cright cx1)
                (a, k, Value_default) (a, k, Value_default)) as (H1 & _ & H2);
      [rewrite <- Hn1; by apply sorted_keys_NoDup|by rewrite <- app_assoc in *|done|].
    rewrite Hn2, HnT, H1, H2. by rewrite <- app_assoc. }
  assert (sorted_keys (nodes T2)) as Hs2 by by rewrite Hsame.
  destruct (erased_absent k T1 T2 _ _ _ _ _ _ _ Hs1 Hloc1 Hn2 Hs2) as (cx2 & Hloc2).
  pose proof HI2 as (HA2 & _).
  exists s2, (inorder T). split_and!; try done.
  - by eapply for_each_record_eq.
  - rewrite (for_each_record_eq _ _ _ _ HA2). unfold inorder. by rewrite Hsame.
  - unfold size. do 2 f_equal. lia.
  - rewrite (contains_eq k T2 _ _ s2 HA2). by rewrite Hloc2.
Qed.

(** X14. [operator[]] is idempotent: a second call with the same key
    returns the same reference and leaves the state as the first call
    left it. *)
Theorem upsert_twice (ops : list op) log (s : PooledMap) (k : Key) p (s1 : PooledMap) :
  run ops empty_map = Ok (log, s) →
  upsert k s = Ok (p, s1) →
  upsert k s1 = Ok (p, s1).
Proof.
  intros Hrun Hup. destruct (run_sorted _ _ _ Hrun) as (T & HI & Hs).
  pose proof (upsert_step segment_capacity max_segments Hcap k T s HI) as Hst.
  destruct (locate k T []) as [[|c l a k' v r] cx] eqn:Hloc.
  - destruct (pool_alloc (pool s)) as [[a P']|f] eqn:Hal; [|congruence].
    destruct Hst as (T1 & s1' & Hup' & HI1 & _ & Hn1 & _).
    rewrite Hup in Hup'. injection Hup' as -> <-.
    assert (sorted_keys (nodes T1)) as Hs1.
    { eapply tree_step_sorted; [exact Hs|]. by eapply ts_insert. }
    destruct (locate_node k T1 a k Value_default Hs1) as (c1 & l1 & r1 & cx1 & Hloc1);
      [rewrite Hn1; set_solver|apply key_eq_refl|].
    pose proof (upsert_step segment_capacity max_segments Hcap k T1 s1 HI1) as Hst1.
    by rewrite Hloc1 in Hst1.
  - rewrite Hup in Hst. by injection Hst as -> ->.
Qed.

(** X15. [erase] forgets the value: [operator[]] on a key that was
    erased creates it anew with a default-constructed value. *)
Theorem erase_then_upsert (ops : list op) log (s : PooledMap) (k : Key) (s1 : PooledMap) :
  run ops empty_map = Ok (log, s) →
  erase k s = Ok (1, s1) →
  match pool_alloc (pool s1) with
  | Fault _ => False
  | Ok (a, _) =>
    ∃ s2, upsert k s1 = Ok (Some a, s2) ∧
          read_ref (Some a) s2 = Ok (Value_default, s2) ∧
          find k s2 = Ok (Value_default, s2) ∧
          size s2 = Ok (size_ s, s2)
  end.
Proof.
  intros Hrun Her. destruct (run_sorted _ _ _ Hrun) as (T & HI & Hs).
  pose proof (erase_step segment_capacity max_segments Hcap k T s HI) as Hst.
  destruct (locate k T []) as [[|c l z k' v r] cx] eqn:Hloc; [congruence|].
  destruct Hst as (T1 & s1' & Her' & HI1 & Hp1 & Hn1 & Hsz1).
  rewrite Her in Her'. injection Her' as <-.
  assert (sorted_keys (nodes T1)) as Hs1.
  { eapply tree_step_sorted; [exact Hs|]. by eapply ts_erase. }
  destruct (erased_absent k T T1 _ _ _ _ _ _ _ Hs Hloc Hn1 Hs1) as (cx1 & Hloc1).
  pose proof (upsert_step segment_capacity max_segments Hcap k T1 s1 HI1) as Hup.
  rewrite Hloc1 in Hup.
  rewrite Hp1 in Hup |- *.
  rewrite (pool_alloc_free_list _ _ (pool_push z (pool s)) z (free_list (pool s)) eq_refl)
    in Hup |- *.
  destruct Hup as (T2 & s2 & Hup & HI2 & _ & Hn2 & Hsz2).
  assert (sorted_keys (nodes T2)) as Hs2.
  { eapply tree_step_sorted; [exact Hs1|]. by eapply ts_insert. }
  destruct (exposed_value segment_capacity max_segments Hcap T2 s2 z k Value_default) as (Hr & Hf & _);
    [done|rewrite Hn2; set_solver|].
  exists s2. split_and!; try done.
  unfold size. do 2 f_equal. lia.
Qed.

(** ** Other keys *)

Lemma entry_find_mid_entries (k k0 : Key) (e1 m e2 : list (Key * Value)) :
  Forall (λ x, x.1 = k0) m → k ≠ k0 →
  entry_find k (e1 ++ m ++ e2) = entry_find k (e1 ++ e2).
Proof.
  intros Hmid Hne. induction e1 as [|[k1 v1] e1 IH]; simpl.
  - induction Hmid as [|[k1 v1] m Hx _ IH]; simpl; [done|].
    simpl in Hx. subst k1. by rewrite key_eq_false.
  - by rewrite IH.
Qed.

Lemma entry_find_mid (k k0 : Key) (l1 mid l2 : list (addr * Key * Value)) :
  Forall (λ x, ekey x = k0) mid → k ≠ k0 →
  entry_find k (entry_of <$> (l1 ++ mid ++ l2)) = entry_find k (entry_of <$> (l1 ++ l2)).
Proof.
  intros Hmid Hne. rewrite !fmap_app. apply (entry_find_mid_entries k k0); [|done].
  by apply Forall_fmap.
Qed.

(** A call changes at most the entry of its key. *)
Lemma apply_op_effect o T (s : PooledMap) e s' :
  InvS T s → apply_op o s = Ok (e, s') →
  ∃ T' l1 mid mid' l2,
    InvS T' s' ∧ nodes T = l1 ++ mid ++ l2 ∧ nodes T' = l1 ++ mid' ++ l2 ∧
    Forall (λ x, ekey x = op_key o) mid ∧ Forall (λ x, ekey x = op_key o) mid'.
Proof.
  intros [HI Hs] Hop. pose proof HI as (HA & _).
  assert (∀ k p s1, upsert k s = Ok (p, s1) →
    ∃ T1 a v l1 mid l2, InvS T1 s1 ∧ p = Some a ∧
      nodes T = l1 ++ mid ++ l2 ∧ nodes T1 = l1 ++ (a, k, v) :: l2 ∧
      Forall (λ x, ekey x = k) mid) as Hupsert.
  { intros k p s1 Hup.
    pose proof (upsert_step segment_capacity max_segments Hcap k T s HI) as Hst.
    destruct (locate k T []) as [[|c l a k' v r] cx] eqn:Hloc.
    - destruct (pool_alloc (pool s)) as [[a P']|f] eqn:Hal; [|congruence].
      destruct Hst as (T1 & s1' & Hup' & HI1 & _ & Hn1 & _).
      rewrite Hup in Hup'. injection Hup' as -> <-.
      pose proof (locate_nodes k T) as HnT. rewrite Hloc in HnT. simpl in HnT.
      exists T1, a, Value_default, (cleft cx), [], (cright cx). split_and!; try done.
      split; [done|]. eapply tree_step_sorted; [exact Hs|]. by eapply ts_insert.
    - rewrite Hup in Hst. injection Hst as -> ->.
      destruct (locate_present k T _ _ _ _ _ _ _ Hs Hloc) as [-> HnT].
      exists T, a, v, (cleft cx ++ nodes l), [(a, k, v)], (nodes r ++ cright cx).
      split_and!; try done.
      + simpl. by rewrite <- app_assoc.
      + by rewrite <- app_assoc.
      + by constructor. }
  destruct o as [k|k w|k]; simpl in Hop |- *.
  - apply bind_Ok in Hop as (b & s1 & Hc & Hop).
    rewrite (contains_eq k T _ _ s HA) in Hc. injection Hc as _ <-.
    apply bind_Ok in Hop as (p & s2 & Hup & [= _ <-]).
    destruct (Hupsert k p s2 Hup) as (T1 & a & v & l1 & mid & l2 & HIS1 & _ & Hn & Hn1 & Hmid).
    exists T1, l1, mid, [(a, k, v)], l2. split_and!; try done. by constructor.
  - apply bind_Ok in Hop as (b & s1 & Hc & Hop).
    rewrite (contains_eq k T _ _ s HA) in Hc. injection Hc as _ <-.
    apply bind_Ok in Hop as (p & s2 & Hup & Hop).
    apply bind_Ok in Hop as ([] & s3 & Hw & [= _ <-]).
    destruct (Hupsert k p s2 Hup) as (T1 & a & v & l1 & mid & l2 & [HI1 Hs1] & -> & Hn & Hn1 & Hmid).
    assert (a ∈ aset T1) as Ha.
    { apply elem_of_aset. exists k, v. rewrite Hn1. set_solver. }
    destruct (write_ref_step segment_capacity max_segments a w T1 s2 HI1 Ha)
      as (T2 & s2' & m1 & k1 & v1 & m2 & Hw' & HI2 & _ & _ & Hm & Hm').
    rewrite Hw in Hw'. injection Hw' as <-.
    assert (k1 = k) as ->.
    { destruct HI1 as (HA1 & _).
      destruct (Abs_nodes _ _ _ _ a k v HA1) as (nd & Hnd & <- & _); [rewrite Hn1; set_solver|].
      destruct (Abs_nodes _ _ _ _ a k1 v1 HA1) as (nd' & Hnd' & <- & _); [rewrite Hm; set_solver|].
      congruence. }
    destruct (split_unique l1 l2 m1 m2 (a, k, v) (a, k, v1)) as (-> & _ & ->);
      [rewrite <- Hn1; by apply sorted_keys_NoDup|by rewrite <- Hn1|done|].
    exists T2, m1, mid, [(a, k, w)], m2. split_and!; try done; [|by constructor].
    split; [done|]. eapply tree_step_sorted; [exact Hs1|]. by eapply ts_assign.
  - apply bind_Ok in Hop as (cnt & s1 & Her & [= _ <-]).
    pose proof (erase_step segment_capacity max_segments Hcap k T s HI) as Hst.
    destruct (locate k T []) as [[|c l z k' v r] cx] eqn:Hloc.
    + rewrite Her in Hst. injection Hst as _ <-.
      exists T, (nodes T), [], [], []. split_and!; try done; by rewrite app_nil_r.
    + destruct Hst as (T' & s2 & Her' & HI' & _ & Hnodes & _).
      rewrite Her in Her'. injection Her' as _ <-.
      destruct (locate_present k T _ _ _ _ _ _ _ Hs Hloc) as [-> HnT].
      exists T', (cleft cx ++ nodes l), [(z, k, v)], [], (nodes r ++ cright cx).
      split_and!; try done.
      * split; [done|]. eapply tree_step_sorted; [exact Hs|]. by eapply ts_erase.
      * simpl. by rewrite <- app_assoc.
      * simpl. by rewrite <- app_assoc.
      * by constructor.
Qed.

(** X16. A call about one key leaves every other key alone: [find] and
    [contains] of another key return what they returned before. *)
Theorem other_keys_untouched (ops : list op) log (s : PooledMap) (o : op) e (s' : PooledMap)
    (k : Key) :
  run ops empty_map = Ok (log, s) →
  apply_op o s = Ok (e, s') →
  k ≠ op_key o →
  ∃ v b, find k s = Ok (v, s) ∧ find k s' = Ok (v, s') ∧
         contains k s = Ok (b, s) ∧ contains k s' = Ok (b, s').
Proof.
  intros Hrun Hop Hne. destruct (run_sorted _ _ _ Hrun) as (T & HIS).
  destruct (apply_op_effect o T s e s' HIS Hop)
    as (T' & l1 & mid & mid' & l2 & [HI' Hs'] & Hn & Hn' & Hmid & Hmid').
  destruct HIS as [HI Hs]. pose proof HI as (HA & _). pose proof HI' as (HA' & _).
  pose proof (entry_find_locate k T Hs) as Hef.
  pose proof (entry_find_locate k T' Hs') as Hef'.
  assert (entry_find k (inorder T') = entry_find k (inorder T)) as Heq.
  { unfold inorder. rewrite Hn, Hn', !(entry_find_mid k (op_key o)); done. }
  rewrite Heq, Hef in Hef'.
  exists (found_value (locate k T []).1), (is_node (locate k T []).1).
  rewrite (find_eq k T _ _ s HA), (find_eq k T' _ _ s' HA').
  rewrite (contains_eq k T _ _ s HA), (contains_eq k T' _ _ s' HA').
  destruct (locate k T []) as [[|] ?], (locate k T' []) as [[|] ?]; simpl in *;
    try done; by injection Hef' as ->.
Qed.

End OrderedFurther.

End Further.

(** ** The further properties on the concrete map *)

Lemma rotate_left_keeps_order_witness :
  run 4 8 ops_demo empty_map = Ok (demo_log, demo_state) ∧
  mem demo_state !! 1%nat = Some (mkNode 20 0 None (Some 0%nat) (Some 3%nat) BLACK) ∧
  ∃ s' l, rotate_left (Some 1%nat) demo_state = Ok (tt, s') ∧
          for_each record_call [] demo_state = Ok (l, demo_state) ∧
          for_each record_call [] s' = Ok (l, s').
Proof.
  split; [vm_compute; reflexivity|]. split; [vm_compute; reflexivity|].
  pose proof (rotate_left_keeps_order 4 8 small_pool_bound ops_demo demo_log demo_state 1%nat
                (mkNode 20 0 None (Some 0%nat) (Some 3%nat) BLACK) demo_run) as H.
  cbn [right] in H.
  destruct H as (s' & l & _ & _ & _ & Hr & Hf & Hf' & _); [vm_compute; reflexivity|].
  by exists s', l.
Defined.

Lemma rotate_right_keeps_order_witness :
  run 4 8 ops_demo empty_map = Ok (demo_log, demo_state) ∧
  mem demo_state !! 3%nat = Some (mkNode 15 7 (Some 2%nat) (Some 1%nat) None BLACK) ∧
  ∃ s' l, rotate_right (Some 3%nat) demo_state = Ok (tt, s') ∧
          for_each record_call [] demo_state = Ok (l, demo_state) ∧
          for_each record_call [] s' = Ok (l, s').
Proof.
  split; [vm_compute; reflexivity|]. split; [vm_compute; reflexivity|].
  pose proof (rotate_right_keeps_order 4 8 small_pool_bound ops_demo demo_log demo_state 3%nat
                (mkNode 15 7 (Some 2%nat) (Some 1%nat) None BLACK) demo_run) as H.
  cbn [left] in H.
  destruct H as (s' & l & _ & _ & _ & Hr & Hf & Hf' & _); [vm_compute; reflexivity|].
  by exists s', l.
Defined.

Lemma rotate_round_trip_witness :
  run 4 8 ops_demo empty_map = Ok (demo_log, demo_state) ∧
  mem demo_state !! 1%nat = Some (mkNode 20 0 None (Some 0%nat) (Some 3%nat) BLACK) ∧
  ∃ s', rotate_left (Some 1%nat) demo_state = Ok (tt, s') ∧
        rotate_right (Some 0%nat) s' = Ok (tt, demo_state).
Proof.
  split; [vm_compute; reflexivity|]. split; [vm_compute; reflexivity|].
  pose proof (rotate_round_trip 4 8 small_pool_bound ops_demo demo_log demo_state 1%nat
                (mkNode 20 0 None (Some 0%nat) (Some 3%nat) BLACK) 0%nat demo_run) as H.
  destruct H as [H _]; [vm_compute; reflexivity|].
  exact (H eq_refl).
Defined.

Lemma empty_iff_no_node_witness :
  run 4 8 ops_demo empty_map = Ok (demo_log, demo_state) ∧
  ∃ b, empty demo_state = Ok (b, demo_state) ∧
       (b = true ↔ root demo_state = None) ∧
       (b = true ↔ mem demo_state = ∅) ∧
       (b = true ↔ for_each record_call [] demo_state = Ok ([], demo_state)).
Proof.
  split; [vm_compute; reflexivity|].
  exact (empty_iff_no_node 4 8 small_pool_bound ops_demo demo_log demo_state demo_run).
Defined.

Lemma parent_links_consistent_witness :
  run 4 8 ops_demo empty_map = Ok (demo_log, demo_state) ∧
  mem demo_state !! 1%nat = Some (mkNode 20 0 None (Some 0%nat) (Some 3%nat) BLACK) ∧
  (∃ nc, mem demo_state !! 0%nat = Some nc ∧ parent nc = Some 1%nat) ∧
  (∃ np, mem demo_state !! 3%nat = Some np ∧
         (left np = Some 1%nat ∨ right np = Some 1%nat)).
Proof.
  split; [vm_compute; reflexivity|]. split; [vm_compute; reflexivity|].
  pose proof (parent_links_consistent 4 8 small_pool_bound ops_demo demo_log demo_state 1%nat
                (mkNode 20 0 None (Some 0%nat) (Some 3%nat) BLACK) demo_run) as H.
  destruct H as (Hc & Hp & _); [vm_compute; reflexivity|].
  split; [apply Hc; by right|by apply Hp].
Defined.

Lemma lookup_depth_logarithmic_witness :
  run 4 8 ops_demo empty_map = Ok (demo_log, demo_state) ∧
  2 * Z.log2 (size_ demo_state + 1) < Z.of_nat 5 ∧
  find_loop 5 25 (root demo_state) demo_state = find 25 demo_state ∧
  contains_loop 5 25 (root demo_state) demo_state = contains 25 demo_state.
Proof.
  split; [vm_compute; reflexivity|]. split; [vm_compute; reflexivity|].
  apply (lookup_depth_logarithmic 4 8 small_pool_bound ops_demo demo_log demo_state 25 5 demo_run).
  vm_compute. reflexivity.
Defined.

Lemma later_run : run 4 8 ops_later demo_state = Ok (later_log, later_state).
Proof. vm_compute. reflexivity. Qed.

Lemma reference_stays_valid_witness :
  run 4 8 ops_demo empty_map = Ok (demo_log, demo_state) ∧
  mem demo_state !! 3%nat = Some (mkNode 15 7 (Some 2%nat) (Some 1%nat) None BLACK) ∧
  forallb (spares 15) ops_later = true ∧
  run 4 8 ops_later demo_state = Ok (later_log, later_state) ∧
  read_ref (Some 3%nat) later_state = Ok (7, later_state).
Proof.
  split; [vm_compute; reflexivity|]. split; [vm_compute; reflexivity|].
  split; [vm_compute; reflexivity|]. split; [vm_compute; reflexivity|].
  pose proof (reference_stays_valid 4 8 small_pool_bound ops_demo demo_log demo_state 3%nat
                (mkNode 15 7 (Some 2%nat) (Some 1%nat) None BLACK)
                ops_later later_log later_state demo_run) as H.
  destruct H as (nd' & _ & _ & _ & Hr);
    [vm_compute; reflexivity|vm_compute; reflexivity|exact later_run|].
  exact Hr.
Defined.

Lemma for_each_updates_in_place_witness :
  run 4 8 ops_demo empty_map = Ok (demo_log, demo_state) ∧
  ∃ s' l,
    for_each record_call [] demo_state = Ok (l, demo_state) ∧
    for_each (update_with (λ k v, v + k)) tt demo_state = Ok (tt, s') ∧
    for_each record_call [] s' = Ok ((λ e, (e.1, e.2 + e.1)) <$> l, s') ∧
    root s' = root demo_state ∧ size_ s' = size_ demo_state ∧ pool s' = pool demo_state ∧
    dom (mem s') = dom (mem demo_state).
Proof.
  split; [vm_compute; reflexivity|].
  exact (for_each_updates_in_place 4 8 small_pool_bound ops_demo demo_log demo_state
           (λ k v, v + k) demo_run).
Defined.

Lemma contains_iff_enumerated_witness :
  run 4 8 ops_demo empty_map = Ok (demo_log, demo_state) ∧
  ∃ l b, for_each record_call [] demo_state = Ok (l, demo_state) ∧
       contains 20 demo_state = Ok (b, demo_state) ∧ (b = true ↔ ∃ v, (20, v) ∈ l) ∧
       find 20 demo_state = Ok (default Value_default (entry_find 20 l), demo_state) ∧
       (∀ v, (20, v) ∈ l → entry_find 20 l = Some v).
Proof.
  split; [vm_compute; reflexivity|].
  exact (contains_iff_enumerated 4 8 small_pool_bound ops_demo demo_log demo_state 20 demo_run).
Defined.

Lemma keys_unique_witness :
  run 4 8 ops_demo empty_map = Ok (demo_log, demo_state) ∧
  mem demo_state !! 1%nat = Some (mkNode 20 0 None (Some 0%nat) (Some 3%nat) BLACK) ∧
  key_eq 20 20 = true ∧ 1%nat = 1%nat.
Proof.
  split; [vm_compute; reflexivity|]. split; [vm_compute; reflexivity|].
  split; [reflexivity|].
  apply (keys_unique 4 8 small_pool_bound ops_demo demo_log demo_state 1%nat 1%nat
           (mkNode 20 0 None (Some 0%nat) (Some 3%nat) BLACK)
           (mkNode 20 0 None (Some 0%nat) (Some 3%nat) BLACK) demo_run);
    vm_compute; reflexivity.
Defined.

Lemma search_tree_order_witness :
  run 4 8 ops_demo empty_map = Ok (demo_log, demo_state) ∧
  mem demo_state !! 3%nat = Some (mkNode 15 7 (Some 2%nat) (Some 1%nat) None BLACK) ∧
  klt 5 15 ∧ klt 15 20.
Proof.
  split; [vm_compute; reflexivity|]. split; [vm_compute; reflexivity|].
  pose proof (search_tree_order 4 8 small_pool_bound ops_demo demo_log demo_state 3%nat
                (mkNode 15 7 (Some 2%nat) (Some 1%nat) None BLACK) demo_run) as H.
  destruct H as [Hl Hr]; [vm_compute; reflexivity|].
  split.
  - apply (Hl 2%nat (mkNode 5 0 None None (Some 3%nat) BLACK)); vm_compute; reflexivity.
  - apply (Hr 1%nat (mkNode 20 0 None (Some 0%nat) (Some 3%nat) BLACK)); vm_compute; reflexivity.
Defined.


Lemma inserted_run : upsert 4 8 30 demo_state = Ok (Some 4%nat, inserted_state).
Proof. vm_compute. reflexivity. Qed.

Lemma erased_run : erase 20 demo_state = Ok (1, erased_state).
Proof. vm_compute. reflexivity. Qed.

Lemma insert_then_erase_witness :
  run 4 8 ops_demo empty_map = Ok (demo_log, demo_state) ∧
  contains 30 demo_state = Ok (false, demo_state) ∧
  upsert 4 8 30 demo_state = Ok (Some 4%nat, inserted_state) ∧
  ∃ s2 l,
    erase 30 inserted_state = Ok (1, s2) ∧
    for_each record_call [] demo_state = Ok (l, demo_state) ∧
    for_each record_call [] s2 = Ok (l, s2) ∧
    size s2 = Ok (size_ demo_state, s2) ∧
    contains 30 s2 = Ok (false, s2).
Proof.
  split; [vm_compute; reflexivity|]. split; [vm_compute; reflexivity|].
  split; [vm_compute; reflexivity|].
  apply (insert_then_erase 4 8 small_pool_bound ops_demo demo_log demo_state 30 (Some 4%nat)
           inserted_state demo_run).
  - vm_compute. reflexivity.
  - exact inserted_run.
Defined.

Lemma upsert_twice_witness :
  run 4 8 ops_demo empty_map = Ok (demo_log, demo_state) ∧
  upsert 4 8 30 demo_state = Ok (Some 4%nat, inserted_state) ∧
  upsert 4 8 30 inserted_state = Ok (Some 4%nat, inserted_state).
Proof.
  split; [vm_compute; reflexivity|]. split; [vm_compute; reflexivity|].
  exact (upsert_twice 4 8 small_pool_bound ops_demo demo_log demo_state 30 (Some 4%nat)
           inserted_state demo_run inserted_run).
Defined.

Lemma erase_then_upsert_witness :
  run 4 8 ops_demo empty_map = Ok (demo_log, demo_state) ∧
  erase 20 demo_state = Ok (1, erased_state) ∧
  ∃ s2, upsert 4 8 20 erased_state = Ok (Some 1%nat, s2) ∧
        read_ref (Some 1%nat) s2 = Ok (0, s2) ∧
        find 20 s2 = Ok (0, s2) ∧
        size s2 = Ok (size_ demo_state, s2).
Proof.
  split; [vm_compute; reflexivity|]. split; [vm_compute; reflexivity|].
  exact (erase_then_upsert 4 8 small_pool_bound ops_demo demo_log demo_state 20 erased_state
           demo_run erased_run).
Defined.

Lemma other_keys_untouched_witness :
  run 4 8 ops_demo empty_map = Ok (demo_log, demo_state) ∧
  apply_op 4 8 (OpErase 20) demo_state = Ok (EvErased 20 1, erased_state) ∧
  15 ≠ 20 ∧
  ∃ v b, find 15 demo_state = Ok (v, demo_state) ∧ find 15 erased_state = Ok (v, erased_state) ∧
         contains 15 demo_state = Ok (b, demo_state) ∧
         contains 15 erased_state = Ok (b, erased_state).
Proof.
  split; [vm_compute; reflexivity|]. split; [vm_compute; reflexivity|].
  split; [done|].
  apply (other_keys_untouched 4 8 small_pool_bound ops_demo demo_log demo_state (OpErase 20)
           (EvErased 20 1) erased_state 15 demo_run).
  - vm_compute. reflexivity.
  - done.
Defined.

